(** * Loose Diff (ldiff.py): a shallow embedding and its verified properties

    The program reads two text files, strips the trailing whitespace of each
    content, compares the two results and, when they differ, prints a unified
    diff of their lines.

    Conventions of the embedding:
    - a Python [str] is the list of its Unicode code points ([N]);
    - indices and sizes are [Z], as Python integers are;
    - [print] appends its argument to the list of printed texts (one entry
      per call, the newline that [print] adds left implicit); the program is
      embedded twice, first with a standard output on which every [print]
      succeeds, then (module [Stdout]) over a standard output that can
      refuse a text, [print] raising then; the second embedding follows the
      first up to the first text refused;
    - the file system is a function from paths to what [open]/[read] meet;
    - the library routines the program calls ([str.rstrip], [str.splitlines],
      text-mode reading, [difflib.unified_diff] and the [SequenceMatcher]
      methods below it) are embedded from CPython 3.11. *)

From Stdlib Require Import ZArith Lia.
From stdpp Require Import gmap list sorting strings pretty.

Local Open Scope Z_scope.

(** ** Python strings *)

Module Py.

Abbreviation char := N (only parsing).
Abbreviation str := (list N) (only parsing).

(** An ASCII literal as a [str]. *)
Definition lit (s : string) : str :=
  Ascii.N_of_ascii <$> String.list_ascii_of_string s.

Definition LF : char := 10%N.
Definition CR : char := 13%N.
Definition TAB : char := 9%N.

(** [str.isspace] on one character: the code points CPython classifies as
    whitespace ([_PyUnicode_IsWhitespace]). *)
Definition isspace (c : char) : bool :=
  ((9 <=? c) && (c <=? 13) || (28 <=? c) && (c <=? 32)
   || (c =? 133) || (c =? 160) || (c =? 5760)
   || (8192 <=? c) && (c <=? 8202)
   || (c =? 8232) || (c =? 8233) || (c =? 8239) || (c =? 8287)
   || (c =? 12288))%N.

(** The characters [str.splitlines] treats as line boundaries
    ([_PyUnicode_IsLinebreak]). *)
Definition islinebreak (c : char) : bool :=
  ((10 <=? c) && (c <=? 13) || (28 <=? c) && (c <=? 30)
   || (c =? 133) || (c =? 8232) || (c =? 8233))%N.

(** [s.rstrip()]: scan from the right end while the character is
    whitespace, then keep the slice before the scan position. *)
Fixpoint rstrip_index (s : str) (j : nat) : nat :=
  match j with
  | O => O
  | S j' =>
      match s !! j' with
      | Some c => if isspace c then rstrip_index s j' else j
      | None => j
      end
  end.

Definition rstrip (s : str) : str :=
  take (rstrip_index s (length s)) s.

(** [s.splitlines()] (keepends false): [cur] holds, reversed, the characters
    of the line being read.  A CR followed by LF is one boundary; text after
    the last boundary is a line only when it is not empty. *)
Fixpoint splitlines_from (cur : str) (s : str) : list str :=
  match s with
  | [] => match cur with [] => [] | _ => [reverse cur] end
  | c :: s' =>
      if islinebreak c then
        reverse cur ::
          match s' with
          | c' :: s'' =>
              if ((c =? CR) && (c' =? LF))%N then splitlines_from [] s''
              else splitlines_from [] s'
          | [] => splitlines_from [] s'
          end
      else splitlines_from (c :: cur) s'
  end.

Definition splitlines (s : str) : list str := splitlines_from [] s.

(** Reading in text mode with the default [newline=None]: every CR LF pair
    and every lone CR of the decoded text is returned as LF. *)
Fixpoint translate_newlines (s : str) : str :=
  match s with
  | [] => []
  | c :: s' =>
      if (c =? CR)%N then
        LF :: match s' with
              | c' :: s'' =>
                  if (c' =? LF)%N then translate_newlines s''
                  else translate_newlines s'
              | [] => []
              end
      else c :: translate_newlines s'
  end.

(** ['{}'.format(n)] for an integer. *)
Definition format_int (n : Z) : str := lit (pretty n).

(** [l[i]] for an index that is not negative. *)
Definition getitem {A} (l : list A) (i : Z) : option A :=
  if decide (0 ≤ i) then l !! Z.to_nat i else None.

(** [l[i:j]] for indices that are not negative. *)
Definition slice {A} (l : list A) (i j : Z) : list A :=
  drop (Z.to_nat i) (take (Z.to_nat j) l).

Definition len {A} (l : list A) : Z := Z.of_nat (length l).

End Py.

Import Py.


(** ** difflib (CPython 3.11, Lib/difflib.py)

    [SequenceMatcher(None, a, b)]: no junk predicate, [autojunk] left at its
    default [True].  The elements are any hashable values. *)

Module difflib.

Inductive tag := Replace | Delete | Insert | Equal.

#[global] Instance tag_eq_dec : EqDecision tag.
Proof. solve_decision. Defined.

(** A matching block [(i, j, k)]: [a[i:i+k] == b[j:j+k]]. *)
Abbreviation Match := (Z * Z * Z)%type (only parsing).
(** An opcode [(tag, i1, i2, j1, j2)]. *)
Abbreviation opcode := (tag * Z * Z * Z * Z)%type (only parsing).

(** [while cond: body], run for at most [fuel] iterations. *)
Fixpoint while {S} (fuel : nat) (cond : S → bool) (body : S → S) (s : S) : S :=
  match fuel with
  | O => s
  | Datatypes.S fuel' => if cond s then while fuel' cond body (body s) else s
  end.

(** Tuples of integers compare lexicographically. *)
Definition match_le (x y : Match) : Prop :=
  x.1.1 < y.1.1 ∨
  (x.1.1 = y.1.1 ∧ (x.1.2 < y.1.2 ∨ (x.1.2 = y.1.2 ∧ x.2 ≤ y.2))).

#[global] Instance match_le_dec : RelDecision match_le.
Proof. intros x y. unfold match_le. apply _. Defined.

Section SequenceMatcher.
Context {A : Type} `{Countable A}.

Record SequenceMatcher := {
  seq_a : list A;
  seq_b : list A;
  b2j : gmap A (list Z);
  bjunk : gset A;
  bpopular : gset A;
}.

(** [enumerate(l)], counting from [i]. *)
Fixpoint enumerate_from (i : Z) (l : list A) : list (Z * A) :=
  match l with
  | [] => []
  | x :: l' => (i, x) :: enumerate_from (i + 1) l'
  end.

(** [__chain_b]: index the elements of [b]; with no junk predicate the junk
    set stays empty; for 200 elements or more, the elements that occur more
    than [n // 100 + 1] times are popular and leave the index. *)
Definition chain_b (b : list A) : gmap A (list Z) * gset A * gset A :=
  let b2j := foldl (λ (m : gmap A (list Z)) '(i, elt),
                      <[elt := default [] (m !! elt) ++ [i]]> m)
                   ∅ (enumerate_from 0 b) in
  let junk : gset A := ∅ in
  let n := len b in
  if decide (200 ≤ n) then
    let ntest := n `div` 100 + 1 in
    let popular : gset A :=
      dom (filter (λ kv : A * list Z, ntest < len kv.2) b2j) in
    (filter (λ kv : A * list Z, kv.1 ∉ popular) b2j, junk, popular)
  else (b2j, junk, ∅).

Definition new (a b : list A) : SequenceMatcher :=
  let '(b2j, junk, popular) := chain_b b in
  {| seq_a := a; seq_b := b; b2j := b2j; bjunk := junk; bpopular := popular |}.

Section methods.
Variable self : SequenceMatcher.

(** The loop over [b2j.get(a[i], nothing)] of [find_longest_match]: the
    state is [newj2len] and the best block so far. *)
Fixpoint flm_inner (j2len : gmap Z Z) (i blo bhi : Z) (js : list Z)
    (st : gmap Z Z * Match) : gmap Z Z * Match :=
  match js with
  | [] => st
  | j :: js' =>
      if decide (j < blo) then flm_inner j2len i blo bhi js' st
      else if decide (bhi ≤ j) then st
      else
        let '(newj2len, (besti, bestj, bestsize)) := st in
        let k := default 0 (j2len !! (j - 1)) + 1 in
        let newj2len := <[j := k]> newj2len in
        flm_inner j2len i blo bhi js'
          (if decide (bestsize < k)
           then (newj2len, (i - k + 1, j - k + 1, k))
           else (newj2len, (besti, bestj, bestsize)))
  end.

(** One iteration of [for i in range(alo, ahi)]. *)
Definition flm_outer (blo bhi : Z) (st : gmap Z Z * Match) (i : Z)
    : gmap Z Z * Match :=
  let '(j2len, best) := st in
  let js := match getitem (seq_a self) i with
            | Some x => default [] (b2j self !! x)
            | None => []
            end in
  flm_inner j2len i blo bhi js (∅, best).

(** The four extension loops test [a[..] == b[..]] at positions that the
    guards keep inside the sequences. *)
Definition same_at (junk : bool) (i j : Z) : bool :=
  match getitem (seq_a self) i, getitem (seq_b self) j with
  | Some x, Some y =>
      bool_decide (bool_decide (y ∈ bjunk self) = junk) && bool_decide (x = y)
  | _, _ => false
  end.

Definition extend_left (junk : bool) (alo blo : Z) (m : Match) : Match :=
  while (Z.to_nat (m.1.1 - alo))
    (λ '(besti, bestj, bestsize),
       bool_decide (alo < besti) && bool_decide (blo < bestj)
       && same_at junk (besti - 1) (bestj - 1))
    (λ '(besti, bestj, bestsize), (besti - 1, bestj - 1, bestsize + 1))
    m.

Definition extend_right (junk : bool) (ahi bhi : Z) (m : Match) : Match :=
  while (Z.to_nat (ahi - (m.1.1 + m.2)))
    (λ '(besti, bestj, bestsize),
       bool_decide (besti + bestsize < ahi)
       && bool_decide (bestj + bestsize < bhi)
       && same_at junk (besti + bestsize) (bestj + bestsize))
    (λ '(besti, bestj, bestsize), (besti, bestj, bestsize + 1))
    m.

Definition find_longest_match (alo ahi blo bhi : Z) : Match :=
  let best :=
    (foldl (flm_outer blo bhi) (∅, (alo, blo, 0)) (seqZ alo (ahi - alo))).2 in
  let best := extend_left false alo blo best in
  let best := extend_right false ahi bhi best in
  let best := extend_left true alo blo best in
  extend_right true ahi bhi best.

(** The [while queue:] loop of [get_matching_blocks].  [queue] is held with
    its last element first: [pop()] takes the head, [append] conses. *)
Fixpoint mb_loop (fuel : nat) (queue : list (Z * Z * Z * Z))
    (matching_blocks : list Match) : list (Z * Z * Z * Z) * list Match :=
  match fuel with
  | O => (queue, matching_blocks)
  | S fuel' =>
      match queue with
      | [] => (queue, matching_blocks)
      | (alo, ahi, blo, bhi) :: queue =>
          let '(i, j, k) := find_longest_match alo ahi blo bhi in
          if decide (k = 0) then mb_loop fuel' queue matching_blocks
          else
            let queue :=
              if decide (alo < i ∧ blo < j)
              then (alo, i, blo, j) :: queue else queue in
            let queue :=
              if decide (i + k < ahi ∧ j + k < bhi)
              then (i + k, ahi, j + k, bhi) :: queue else queue in
            mb_loop fuel' queue (matching_blocks ++ [(i, j, k)])
      end
  end.

(** The loop that merges adjacent blocks. *)
Definition collapse_step (st : Match * list Match) (m : Match)
    : Match * list Match :=
  let '((i1, j1, k1), non_adjacent) := st in
  let '(i2, j2, k2) := m in
  if decide (i1 + k1 = i2 ∧ j1 + k1 = j2) then ((i1, j1, k1 + k2), non_adjacent)
  else
    ((i2, j2, k2),
     if decide (k1 = 0) then non_adjacent else non_adjacent ++ [(i1, j1, k1)]).

Definition get_matching_blocks : list Match :=
  let la := len (seq_a self) in
  let lb := len (seq_b self) in
  let matching_blocks :=
    (mb_loop (2 * length (seq_a self) + 1) [(0, la, 0, lb)] []).2 in
  let matching_blocks := merge_sort match_le matching_blocks in
  let '((i1, j1, k1), non_adjacent) :=
    foldl collapse_step ((0, 0, 0), []) matching_blocks in
  let non_adjacent :=
    if decide (k1 = 0) then non_adjacent else non_adjacent ++ [(i1, j1, k1)] in
  non_adjacent ++ [(la, lb, 0)].

Definition opcode_step (st : Z * Z * list opcode) (m : Match)
    : Z * Z * list opcode :=
  let '(i, j, answer) := st in
  let '(ai, bj, size) := m in
  let answer :=
    if decide (i < ai ∧ j < bj) then answer ++ [(Replace, i, ai, j, bj)]
    else if decide (i < ai) then answer ++ [(Delete, i, ai, j, bj)]
    else if decide (j < bj) then answer ++ [(Insert, i, ai, j, bj)]
    else answer in
  let '(i, j) := (ai + size, bj + size) in
  (i, j, if decide (size = 0) then answer
         else answer ++ [(Equal, ai, i, bj, j)]).

Definition get_opcodes : list opcode :=
  (foldl opcode_step (0, 0, []) get_matching_blocks).2.

(** [codes[0] = ...] and [codes[-1] = ...] of [get_grouped_opcodes]. *)
Definition trim_leading (n : Z) (c : opcode) : opcode :=
  let '(tag, i1, i2, j1, j2) := c in
  if decide (tag = Equal) then (tag, i1 `max` (i2 - n), i2, j1 `max` (j2 - n), j2)
  else c.

Definition trim_trailing (n : Z) (c : opcode) : opcode :=
  let '(tag, i1, i2, j1, j2) := c in
  if decide (tag = Equal) then (tag, i1, i2 `min` (i1 + n), j1, j2 `min` (j1 + n))
  else c.

(** The grouping loop: the state is the open group and the groups yielded. *)
Definition group_step (n : Z) (st : list opcode * list (list opcode))
    (c : opcode) : list opcode * list (list opcode) :=
  let '(group, yielded) := st in
  let '(tag, i1, i2, j1, j2) := c in
  if decide (tag = Equal ∧ n + n < i2 - i1) then
    ([(tag, i1 `max` (i2 - n), i2, j1 `max` (j2 - n), j2)],
     yielded ++ [group ++ [(tag, i1, i2 `min` (i1 + n), j1, j2 `min` (j1 + n))]])
  else (group ++ [c], yielded).

Definition is_equal (c : opcode) : bool := bool_decide (c.1.1.1.1 = Equal).

Definition get_grouped_opcodes (n : Z) : list (list opcode) :=
  let codes := get_opcodes in
  let codes := match codes with [] => [(Equal, 0, 1, 0, 1)] | _ => codes end in
  let codes := alter (trim_leading n) 0%nat codes in
  let codes := alter (trim_trailing n) (pred (length codes)) codes in
  let '(group, yielded) := foldl (group_step n) ([], []) codes in
  match group with
  | [] => yielded
  | [c] => if is_equal c then yielded else yielded ++ [group]
  | _ => yielded ++ [group]
  end.

End methods.
End SequenceMatcher.

Arguments SequenceMatcher A {_ _}.

(** [_format_range_unified] *)
Definition format_range_unified (start stop : Z) : str :=
  let beginning := start + 1 in
  let length := stop - start in
  if decide (length = 1) then format_int beginning
  else
    let beginning := if decide (length = 0) then beginning - 1 else beginning in
    format_int beginning ++ lit "," ++ format_int length.

(** The lines one group contributes: the [@@] range line, then the lines of
    each opcode with their prefix.  A group is never empty. *)
Definition hunk (a b : list str) (lineterm : str) (group : list opcode)
    : list str :=
  match head group, last group with
  | Some first, Some last =>
      let file1_range := format_range_unified first.1.1.1.2 last.1.1.2 in
      let file2_range := format_range_unified first.1.2 last.2 in
      (lit "@@ -" ++ file1_range ++ lit " +" ++ file2_range ++ lit " @@"
         ++ lineterm)
      :: mjoin ((λ '(tag, i1, i2, j1, j2),
                  match tag with
                  | Equal => (λ line, lit " " ++ line) <$> slice a i1 i2
                  | Replace =>
                      ((λ line, lit "-" ++ line) <$> slice a i1 i2)
                      ++ ((λ line, lit "+" ++ line) <$> slice b j1 j2)
                  | Delete => (λ line, lit "-" ++ line) <$> slice a i1 i2
                  | Insert => (λ line, lit "+" ++ line) <$> slice b j1 j2
                  end) <$> group)
  | _, _ => []
  end.

(** [unified_diff], the generator run to its end.  [_check_types] raises
    only for arguments that are not [str]; here all of them are. *)
Definition unified_diff (a b : list str)
    (fromfile tofile fromfiledate tofiledate : str) (n : Z) (lineterm : str)
    : list str :=
  (foldl (λ '(started, out) group,
            let out :=
              if started : bool then out
              else
                let fromdate :=
                  match fromfiledate with [] => [] | _ => TAB :: fromfiledate end in
                let todate :=
                  match tofiledate with [] => [] | _ => TAB :: tofiledate end in
                out ++ [lit "--- " ++ fromfile ++ fromdate ++ lineterm;
                        lit "+++ " ++ tofile ++ todate ++ lineterm] in
            (true, out ++ hunk a b lineterm group))
         (false, [])
         (get_grouped_opcodes (new a b) n)).2.

End difflib.


(** ** The program (src/ldiff.py) *)

(** *** Effects: printing and exceptions

    A computation yields the texts it printed, in order, and either the
    exception that ended it or its value.  Here standard output takes every
    text: [print] never raises.  The module [Stdout] below embeds the
    program over a standard output that can refuse a text. *)

Inductive exception :=
  | FileNotFoundError
  | OtherException (e : str)   (* any other instance of [Exception]; [e] is its [str()] *)
  | SystemExit (code : Z).     (* a [BaseException] that is not an [Exception] *)

Definition io (A : Type) : Type := list str * (exception + A).

#[global] Instance io_ret : MRet io := λ A x, ([], inr x).

#[global] Instance io_bind : MBind io := λ A B f m,
  match m with
  | (out, inr x) => let '(out', r) := f x in (out ++ out', r)
  | (out, inl e) => (out, inl e)
  end.

Definition print (s : str) : io unit := ([s], inr ()).
Definition raise {A} (e : exception) : io A := ([], inl e).

(** [try: body  except ...: handler]: the handler receives the exception and
    re-raises the ones no clause matches. *)
Definition try_except {A} (body : io A) (handler : exception → io A) : io A :=
  match body with
  | (out, inl e) => let '(out', r) := handler e in (out ++ out', r)
  | _ => body
  end.

(** [for x in l: f(x)] *)
Fixpoint for_each {A} (l : list A) (f : A → io unit) : io unit :=
  match l with
  | [] => mret ()
  | x :: l' => f x ;; for_each l' f
  end.

(** [l[i]], raising [IndexError] out of range. *)
Definition index {A} (l : list A) (i : Z) : io A :=
  match getitem l i with
  | Some x => mret x
  | None => raise (OtherException (lit "list index out of range"))
  end.

Definition output {A} (m : io A) : list str := m.1.

(** The status the interpreter exits with. *)
Definition exit_status {A} (m : io A) : Z :=
  match m.2 with
  | inr _ => 0
  | inl (SystemExit code) => code
  | inl _ => 1
  end.

(** *** Files

    What [open(path, 'r', encoding='utf-8')] followed by [f.read()] meets
    at a path: no file, another failure (permission, decoding, ...) raised
    as an [Exception] whose [str()] is [e], or the decoded characters of
    the file. *)
Inductive file :=
  | Missing
  | Unreadable (e : str)
  | Text (decoded : str).

Abbreviation filesystem := (str → file) (only parsing).

(** [open(...)] and [f.read()]: text mode translates the newlines. *)
Definition open_read (fs : filesystem) (file_path : str) : io str :=
  match fs file_path with
  | Missing => raise FileNotFoundError
  | Unreadable e => raise (OtherException e)
  | Text decoded => mret (translate_newlines decoded)
  end.

(** The texts of the messages, as code points. *)

(** "Error: 파일을 찾을 수 없습니다 - '" *)
Definition msg_not_found : str :=
  [69; 114; 114; 111; 114; 58; 32; 54028; 51068; 51012; 32; 52286; 51012; 32;
   49688; 32; 50630; 49845; 45768; 45796; 32; 45; 32; 39]%N.

(** "Error: 파일을 읽는 중 오류 발생 - '" *)
Definition msg_read_error : str :=
  [69; 114; 114; 111; 114; 58; 32; 54028; 51068; 51012; 32; 51069; 45716; 32;
   51473; 32; 50724; 47448; 32; 48156; 49373; 32; 45; 32; 39]%N.

(** "✅ 파일이 실질적으로 동일합니다 (끝 공백/줄바꿈 무시)." *)
Definition msg_equivalent : str :=
  [9989; 32; 54028; 51068; 51060; 32; 49892; 51656; 51201; 51004; 47196; 32;
   46041; 51068; 54633; 45768; 45796; 32; 40; 45149; 32; 44277; 48177; 47;
   51460; 48148; 45000; 32; 47924; 49884; 41; 46]%N.

(** "\n⚠️  파일 내용에 차이가 있습니다:" *)
Definition msg_differs : str :=
  [10; 9888; 65039; 32; 32; 54028; 51068; 32; 45236; 50857; 50640; 32; 52264;
   51060; 44032; 32; 51080; 49845; 45768; 45796; 58]%N.

(** "사용법: python loose_diff.py <파일1_경로> <파일2_경로>" *)
Definition msg_usage : str :=
  [49324; 50857; 48277; 58; 32; 112; 121; 116; 104; 111; 110; 32; 108; 111;
   111; 115; 101; 95; 100; 105; 102; 102; 46; 112; 121; 32; 60; 54028; 51068;
   49; 95; 44221; 47196; 62; 32; 60; 54028; 51068; 50; 95; 44221; 47196; 62]%N.

(** [read_file_content_loosely] *)
Definition read_file_content_loosely (fs : filesystem) (file_path : str)
    : io (option str) :=
  try_except
    (text ← open_read fs file_path;
     mret (Some (rstrip text)))
    (λ exn,
       match exn with
       | FileNotFoundError =>
           print (msg_not_found ++ file_path ++ lit "'") ;;
           mret None
       | OtherException e =>
           print (msg_read_error ++ file_path ++ lit "': " ++ e) ;;
           mret None
       | _ => raise exn
       end).

Definition banner (file1_path file2_path : str) : list str :=
  [lit "--- Loose Diff ---------------------------------";
   lit " a: " ++ file1_path;
   lit " b: " ++ file2_path;
   lit "----------------------------------------------"].

(** [loose_diff] *)
Definition loose_diff (fs : filesystem) (file1_path file2_path : str)
    : io unit :=
  print (lit "--- Loose Diff ---------------------------------") ;;
  print (lit " a: " ++ file1_path) ;;
  print (lit " b: " ++ file2_path) ;;
  print (lit "----------------------------------------------") ;;
  content1 ← read_file_content_loosely fs file1_path;
  content2 ← read_file_content_loosely fs file2_path;
  match content1, content2 with
  | Some content1, Some content2 =>
      if decide (content1 = content2) then print msg_equivalent
      else
        print msg_differs ;;
        let lines1 := splitlines content1 in
        let lines2 := splitlines content2 in
        let diff :=
          difflib.unified_diff lines1 lines2
            (lit "a/" ++ file1_path) (lit "b/" ++ file2_path) [] [] 3 [] in
        for_each diff print
  | _, _ => mret ()
  end.

(** The script body, run with [sys.argv = argv]. *)
Definition main (fs : filesystem) (argv : list str) : io unit :=
  (if decide (len argv ≠ 3) then
     print msg_usage ;;
     raise (SystemExit 1)
   else mret ()) ;;
  file1 ← index argv 1;
  file2 ← index argv 2;
  loose_diff fs file1 file2.

(** *** The program over a standard output that can refuse a text

    Above, every [print] succeeds.  The call proper encodes its text for
    [sys.stdout] and writes it there, and raises when that fails:
    [UnicodeEncodeError] for a text the encoding of the stream cannot encode
    (under strict UTF-8 a path that holds a lone surrogate, which is how
    [sys.argv] carries an argument that is not valid UTF-8; under ASCII or a
    legacy code page the messages of the program themselves),
    [BrokenPipeError] for a pipe that its reader closed.  Both are instances
    of [Exception], and nothing of the text is written.  No [print] of the
    program stands inside a [try] block.

    Here the stream is a parameter: from the texts written so far and the
    text to write it gives [None] when the text is written, or the [str()]
    of the exception [print] raises.  A computation takes the texts written
    before it and yields the texts written after it, with the exception
    that ended it or its value.  What the interpreter does to the stream
    when it exits (the last flush of a buffered stream) is not part of the
    embedding. *)

Module Stdout.

Abbreviation stdout := (list str → str → option str) (only parsing).

Definition io (A : Type) : Type := list str → list str * (exception + A).

#[global] Instance ret : MRet io := λ A x written, (written, inr x).

#[global] Instance bind : MBind io := λ A B f m written,
  match m written with
  | (written', inr x) => f x written'
  | (written', inl e) => (written', inl e)
  end.

Definition print (out : stdout) (s : str) : io unit := λ written,
  match out written s with
  | None => (written ++ [s], inr ())
  | Some e => (written, inl (OtherException e))
  end.

Definition raise {A} (e : exception) : io A := λ written, (written, inl e).

Definition try_except {A} (body : io A) (handler : exception → io A) : io A :=
  λ written,
    match body written with
    | (written', inl e) => handler e written'
    | r => r
    end.

Fixpoint for_each {A} (l : list A) (f : A → io unit) : io unit :=
  match l with
  | [] => mret ()
  | x :: l' => f x ;; for_each l' f
  end.

Definition index {A} (l : list A) (i : Z) : io A :=
  match getitem l i with
  | Some x => mret x
  | None => raise (OtherException (lit "list index out of range"))
  end.

(** The status the interpreter exits with: 1 for an exception nothing
    caught, the code of [sys.exit]. *)
Definition exit_status {A} (r : list str * (exception + A)) : Z :=
  match r.2 with
  | inr _ => 0
  | inl (SystemExit code) => code
  | inl _ => 1
  end.

Definition open_read (fs : filesystem) (file_path : str) : io str :=
  match fs file_path with
  | Missing => raise FileNotFoundError
  | Unreadable e => raise (OtherException e)
  | Text decoded => mret (translate_newlines decoded)
  end.

(** [read_file_content_loosely]: the two [print] calls are in the handlers,
    outside the [try] block. *)
Definition read_file_content_loosely (out : stdout) (fs : filesystem)
    (file_path : str) : io (option str) :=
  try_except
    (text ← open_read fs file_path;
     mret (Some (rstrip text)))
    (λ exn,
       match exn with
       | FileNotFoundError =>
           print out (msg_not_found ++ file_path ++ lit "'") ;;
           mret None
       | OtherException e =>
           print out (msg_read_error ++ file_path ++ lit "': " ++ e) ;;
           mret None
       | _ => raise exn
       end).

(** [loose_diff] *)
Definition loose_diff (out : stdout) (fs : filesystem)
    (file1_path file2_path : str) : io unit :=
  print out (lit "--- Loose Diff ---------------------------------") ;;
  print out (lit " a: " ++ file1_path) ;;
  print out (lit " b: " ++ file2_path) ;;
  print out (lit "----------------------------------------------") ;;
  content1 ← read_file_content_loosely out fs file1_path;
  content2 ← read_file_content_loosely out fs file2_path;
  match content1, content2 with
  | Some content1, Some content2 =>
      if decide (content1 = content2) then print out msg_equivalent
      else
        print out msg_differs ;;
        let lines1 := splitlines content1 in
        let lines2 := splitlines content2 in
        let diff :=
          difflib.unified_diff lines1 lines2
            (lit "a/" ++ file1_path) (lit "b/" ++ file2_path) [] [] 3 [] in
        for_each diff (print out)
  | _, _ => mret ()
  end.

(** The script body, run with [sys.argv = argv]. *)
Definition main (out : stdout) (fs : filesystem) (argv : list str) : io unit :=
  (if decide (len argv ≠ 3) then
     print out msg_usage ;;
     raise (SystemExit 1)
   else mret ()) ;;
  file1 ← index argv 1;
  file2 ← index argv 2;
  loose_diff out fs file1 file2.

End Stdout.


(** ** Vocabulary of the statements *)

Definition no_linebreak (line : str) : Prop :=
  Forall (λ c, islinebreak c = false) line.

Definition all_space (w : str) : Prop :=
  Forall (λ c, isspace c = true) w.

(** A string with no trailing whitespace: empty, or ending in a character
    that is not whitespace. *)
Definition no_trailing_space (s : str) : Prop :=
  ∀ c, last s = Some c → isspace c = false.

(** The shapes of the lines of a unified diff after its two headers: a
    range line, or a line of one of the two inputs behind its prefix. *)
Definition range_line (l : str) : Prop :=
  ∃ s1 e1 s2 e2 : Z,
    l = lit "@@ -" ++ difflib.format_range_unified s1 e1
        ++ lit " +" ++ difflib.format_range_unified s2 e2 ++ lit " @@".

Definition hunk_line (a b : list str) (l : str) : Prop :=
  range_line l
  ∨ (∃ x, x ∈ a ∧ (l = lit " " ++ x ∨ l = lit "-" ++ x))
  ∨ (∃ x, x ∈ b ∧ l = lit "+" ++ x).

(** The first character of a text is one of [cs]. *)
Definition starts_with_one_of (cs : list N) (l : str) : Prop :=
  ∃ c, head l = Some c ∧ c ∈ cs.

(** The diff [loose_diff] prints for two contents that differ. *)
Definition rendered_diff (file1_path file2_path content1 content2 : str)
    : list str :=
  difflib.unified_diff (splitlines content1) (splitlines content2)
    (lit "a/" ++ file1_path) (lit "b/" ++ file2_path) [] [] 3 [].

(** A file system for examples. *)
Definition example_fs (p : str) : file :=
  if decide (p = lit "a.txt") then Text (lit "foo" ++ [LF] ++ lit "bar" ++ [LF])
  else if decide (p = lit "b.txt") then Text (lit "foo" ++ [LF] ++ lit "baz" ++ [LF])
  else if decide (p = lit "c.txt") then
    Text (lit "line1" ++ [LF] ++ lit "line2" ++ [LF; LF; LF])
  else if decide (p = lit "d.txt") then Text (lit "line1" ++ [LF] ++ lit "line2")
  else if decide (p = lit "crlf.txt") then Text (lit "a" ++ [CR; LF] ++ lit "b")
  else if decide (p = lit "lf.txt") then Text (lit "a" ++ [LF] ++ lit "b")
  else if decide (p = lit "vt.txt") then Text (lit "a" ++ [11%N] ++ lit "b")
  else if decide (p = lit "locked.txt") then Unreadable (lit "Permission denied")
  else Missing.

(** *** Vocabulary for a standard output that refuses texts *)


(** The run [r], started after [written] to print [texts], stopped at the
    first text the stream refused: what stands before it is written, and
    the run ends with the exception of that [print]. *)
Definition stops_at {A} (out : Stdout.stdout) (written texts : list str)
    (r : list str * (exception + A)) : Prop :=
  ∃ before s after e,
    texts = before ++ s :: after
    ∧ out (written ++ before) s = Some e
    ∧ r = (written ++ before, inl (OtherException e)).

(** [m], over the stream [out], does what [m0] does where every [print]
    succeeds, up to the first text that [out] refuses. *)
Definition follows {A} (out : Stdout.stdout) (m : Stdout.io A) (m0 : io A)
    : Prop :=
  ∀ written,
    m written = (written ++ m0.1, m0.2) ∨ stops_at out written m0.1 (m written).




(** *** Vocabulary for the sequence matcher *)

Section matcher_vocabulary.
Context {A : Type} `{Countable A}.

(** The positions of [x] in [l], counted from [i], in ascending order. *)
Fixpoint indices_from (x : A) (i : Z) (l : list A) : list Z :=
  match l with
  | [] => []
  | y :: l' =>
      (if decide (y = x) then [i] else []) ++ indices_from x (i + 1) l'
  end.

(** [m] is a block of equal elements inside the window [alo:ahi], [blo:bhi]
    of the two sequences. *)
Definition block_in (a b : list A) (alo ahi blo bhi : Z)
    (m : difflib.Match) : Prop :=
  alo ≤ m.1.1 ∧ m.1.1 + m.2 ≤ ahi ∧ blo ≤ m.1.2 ∧ m.1.2 + m.2 ≤ bhi ∧ 0 ≤ m.2
  ∧ ∀ t, 0 ≤ t < m.2 →
      ∃ x, getitem a (m.1.1 + t) = Some x ∧ getitem b (m.1.2 + t) = Some x.

(** The number of consecutive indexed elements (keys of [b2j]) of [l] that
    end at position [i]. *)
Fixpoint run (b2j : gmap A (list Z)) (l : list A) (i : nat) : Z :=
  match l !! i with
  | Some x =>
      match b2j !! x with
      | Some _ => match i with O => 1 | S i' => run b2j l i' + 1 end
      | None => 0
      end
  | None => 0
  end.

Definition runZ (b2j : gmap A (list Z)) (l : list A) (i : Z) : Z :=
  if decide (0 ≤ i) then run b2j l (Z.to_nat i) else 0.

(** A window [(alo, ahi, blo, bhi)] of the two sequences. *)
Definition valid_window (a b : list A) (w : Z * Z * Z * Z) : Prop :=
  0 ≤ w.1.1.1 ≤ w.1.1.2 ∧ w.1.1.2 ≤ len a ∧ 0 ≤ w.1.2 ≤ w.2 ∧ w.2 ≤ len b.

(** The window a block covers. *)
Definition window_of (m : difflib.Match) : Z * Z * Z * Z :=
  (m.1.1, m.1.1 + m.2, m.1.2, m.1.2 + m.2).

(** [w1] ends, in both sequences, where [w2] starts or earlier. *)
Definition before (w1 w2 : Z * Z * Z * Z) : Prop :=
  w1.1.1.2 ≤ w2.1.1.1 ∧ w1.2 ≤ w2.1.2.

Definition apart (w1 w2 : Z * Z * Z * Z) : Prop := before w1 w2 ∨ before w2 w1.

Fixpoint all_apart (ws : list (Z * Z * Z * Z)) : Prop :=
  match ws with
  | [] => True
  | w :: ws' => Forall (apart w) ws' ∧ all_apart ws'
  end.

Definition inside (w w' : Z * Z * Z * Z) : Prop :=
  w'.1.1.1 ≤ w.1.1.1 ∧ w.1.1.2 ≤ w'.1.1.2 ∧ w'.1.2 ≤ w.1.2 ∧ w.2 ≤ w'.2.

(** A bound on the iterations the queue of [get_matching_blocks] still
    takes. *)
Definition queue_weight (queue : list (Z * Z * Z * Z)) : nat :=
  sum_list ((λ w, 2 * Z.to_nat (w.1.1.2 - w.1.1.1) + 1)%nat <$> queue).

(** The state of the [while queue:] loop: the windows to look at and the
    blocks found are valid and pairwise apart. *)
Definition queue_inv (a b : list A) (queue : list (Z * Z * Z * Z))
    (matching_blocks : list difflib.Match) : Prop :=
  Forall (valid_window a b) queue
  ∧ Forall (λ m, block_in a b 0 (len a) 0 (len b) m ∧ 0 < m.2) matching_blocks
  ∧ all_apart (queue ++ (window_of <$> matching_blocks)).

(** Blocks in ascending order, none overlapping the next. *)
Definition chain (ms : list difflib.Match) : Prop :=
  StronglySorted (λ m1 m2, before (window_of m1) (window_of m2)) ms.

(** Invariants of the main loop of [find_longest_match] when the two
    sequences are the same list [a] and the window is all of it.  Before
    row [i]: the best block lies on the diagonal, it is at least as long as
    every run that ends before [i], and [j2len] is bounded by the runs, with
    equality on the diagonal. *)
Definition diagonal_row (b2j : gmap A (list Z)) (a : list A) (i : Z)
    (st : gmap Z Z * difflib.Match) : Prop :=
  let '(j2len, (besti, bestj, bestsize)) := st in
  besti = bestj ∧ 0 ≤ besti ∧ 0 ≤ bestsize ∧ besti + bestsize ≤ len a
  ∧ (∀ i', 0 ≤ i' < i → runZ b2j a i' ≤ bestsize)
  ∧ (∀ j, 0 ≤ default 0 (j2len !! j) ≤ runZ b2j a j
          ∧ default 0 (j2len !! j) ≤ runZ b2j a (i - 1))
  ∧ default 0 (j2len !! (i - 1)) = runZ b2j a (i - 1).

(** Inside row [i], after the indices [pre]. *)
Definition diagonal_cell (b2j : gmap A (list Z)) (a : list A) (i : Z)
    (pre : list Z) (st : gmap Z Z * difflib.Match) : Prop :=
  let '(newj2len, (besti, bestj, bestsize)) := st in
  besti = bestj ∧ 0 ≤ besti ∧ 0 ≤ bestsize ∧ besti + bestsize ≤ len a
  ∧ (∀ i', 0 ≤ i' < i → runZ b2j a i' ≤ bestsize)
  ∧ (∀ j, 0 ≤ default 0 (newj2len !! j) ≤ runZ b2j a j
          ∧ default 0 (newj2len !! j) ≤ runZ b2j a i)
  ∧ (i ∈ pre → default 0 (newj2len !! i) = runZ b2j a i
               ∧ runZ b2j a i ≤ bestsize).

End matcher_vocabulary.

(** *** Vocabulary for the further properties *)

(** ["\n".join(lines)] *)
Fixpoint join_lines (lines : list str) : str :=
  match lines with
  | [] => []
  | line :: rest =>
      match rest with
      | [] => line
      | _ => line ++ LF :: join_lines rest
      end
  end.

(** A text with every line feed written as carriage return, line feed. *)
Fixpoint to_crlf (s : str) : str :=
  match s with
  | [] => []
  | c :: s' =>
      if (c =? LF)%N then CR :: LF :: to_crlf s' else c :: to_crlf s'
  end.

(** The only line boundary of the text is the line feed. *)
Definition only_LF_breaks (s : str) : Prop :=
  Forall (λ c, islinebreak c = true → c = LF) s.

(** The only line boundaries of the file are line feeds and carriage
    returns. *)
Definition standard_newlines (t : str) : Prop :=
  Forall (λ c, islinebreak c = true → c = LF ∨ c = CR) t.

(** [loose_diff] reports the two files equivalent. *)
Definition reports_equivalent (fs : str → file) (p q : str) : Prop :=
  loose_diff fs p q = (banner p q ++ [msg_equivalent], inr ()).

Section opcode_vocabulary.
Context {A : Type}.

(** What the opcodes build: [Equal] keeps a range of [a], [Replace] and
    [Insert] bring a range of [b], [Delete] brings nothing. *)
Definition apply_opcodes (a b : list A) (codes : list difflib.opcode)
    : list A :=
  mjoin ((λ '(tag, i1, i2, j1, j2),
            match tag with
            | difflib.Equal => slice a i1 i2
            | difflib.Delete => []
            | difflib.Replace | difflib.Insert => slice b j1 j2
            end) <$> codes).

(** What the opcodes consume: every opcode but [Insert] takes a range of
    [a]. *)
Definition consumed_by_opcodes (a : list A) (codes : list difflib.opcode)
    : list A :=
  mjoin ((λ '(tag, i1, i2, j1, j2),
            match tag with
            | difflib.Insert => []
            | _ => slice a i1 i2
            end) <$> codes).

(** An [Equal] opcode covers a block of equal elements, as long in [b] as
    in [a]. *)
Definition equal_code_ok (a b : list A) (c : difflib.opcode) : Prop :=
  c.1.1.1.1 = difflib.Equal →
  block_in a b 0 (len a) 0 (len b) (c.1.1.1.2, c.1.2, c.1.1.2 - c.1.1.1.2)
  ∧ c.1.1.2 - c.1.1.1.2 = c.2 - c.1.2.

End opcode_vocabulary.

(** *** Vocabulary for the diff read as a patch *)

Section tiling_vocabulary.
Context {A : Type}.

(** An opcode as [get_opcodes] makes them: ranges in ascending order, an
    [Equal] one over a block of equal elements, a [Delete] one with nothing
    of [b], an [Insert] one with nothing of [a]. *)
Definition code_ok (a b : list A) (c : difflib.opcode) : Prop :=
  c.1.1.1.2 ≤ c.1.1.2 ∧ c.1.2 ≤ c.2
  ∧ equal_code_ok a b c
  ∧ (c.1.1.1.1 = difflib.Delete → c.1.2 = c.2)
  ∧ (c.1.1.1.1 = difflib.Insert → c.1.1.1.2 = c.1.1.2).

(** The opcodes follow each other from the positions [(i, j)] of the two
    sequences to the positions [(i', j')], each starting where the one
    before it ends. *)
Fixpoint tiles (a b : list A) (codes : list difflib.opcode)
    (i j i' j' : Z) : Prop :=
  match codes with
  | [] => i = i' ∧ j = j'
  | c :: rest =>
      c.1.1.1.2 = i ∧ c.1.2 = j ∧ code_ok a b c
      ∧ tiles a b rest c.1.1.2 c.2 i' j'
  end.

(** Between the positions [(i, j)] and [(i', j')] the two sequences hold
    the same elements. *)
Definition gap (a b : list A) (i j i' j' : Z) : Prop :=
  i ≤ i' ∧ j ≤ j' ∧ slice a i i' = slice b j j'.

(** From [(i, j)] to [(i', j')], groups of opcodes alternate with stretches
    where the two sequences agree, one such stretch before each group and
    one after the last. *)
Fixpoint separated (a b : list A) (groups : list (list difflib.opcode))
    (i j i' j' : Z) : Prop :=
  match groups with
  | [] => gap a b i j i' j'
  | g :: rest =>
      ∃ gi gj gi' gj',
        gap a b i j gi gj ∧ g ≠ [] ∧ tiles a b g gi gj gi' gj'
        ∧ separated a b rest gi' gj' i' j'
  end.

End tiling_vocabulary.

(** The [@@] line of a hunk over [a[i1:i2]] and [b[j1:j2]]. *)
Definition range_text (i1 i2 j1 j2 : Z) : str :=
  lit "@@ -" ++ difflib.format_range_unified i1 i2
    ++ lit " +" ++ difflib.format_range_unified j1 j2 ++ lit " @@".

(** The line behind a prefix that is one of [cs]. *)
Definition behind (cs : list N) (l : str) : option str :=
  match l with
  | c :: x => if decide (c ∈ cs) then Some x else None
  | [] => None
  end.

(** The two sides of the body of a hunk: the lines behind a space or [-]
    are its old side, the lines behind a space or [+] its new side. *)
Definition old_side (body : list str) : list str :=
  omap (behind [32; 45]%N) body.

Definition new_side (body : list str) : list str :=
  omap (behind [32; 43]%N) body.

(** A hunk as it is printed: the ranges [i1:i2] and [j1:j2] of its [@@]
    line, and its body. *)
Abbreviation hunk_text := (Z * Z * Z * Z * list str)%type (only parsing).

Definition print_hunk (h : hunk_text) : list str :=
  range_text h.1.1.1.1 h.1.1.1.2 h.1.1.2 h.1.2 :: h.2.

(** Applying hunks to the lines [a], from position [i] on: the lines
    between the hunks are kept, the range [i1:i2] of each hunk gives way to
    the new side of its body. *)
Fixpoint patch (a : list str) (i : Z) (hunks : list hunk_text) : list str :=
  match hunks with
  | [] => drop (Z.to_nat i) a
  | h :: rest =>
      slice a i h.1.1.1.1 ++ new_side h.2 ++ patch a h.1.1.1.2 rest
  end.

(** What the body of a hunk is held to: its lines stand behind a space, [-]
    or [+], its old side is the range [i1:i2] of [a] and its new side the
    range [j1:j2] of [b]. *)
Definition hunk_ok (a b : list str) (h : hunk_text) : Prop :=
  Forall (starts_with_one_of [32; 45; 43]%N) h.2
  ∧ old_side h.2 = slice a h.1.1.1.1 h.1.1.1.2
  ∧ new_side h.2 = slice b h.1.1.2 h.1.2.

(** * Properties *)

(** Membership in, and inclusion of, explicit lists. *)
Ltac in_list :=
  repeat first [apply list_elem_of_here | apply list_elem_of_further].
Ltac sub_list :=
  let x := fresh "x" in
  intros x; rewrite !elem_of_cons, !elem_of_nil; tauto.


(** ** Trailing-whitespace stripping *)

Section rstrip_facts.
Implicit Types s t w : str.
Local Open Scope nat_scope.

Lemma rstrip_index_le s j : rstrip_index s j ≤ j.
Proof.
  induction j as [|j IH]; simpl; [done|].
  destruct (s !! j) as [c|]; [|done]. destruct (isspace c); lia.
Qed.

Lemma rstrip_index_ext s t j :
  (∀ i, i < j → s !! i = t !! i) → rstrip_index s j = rstrip_index t j.
Proof.
  induction j as [|j IH]; intros Hst; simpl; [done|].
  rewrite <- (Hst j) by lia. rewrite IH by (intros; apply Hst; lia). done.
Qed.

(** Everything the scan walks over is whitespace. *)
Lemma rstrip_index_spaces s j i c :
  rstrip_index s j ≤ i < j → s !! i = Some c → isspace c = true.
Proof.
  induction j as [|j IH]; simpl; [lia|].
  destruct (s !! j) as [d|] eqn:Hj.
  - destruct (isspace d) eqn:Hd; [|lia].
    intros Hi Hc. destruct (decide (i = j)) as [->|]; [congruence|].
    apply IH; [lia|done].
  - intros ? Hc. apply lookup_ge_None in Hj. apply lookup_lt_Some in Hc. lia.
Qed.

(** The scan stops right after a character that is not whitespace. *)
Lemma rstrip_index_stop s j r :
  j ≤ length s → rstrip_index s j = S r →
  ∃ c, s !! r = Some c ∧ isspace c = false.
Proof.
  induction j as [|j IH]; simpl; [done|]. intros Hj.
  destruct (s !! j) as [d|] eqn:Hd.
  - destruct (isspace d) eqn:Hsp.
    + apply IH. lia.
    + intros [= <-]. eauto.
  - apply lookup_ge_None in Hd. lia.
Qed.

(** A run of whitespace is walked over. *)
Lemma rstrip_index_skip s j k :
  j + k ≤ length s →
  (∀ i c, j ≤ i < j + k → s !! i = Some c → isspace c = true) →
  rstrip_index s (j + k) = rstrip_index s j.
Proof.
  induction k as [|k IH]; intros Hlen Hsp.
  - by rewrite Nat.add_0_r.
  - replace (j + S k) with (S (j + k)) by lia. simpl.
    destruct (s !! (j + k)) as [d|] eqn:Hd.
    + rewrite (Hsp (j + k) d) by (done || lia).
      apply IH; [lia|]. intros i c ?. apply Hsp. lia.
    + apply lookup_ge_None in Hd. lia.
Qed.

Lemma rstrip_index_fix s j c :
  s !! j = Some c → isspace c = false → rstrip_index s (S j) = S j.
Proof. intros Hc Hsp. simpl. by rewrite Hc, Hsp. Qed.

Lemma rstrip_prefix s : rstrip s `prefix_of` s.
Proof. apply prefix_take. Qed.

Lemma rstrip_length s : length (rstrip s) = rstrip_index s (length s).
Proof.
  unfold rstrip. rewrite length_take. pose proof (rstrip_index_le s (length s)). lia.
Qed.

(** What is removed is whitespace only. *)
Lemma rstrip_split s :
  ∃ w, s = rstrip s ++ w ∧ all_space w.
Proof.
  exists (drop (rstrip_index s (length s)) s). split.
  - unfold rstrip. by rewrite take_drop.
  - apply Forall_lookup. intros i c Hc. rewrite lookup_drop in Hc.
    apply (rstrip_index_spaces s (length s) (rstrip_index s (length s) + i));
      [|done].
    apply lookup_lt_Some in Hc. lia.
Qed.

(** The result does not end in whitespace. *)
Lemma rstrip_last s c : last (rstrip s) = Some c → isspace c = false.
Proof.
  rewrite last_lookup, rstrip_length. unfold rstrip.
  destruct (rstrip_index s (length s)) as [|r] eqn:Hr; simpl.
  - done.
  - rewrite lookup_take_lt by lia.
    destruct (rstrip_index_stop s (length s) r) as (d & Hd & Hsp); [lia|done|].
    congruence.
Qed.

(** A string that does not end in whitespace is left as it is. *)
Lemma rstrip_id s :
  (∀ c, last s = Some c → isspace c = false) → rstrip s = s.
Proof.
  intros Hlast. unfold rstrip.
  destruct (length s) as [|n] eqn:Hn.
  - apply nil_length_inv in Hn. by subst.
  - destruct (s !! n) as [c|] eqn:Hc.
    + rewrite (rstrip_index_fix s n c); [|done|].
      * rewrite <- Hn. apply firstn_all.
      * apply Hlast. rewrite last_lookup, Hn. done.
    + apply lookup_ge_None in Hc. lia.
Qed.

(** Whitespace appended at the end does not change the result. *)
Lemma rstrip_app_spaces s w :
  all_space w → rstrip (s ++ w) = rstrip s.
Proof.
  intros Hw. unfold rstrip. rewrite length_app.
  rewrite rstrip_index_skip.
  - rewrite (rstrip_index_ext (s ++ w) s).
    + rewrite take_app_le; [done|apply rstrip_index_le].
    + intros i Hi. by apply lookup_app_l.
  - rewrite length_app. lia.
  - intros i c Hi Hc. rewrite lookup_app_r in Hc by lia.
    unfold all_space in Hw. rewrite Forall_lookup in Hw. eauto.
Qed.

End rstrip_facts.

(** ** Line splitting and newline translation *)

Section splitlines_facts.
Implicit Types s cur line rest : str.

Lemma splitlines_from_no_linebreak s : ∀ cur line,
  no_linebreak cur → line ∈ splitlines_from cur s → no_linebreak line.
Proof.
  induction s as [s IH] using (induction_ltof1 _ length). unfold ltof in IH.
  intros cur line Hcur. destruct s as [|c s']; simpl.
  - destruct cur; [by intros ?%elem_of_nil|].
    intros ->%list_elem_of_singleton. by apply Forall_reverse.
  - destruct (islinebreak c) eqn:Hc.
    + intros [->|Hin]%elem_of_cons; [by apply Forall_reverse|].
      destruct s' as [|c' s''].
      * simpl in Hin. by apply elem_of_nil in Hin.
      * destruct ((c =? CR)%N && (c' =? LF)%N);
          (eapply IH; [|apply Forall_nil_2|exact Hin]); simpl; lia.
    + apply IH; [simpl; lia|]. by constructor.
Qed.

Lemma splitlines_no_linebreak s line :
  line ∈ splitlines s → no_linebreak line.
Proof. apply splitlines_from_no_linebreak. constructor. Qed.

(** A line feed ends the line read so far. *)
Lemma splitlines_from_LF line : ∀ cur rest,
  no_linebreak line →
  splitlines_from cur (line ++ LF :: rest)
  = (reverse cur ++ line) :: splitlines rest.
Proof.
  induction line as [|c line IH]; intros cur rest Hline; simpl.
  - rewrite app_nil_r. by destruct rest.
  - inversion_clear Hline as [|?? Hc Hline']. rewrite Hc.
    rewrite IH by done. by rewrite reverse_cons, <- app_assoc.
Qed.

(** So does a carriage return followed by a line feed, as one boundary. *)
Lemma splitlines_from_CRLF line : ∀ cur rest,
  no_linebreak line →
  splitlines_from cur (line ++ CR :: LF :: rest)
  = (reverse cur ++ line) :: splitlines rest.
Proof.
  induction line as [|c line IH]; intros cur rest Hline; simpl.
  - by rewrite app_nil_r.
  - inversion_clear Hline as [|?? Hc Hline']. rewrite Hc.
    rewrite IH by done. by rewrite reverse_cons, <- app_assoc.
Qed.

(** Text-mode reading returns no carriage return. *)
Lemma translate_newlines_no_CR s : CR ∉ translate_newlines s.
Proof.
  induction s as [s IH] using (induction_ltof1 _ length). unfold ltof in IH.
  destruct s as [|c s']; simpl; [apply not_elem_of_nil|].
  destruct (c =? CR)%N eqn:Hc.
  - apply not_elem_of_cons. split; [done|].
    destruct s' as [|c' s'']; [apply not_elem_of_nil|].
    destruct (c' =? LF)%N; apply IH; simpl; lia.
  - apply not_elem_of_cons. split.
    + intros Heq. subst c. by rewrite N.eqb_refl in Hc.
    + apply IH. simpl; lia.
Qed.

Lemma translate_newlines_id s : CR ∉ s → translate_newlines s = s.
Proof.
  induction s as [|c s IH]; [done|]. intros [Hc Hs]%not_elem_of_cons. simpl.
  destruct (N.eqb_spec c CR); [congruence|]. by rewrite IH.
Qed.

Lemma splitlines_from_nil s : ∀ cur,
  splitlines_from cur s = [] → cur = [] ∧ s = [].
Proof.
  induction s as [|c s IH]; intros cur; simpl.
  - by destruct cur.
  - destruct (islinebreak c); [done|]. by intros [[=] _]%IH.
Qed.

(** Joining the lines gives the text back, when the line feed is its only
    line boundary and it does not end with one. *)
Lemma join_splitlines_from s : ∀ cur,
  only_LF_breaks s → last s ≠ Some LF →
  join_lines (splitlines_from cur s) = reverse cur ++ s.
Proof.
  induction s as [|c s IH]; intros cur Hbreaks Hlast; simpl.
  - rewrite app_nil_r. destruct cur; [done|]. done.
  - apply Forall_cons in Hbreaks as [Hc Hbreaks].
    assert (Hlast' : s ≠ [] → last s ≠ Some LF).
    { intros Hs. destruct s as [|d s']; [done|]. by rewrite last_cons_cons in Hlast. }
    destruct (islinebreak c) eqn:Hbr.
    + rewrite (Hc eq_refl) in *.
      assert (Hs : s ≠ []) by (intros ->; by apply Hlast).
      assert (Hrest : splitlines_from [] s ≠ []).
      { intros [_ ?]%splitlines_from_nil. done. }
      change ((LF =? CR)%N) with false. simpl.
      assert (Heq : match s with
                    | [] => splitlines_from [] s
                    | _ :: _ => splitlines_from [] s
                    end = splitlines_from [] s) by (by destruct s).
      rewrite Heq. pose proof (IH [] Hbreaks (Hlast' Hs)) as Hjoin.
      destruct (splitlines_from [] s) as [|l ls]; [done|].
      by rewrite Hjoin.
    + rewrite IH; [by rewrite reverse_cons, <- app_assoc|done|].
      destruct s as [|d s]; [done|]. by apply Hlast'.
Qed.

Lemma only_LF_translate t :
  standard_newlines t → only_LF_breaks (translate_newlines t).
Proof.
  induction t as [t IH] using (induction_ltof1 _ length). unfold ltof in IH.
  destruct t as [|c t']; [constructor|]. intros [Hc Ht']%Forall_cons. simpl.
  destruct (N.eqb_spec c CR) as [->|Hcr].
  - apply Forall_cons. split; [done|].
    destruct t' as [|c' t'']; [constructor|].
    apply Forall_cons in Ht' as [Hc' Ht''].
    destruct (c' =? LF)%N; apply IH; simpl; try lia; [done|by constructor].
  - apply Forall_cons. split.
    + intros Hbr. by destruct (Hc Hbr).
    + apply IH; [simpl; lia|done].
Qed.

Lemma only_LF_rstrip s : only_LF_breaks s → only_LF_breaks (rstrip s).
Proof. unfold only_LF_breaks, rstrip. apply Forall_take. Qed.

Lemma no_trailing_LF s : no_trailing_space s → last s ≠ Some LF.
Proof. intros Hs Hlast. by specialize (Hs _ Hlast). Qed.

(** A text without line boundary is one line, unless it is empty. *)
Lemma splitlines_from_one line : ∀ cur,
  no_linebreak line → reverse cur ++ line ≠ [] →
  splitlines_from cur line = [reverse cur ++ line].
Proof.
  induction line as [|c line IH]; intros cur Hline Hne; simpl.
  - rewrite app_nil_r in *. destruct cur; [done|]. done.
  - apply Forall_cons in Hline as [-> Hline].
    rewrite IH; [by rewrite reverse_cons, <- app_assoc|done|].
    rewrite reverse_cons, <- app_assoc. by destruct (reverse cur).
Qed.

(** Any line boundary ends the line read so far; a carriage return does so
    on its own when no line feed follows it. *)
Lemma splitlines_from_boundary line : ∀ cur c rest,
  no_linebreak line → islinebreak c = true →
  ¬ (c = CR ∧ head rest = Some LF) →
  splitlines_from cur (line ++ c :: rest)
  = (reverse cur ++ line) :: splitlines rest.
Proof.
  induction line as [|d line IH]; intros cur c rest Hline Hc Hcr; simpl.
  - rewrite app_nil_r, Hc. f_equal.
    destruct rest as [|c' rest']; [done|].
    destruct (N.eqb_spec c CR) as [->|]; [|done].
    destruct (N.eqb_spec c' LF) as [->|]; [|done].
    exfalso. by apply Hcr.
  - inversion_clear Hline as [|?? Hd Hline']. rewrite Hd.
    rewrite IH by done. by rewrite reverse_cons, <- app_assoc.
Qed.

Lemma islinebreak_spec c :
  islinebreak c = true
  ↔ c ∈ [10; 11; 12; 13; 28; 29; 30; 133; 8232; 8233]%N.
Proof.
  rewrite !elem_of_cons, elem_of_nil. unfold islinebreak.
  rewrite !orb_true_iff, !andb_true_iff, !N.leb_le, !N.eqb_eq. lia.
Qed.

End splitlines_facts.

(** ** Rendering of the unified diff *)

Section rendering.
Import difflib.
Implicit Types a b : list str.

Lemma elem_of_slice {X} (l : list X) i j x : x ∈ slice l i j → x ∈ l.
Proof.
  unfold slice. intros Hx%list_elem_of_lookup. destruct Hx as [k Hk].
  rewrite lookup_drop in Hk. apply lookup_take_Some in Hk as [Hk _].
  eapply list_elem_of_lookup_2, Hk.
Qed.

Lemma hunk_lines a b group l : l ∈ hunk a b [] group → hunk_line a b l.
Proof.
  unfold hunk. destruct (head group) as [first|]; [|by intros ?%elem_of_nil].
  destruct (last group) as [lst|]; [|by intros ?%elem_of_nil].
  intros [->|Hl]%elem_of_cons.
  - left. rewrite app_nil_r. unfold range_line. eauto 6.
  - apply list_elem_of_join in Hl as (ls & Hl & Hls).
    apply list_elem_of_fmap in Hls as ([[[[tag i1] i2] j1] j2] & -> & _).
    right. destruct tag.
    + apply elem_of_app in Hl as [Hl|Hl];
        apply list_elem_of_fmap in Hl as (x & -> & Hx%elem_of_slice); eauto.
    + apply list_elem_of_fmap in Hl as (x & -> & Hx%elem_of_slice); eauto.
    + apply list_elem_of_fmap in Hl as (x & -> & Hx%elem_of_slice); eauto.
    + apply list_elem_of_fmap in Hl as (x & -> & Hx%elem_of_slice); eauto.
Qed.

(** A group that is not empty starts with its range line. *)
Lemma hunk_head a b group :
  group ≠ [] → ∃ l ls, hunk a b [] group = l :: ls ∧ range_line l.
Proof.
  intros Hne. unfold hunk. destruct group as [|c group]; [done|]. cbn [head].
  destruct (last (c :: group)) as [lst|] eqn:Hlast.
  - eexists _, _. split; [done|]. rewrite app_nil_r. unfold range_line. eauto 6.
  - by apply last_None in Hlast.
Qed.

(** The generator's [started] flag only decides where the two headers go. *)
Lemma unified_diff_fold a b h1 h2 groups : ∀ (started : bool) out,
  (foldl (λ '(started, out) group,
            let out := if started : bool then out else out ++ [h1; h2] in
            (true, out ++ hunk a b [] group))
         (started, out) groups).2
  = out ++ (if started then []
            else match groups with [] => [] | _ => [h1; h2] end)
        ++ mjoin (hunk a b [] <$> groups).
Proof.
  induction groups as [|g groups IH]; intros started out; simpl.
  - destruct started; by rewrite !app_nil_r.
  - rewrite IH. simpl. destruct started; simpl; by rewrite <- ?app_assoc.
Qed.

Lemma unified_diff_eq a b fromfile tofile n :
  unified_diff a b fromfile tofile [] [] n []
  = match get_grouped_opcodes (new a b) n with
    | [] => []
    | groups =>
        (lit "--- " ++ fromfile) :: (lit "+++ " ++ tofile)
        :: mjoin (hunk a b [] <$> groups)
    end.
Proof.
  unfold unified_diff. rewrite !app_nil_r.
  rewrite (unified_diff_fold a b). simpl.
  by destruct (get_grouped_opcodes (new a b) n).
Qed.

End rendering.

(** ** The loader and the comparison routine *)

Section program.
Implicit Types (fs : str → file) (p : str).

Lemma io_ret_bind {X Y} (x : X) (f : X → io Y) : mret x ≫= f = f x.
Proof. unfold mbind, io_bind, mret, io_ret. by destruct (f x). Qed.

Lemma for_each_print l : for_each l print = (l, inr ()).
Proof.
  induction l as [|x l IH]; [done|].
  cbn [for_each]. unfold mbind, io_bind. by rewrite IH.
Qed.

Lemma read_Text fs p t :
  fs p = Text t →
  read_file_content_loosely fs p
  = ([], inr (Some (rstrip (translate_newlines t)))).
Proof. intros Hp. unfold read_file_content_loosely, open_read. by rewrite Hp. Qed.

Lemma read_Missing fs p :
  fs p = Missing →
  read_file_content_loosely fs p
  = ([msg_not_found ++ p ++ lit "'"], inr None).
Proof. intros Hp. unfold read_file_content_loosely, open_read. by rewrite Hp. Qed.

Lemma read_Unreadable fs p e :
  fs p = Unreadable e →
  read_file_content_loosely fs p
  = ([msg_read_error ++ p ++ lit "': " ++ e], inr None).
Proof. intros Hp. unfold read_file_content_loosely, open_read. by rewrite Hp. Qed.

(** The loader returns: an error message and [None], or the content. *)
Lemma read_cases fs p :
  (∃ t, fs p = Text t ∧
        read_file_content_loosely fs p
        = ([], inr (Some (rstrip (translate_newlines t)))))
  ∨ (∃ msg, (∀ t, fs p ≠ Text t) ∧
            read_file_content_loosely fs p = ([msg], inr None) ∧
            starts_with_one_of [69%N] msg).
Proof.
  destruct (fs p) as [|e|t] eqn:Hp.
  - right. eexists. split; [done|]. split; [by apply read_Missing|].
    eexists. split; [done|]. apply list_elem_of_here.
  - right. eexists. split; [done|]. split; [by apply read_Unreadable|].
    eexists. split; [done|]. apply list_elem_of_here.
  - left. eexists. split; [done|]. by apply read_Text.
Qed.

Lemma loose_diff_unfold fs p1 p2 o1 r1 o2 r2 :
  read_file_content_loosely fs p1 = (o1, inr r1) →
  read_file_content_loosely fs p2 = (o2, inr r2) →
  loose_diff fs p1 p2
  = (banner p1 p2 ++ o1 ++ o2
       ++ match r1, r2 with
          | Some c1, Some c2 =>
              if decide (c1 = c2) then [msg_equivalent]
              else msg_differs :: rendered_diff p1 p2 c1 c2
          | _, _ => []
          end,
     inr ()).
Proof.
  intros H1 H2. unfold loose_diff. rewrite H1, H2.
  unfold mbind, io_bind, print, mret, io_ret, rendered_diff.
  destruct r1 as [c1|], r2 as [c2|]; try (cbn; by rewrite ?app_nil_r).
  destruct (decide (c1 = c2)); [done|].
  rewrite for_each_print. done.
Qed.

Lemma hunk_line_first a b l :
  hunk_line a b l → starts_with_one_of [45; 43; 64; 32]%N l.
Proof.
  intros [(s1 & e1 & s2 & e2 & ->)|[(x & _ & [->| ->])|(x & _ & ->)]];
    eexists; (split; [reflexivity|]); in_list.
Qed.

Lemma unified_diff_first a b fromfile tofile n l :
  l ∈ difflib.unified_diff a b fromfile tofile [] [] n [] →
  starts_with_one_of [45; 43; 64; 32]%N l.
Proof.
  rewrite unified_diff_eq.
  destruct (difflib.get_grouped_opcodes _ _) as [|g gs];
    [by intros ?%elem_of_nil|].
  intros [->|[->|Hl]%elem_of_cons]%elem_of_cons.
  - eexists. split; [reflexivity|]. in_list.
  - eexists. split; [reflexivity|]. in_list.
  - apply list_elem_of_join in Hl as (ls & Hl & Hls).
    apply list_elem_of_fmap in Hls as (group & -> & _).
    eapply hunk_line_first, hunk_lines, Hl.
Qed.

Lemma starts_with_one_of_weaken cs cs' l :
  starts_with_one_of cs l → cs ⊆ cs' → starts_with_one_of cs' l.
Proof. intros (c & ? & ?) Hcs. exists c. split; [done|]. by apply Hcs. Qed.

Lemma not_starts_with cs c l : c ∉ cs → ¬ starts_with_one_of cs (c :: l).
Proof. intros Hc (d & [= <-] & Hd). done. Qed.

Lemma banner_first p1 p2 l :
  l ∈ banner p1 p2 → starts_with_one_of [45; 32]%N l.
Proof.
  unfold banner. rewrite !elem_of_cons, elem_of_nil.
  intros [->|[->|[->|[->|[]]]]]; eexists; (split; [reflexivity|]); in_list.
Qed.


End program.

(** Appending whitespace to the decoded text appends whitespace to what
    [f.read()] returns. *)
Lemma translate_newlines_all_space w : all_space w → all_space (translate_newlines w).
Proof.
  induction w as [w IH] using (induction_ltof1 _ length). unfold ltof in IH.
  destruct w as [|c w']; [done|]. intros Hw.
  apply Forall_cons in Hw as [Hc Hw']. simpl.
  destruct (c =? CR)%N.
  - apply Forall_cons. split; [done|].
    destruct w' as [|c' w'']; [done|].
    apply Forall_cons in Hw' as [Hc' Hw''].
    destruct (c' =? LF)%N; apply IH; simpl; try lia; [done|by constructor].
  - apply Forall_cons. split; [done|]. apply IH; [simpl; lia|done].
Qed.

Lemma translate_newlines_app_space s : ∀ w,
  all_space w →
  ∃ w', all_space w' ∧ translate_newlines (s ++ w) = translate_newlines s ++ w'.
Proof.
  induction s as [s IH] using (induction_ltof1 _ length). unfold ltof in IH.
  intros w Hw. destruct s as [|c s'].
  - exists (translate_newlines w). split; [by apply translate_newlines_all_space|done].
  - simpl. destruct (c =? CR)%N.
    + destruct s' as [|c' s'']; simpl.
      * destruct w as [|d w']; [exists []; split; [constructor|done]|].
        apply Forall_cons in Hw as [Hd Hw'].
        destruct (d =? LF)%N; eexists; (split; [|reflexivity]);
          apply translate_newlines_all_space; [done|by constructor].
      * destruct (c' =? LF)%N.
        -- destruct (IH s'' ltac:(simpl; lia) w Hw) as (w' & ? & ->). eauto.
        -- destruct (IH (c' :: s'') ltac:(simpl; lia) w Hw) as (w' & ? & Heq).
           simpl in Heq. rewrite Heq. eauto.
    + destruct (IH s' ltac:(simpl; lia) w Hw) as (w' & ? & ->). eauto.
Qed.

(** ** The sequence matcher *)

Section loops.

Lemma while_ind {St} (P : St → Prop) cond body :
  (∀ s, P s → cond s = true → P (body s)) →
  ∀ fuel s, P s → P (difflib.while fuel cond body s).
Proof.
  intros Hstep fuel. induction fuel as [|fuel IH]; intros s Hs; simpl; [done|].
  destruct (cond s) eqn:Hc; [|done]. apply IH. by apply Hstep.
Qed.

(** With fuel for every iteration, the loop ends because its condition
    fails. *)
Lemma while_exit {St} (measure : St → nat) cond body :
  (∀ s, cond s = true → (measure (body s) < measure s)%nat) →
  ∀ fuel s, (measure s ≤ fuel)%nat → cond (difflib.while fuel cond body s) = false.
Proof.
  intros Hdec fuel. induction fuel as [|fuel IH]; intros s Hs; simpl.
  - destruct (cond s) eqn:Hc; [|done]. specialize (Hdec s Hc). lia.
  - destruct (cond s) eqn:Hc; [|done]. apply IH. specialize (Hdec s Hc). lia.
Qed.

Lemma foldl_seqZ_ind_nat {St} (P : Z → St → Prop) (f : St → Z → St) lo s :
  P lo s →
  ∀ n : nat,
    (∀ i s, lo ≤ i < lo + Z.of_nat n → P i s → P (i + 1) (f s i)) →
    P (lo + Z.of_nat n) (foldl f s (seqZ lo (Z.of_nat n))).
Proof.
  intros Hs n. induction n as [|n IH]; intros Hstep.
  - simpl. by rewrite Z.add_0_r.
  - rewrite seqZ_S, foldl_app. simpl.
    replace (lo + Z.of_nat (S n)) with (lo + Z.of_nat n + 1) by lia.
    apply Hstep; [lia|]. apply IH.
    intros i s' Hi. apply Hstep. lia.
Qed.

(** Induction along [for i in range(lo, lo + cnt)]. *)
Lemma foldl_seqZ_ind {St} (P : Z → St → Prop) (f : St → Z → St) lo cnt s :
  P lo s →
  (∀ i s, lo ≤ i < lo + cnt → P i s → P (i + 1) (f s i)) →
  P (lo + 0 `max` cnt) (foldl f s (seqZ lo cnt)).
Proof.
  intros Hs Hstep. destruct (decide (cnt ≤ 0)) as [Hle|Hgt].
  { rewrite seqZ_nil by done. simpl. by replace (lo + 0 `max` cnt) with lo by lia. }
  replace (0 `max` cnt) with cnt by lia.
  rewrite <- (Z2Nat.id cnt) by lia.
  apply foldl_seqZ_ind_nat; [done|].
  intros i s' Hi. apply Hstep. lia.
Qed.

End loops.

Section chain_b_facts.
Context {A : Type} {eq_dec : EqDecision A} {countable : Countable A}.
Implicit Types (a b l : list A) (x : A) (i j : Z).

Lemma elem_of_indices_from x l : ∀ i j,
  j ∈ indices_from x i l ↔ i ≤ j ∧ l !! Z.to_nat (j - i) = Some x.
Proof.
  induction l as [|y l IH]; intros i j; simpl.
  - rewrite elem_of_nil. split; [done|by intros [_ ?]].
  - rewrite elem_of_app, IH. split.
    + intros [Hj|[Hle Hl]].
      * destruct (decide (y = x)) as [->|]; [|by apply elem_of_nil in Hj].
        apply list_elem_of_singleton in Hj as ->.
        split; [lia|]. by rewrite Z.sub_diag.
      * split; [lia|].
        replace (Z.to_nat (j - i)) with (S (Z.to_nat (j - (i + 1)))) by lia.
        done.
    + intros [Hle Hl]. destruct (decide (j = i)) as [->|Hne].
      * left. rewrite Z.sub_diag in Hl. simpl in Hl. injection Hl as ->.
        rewrite decide_True by done. apply list_elem_of_here.
      * right. split; [lia|].
        replace (Z.to_nat (j - i)) with (S (Z.to_nat (j - (i + 1)))) in Hl by lia.
        done.
Qed.

Lemma indices_from_sorted x l : ∀ i, StronglySorted Z.lt (indices_from x i l).
Proof.
  induction l as [|y l IH]; intros i; simpl; [constructor|].
  destruct (decide (y = x)); simpl; [|apply IH].
  constructor; [apply IH|].
  apply Forall_forall. intros j [Hj _]%elem_of_indices_from. lia.
Qed.

Lemma chain_b_index_lookup l x : ∀ i (m : gmap A (list Z)),
  foldl (λ (m : gmap A (list Z)) '(i, elt),
           <[elt := default [] (m !! elt) ++ [i]]> m) m
        (difflib.enumerate_from i l) !! x
  = match indices_from x i l with
    | [] => m !! x
    | js => Some (default [] (m !! x) ++ js)
    end.
Proof.
  induction l as [|y l IH]; intros i m; simpl; [done|].
  rewrite IH. destruct (decide (y = x)) as [->|Hne]; simpl.
  - rewrite lookup_insert_eq. simpl.
    destruct (indices_from x (i + 1) l); simpl.
    + done.
    + by rewrite <- app_assoc.
  - by rewrite lookup_insert_ne.
Qed.

Lemma new_seq_a a b : difflib.seq_a (difflib.new a b) = a.
Proof. unfold difflib.new, difflib.chain_b. by destruct (decide _). Qed.

Lemma new_seq_b a b : difflib.seq_b (difflib.new a b) = b.
Proof. unfold difflib.new, difflib.chain_b. by destruct (decide _). Qed.

Lemma new_bjunk a b : difflib.bjunk (difflib.new a b) = ∅.
Proof. unfold difflib.new, difflib.chain_b. by destruct (decide _). Qed.

(** What [b2j] holds for a key is the ascending list of all the positions
    of that element in [b]. *)
Lemma new_b2j_lookup a b x js :
  difflib.b2j (difflib.new a b) !! x = Some js →
  js = indices_from x 0 b ∧ js ≠ [].
Proof.
  assert (Hraw : ∀ js',
    foldl (λ (m : gmap A (list Z)) '(i, elt),
             <[elt := default [] (m !! elt) ++ [i]]> m) ∅
          (difflib.enumerate_from 0 b) !! x = Some js' →
    js' = indices_from x 0 b ∧ js' ≠ []).
  { intros js'. rewrite chain_b_index_lookup, lookup_empty.
    destruct (indices_from x 0 b); [done|]. by intros [= <-]. }
  unfold difflib.new, difflib.chain_b. destruct (decide _); simpl.
  - intros [Hl _]%map_lookup_filter_Some. by apply Hraw.
  - apply Hraw.
Qed.

Lemma new_b2j_elem a b x js j :
  difflib.b2j (difflib.new a b) !! x = Some js →
  j ∈ js ↔ getitem b j = Some x.
Proof.
  intros [-> _]%new_b2j_lookup. rewrite elem_of_indices_from.
  unfold getitem. rewrite Z.sub_0_r.
  destruct (decide (0 ≤ j)); split; [by intros [_ ?]|done|intros [? _]; lia|done].
Qed.

End chain_b_facts.

Section find_longest_match_loops.
Context {A : Type} {eq_dec : EqDecision A} {countable : Countable A}.
Variable self : difflib.SequenceMatcher A.
Implicit Types (st : gmap Z Z * (Z * Z * Z)) (m : Z * Z * Z).

(** Induction along the loop over [b2j.get(a[i], nothing)]: [P pre st]
    relates the state to the indices [pre] gone through; the loop stops at
    the end of the list or at the first index beyond [bhi]. *)
Lemma flm_inner_ind (P : list Z → gmap Z Z * (Z * Z * Z) → Prop)
    j2len i blo bhi js0 :
  (∀ pre j post st, js0 = pre ++ j :: post → P pre st → j < blo →
     P (pre ++ [j]) st) →
  (∀ pre j post newj2len besti bestj bestsize,
     js0 = pre ++ j :: post → P pre (newj2len, (besti, bestj, bestsize)) →
     blo ≤ j < bhi →
     let k := default 0 (j2len !! (j - 1)) + 1 in
     P (pre ++ [j])
       (if decide (bestsize < k)
        then (<[j := k]> newj2len, (i - k + 1, j - k + 1, k))
        else (<[j := k]> newj2len, (besti, bestj, bestsize)))) →
  ∀ js pre st, js0 = pre ++ js → P pre st →
    ∃ js1 js2, js = js1 ++ js2
      ∧ P (pre ++ js1) (difflib.flm_inner j2len i blo bhi js st)
      ∧ (js2 = [] ∨ ∃ j js3, js2 = j :: js3 ∧ bhi ≤ j).
Proof.
  intros Hskip Hstep js. induction js as [|j js IH]; intros pre st Hjs Hst.
  - exists [], []. split_and!; [done|by rewrite app_nil_r|by left].
  - simpl. destruct (decide (j < blo)) as [Hlo|Hlo].
    + destruct (IH (pre ++ [j]) st) as (js1 & js2 & -> & HP & Hend).
      * by rewrite <- app_assoc.
      * by eapply Hskip.
      * exists (j :: js1), js2. rewrite <- app_assoc in HP. auto.
    + destruct (decide (bhi ≤ j)) as [Hhi|Hhi].
      * exists [], (j :: js). split_and!; [done|by rewrite app_nil_r|eauto].
      * destruct st as [newj2len [[besti bestj] bestsize]].
        edestruct (IH (pre ++ [j])) as (js1 & js2 & -> & HP & Hend);
          [by rewrite <- app_assoc| |].
        { eapply (Hstep pre j js); [done|exact Hst|lia]. }
        exists (j :: js1), js2. rewrite <- app_assoc in HP. auto.
Qed.

Lemma extend_left_ind (P : Z * Z * Z → Prop) junk alo blo m :
  P m →
  (∀ i j k, P (i, j, k) → alo < i → blo < j →
     difflib.same_at self junk (i - 1) (j - 1) = true → P (i - 1, j - 1, k + 1)) →
  P (difflib.extend_left self junk alo blo m).
Proof.
  intros Hm Hstep. unfold difflib.extend_left. apply while_ind; [|done].
  intros [[i j] k] Hs [[Hi%bool_decide_eq_true Hj%bool_decide_eq_true]%andb_true_iff
    Hsame]%andb_true_iff.
  by apply Hstep.
Qed.

Lemma extend_left_exit junk alo blo m :
  alo < (difflib.extend_left self junk alo blo m).1.1 →
  blo < (difflib.extend_left self junk alo blo m).1.2 →
  difflib.same_at self junk
    ((difflib.extend_left self junk alo blo m).1.1 - 1)
    ((difflib.extend_left self junk alo blo m).1.2 - 1) = false.
Proof.
  unfold difflib.extend_left.
  match goal with |- context [difflib.while ?f ?c ?b ?s] =>
    pose proof (while_exit (λ s : Z * Z * Z, Z.to_nat (s.1.1 - alo)) c b) as Hex;
    specialize (Hex ltac:(intros [[i j] k]
      [[Hi%bool_decide_eq_true _]%andb_true_iff _]%andb_true_iff; simpl; lia)
      f s ltac:(simpl; lia));
    destruct (difflib.while f c b s) as [[i j] k]
  end.
  simpl in *. intros Hi Hj.
  rewrite !bool_decide_eq_true_2 in Hex by done. done.
Qed.

Lemma extend_right_ind (P : Z * Z * Z → Prop) junk ahi bhi m :
  P m →
  (∀ i j k, P (i, j, k) → i + k < ahi → j + k < bhi →
     difflib.same_at self junk (i + k) (j + k) = true → P (i, j, k + 1)) →
  P (difflib.extend_right self junk ahi bhi m).
Proof.
  intros Hm Hstep. unfold difflib.extend_right. apply while_ind; [|done].
  intros [[i j] k] Hs [[Hi%bool_decide_eq_true Hj%bool_decide_eq_true]%andb_true_iff
    Hsame]%andb_true_iff.
  by apply Hstep.
Qed.

Lemma extend_right_exit junk ahi bhi m :
  let r := difflib.extend_right self junk ahi bhi m in
  r.1.1 + r.2 < ahi → r.1.2 + r.2 < bhi →
  difflib.same_at self junk (r.1.1 + r.2) (r.1.2 + r.2) = false.
Proof.
  unfold difflib.extend_right.
  match goal with |- context [difflib.while ?f ?c ?b ?s] =>
    pose proof (while_exit (λ s : Z * Z * Z, Z.to_nat (ahi - (s.1.1 + s.2))) c b) as Hex;
    specialize (Hex ltac:(intros [[i j] k]
      [[Hi%bool_decide_eq_true _]%andb_true_iff _]%andb_true_iff; simpl; lia)
      f s ltac:(simpl; lia));
    destruct (difflib.while f c b s) as [[i j] k]
  end.
  simpl in *. intros Hi Hj.
  rewrite !bool_decide_eq_true_2 in Hex by done. done.
Qed.

End find_longest_match_loops.

Section runs.
Context {A : Type} {eq_dec : EqDecision A} {countable : Countable A}.
Variables (b2j : gmap A (list Z)) (l : list A).

Lemma run_bounds i : 0 ≤ run b2j l i ≤ Z.of_nat i + 1.
Proof.
  induction i as [|i IH]; simpl.
  - destruct (l !! 0%nat); [|lia]. destruct (b2j !! _); lia.
  - destruct (l !! S i); [|lia]. destruct (b2j !! _); lia.
Qed.

Lemma runZ_nonneg i : 0 ≤ runZ b2j l i.
Proof. unfold runZ. destruct (decide _); [apply run_bounds|done]. Qed.

Lemma runZ_neg i : i < 0 → runZ b2j l i = 0.
Proof. intros Hi. unfold runZ. destruct (decide _); [lia|done]. Qed.

Lemma runZ_le i : -1 ≤ i → runZ b2j l i ≤ i + 1.
Proof.
  intros Hi. unfold runZ. destruct (decide _); [|lia].
  pose proof (run_bounds (Z.to_nat i)). lia.
Qed.

Lemma runZ_step i x :
  getitem l i = Some x → is_Some (b2j !! x) →
  runZ b2j l i = runZ b2j l (i - 1) + 1.
Proof.
  unfold getitem, runZ. destruct (decide (0 ≤ i)) as [Hi|]; [|done].
  intros Hx [js Hjs]. destruct (decide (0 ≤ i - 1)) as [Hi'|Hi'].
  - replace (Z.to_nat i) with (S (Z.to_nat (i - 1))) in * by lia.
    simpl. by rewrite Hx, Hjs.
  - replace (Z.to_nat i) with 0%nat in * by lia. simpl. by rewrite Hx, Hjs.
Qed.

Lemma runZ_zero i x :
  getitem l i = Some x → b2j !! x = None → runZ b2j l i = 0.
Proof.
  unfold getitem, runZ. destruct (decide (0 ≤ i)) as [Hi|]; [|done].
  intros Hx Hjs. destruct (Z.to_nat i); simpl; by rewrite Hx, Hjs.
Qed.

End runs.

Lemma getitem_Some {X} (l : list X) i :
  0 ≤ i < len l → ∃ x, getitem l i = Some x.
Proof.
  intros Hi. unfold getitem, len in *. rewrite decide_True by lia.
  apply lookup_lt_is_Some. lia.
Qed.

Lemma getitem_lt {X} (l : list X) i x : getitem l i = Some x → 0 ≤ i < len l.
Proof.
  unfold getitem, len. destruct (decide (0 ≤ i)); [|done].
  intros Hx%lookup_lt_Some. lia.
Qed.

(** *** Identical sequences: the longest match is the whole sequence *)

Section identical.
Context {A : Type} {eq_dec : EqDecision A} {countable : Countable A}.
Variable a : list A.
Local Abbreviation self := (difflib.new a a).
Local Abbreviation R := (runZ (difflib.b2j self) a).

Lemma diagonal_row_step i st :
  0 ≤ i < len a →
  diagonal_row (difflib.b2j self) a i st →
  diagonal_row (difflib.b2j self) a (i + 1)
    (difflib.flm_outer self 0 (len a) st i).
Proof.
  intros Hi. destruct st as [j2len [[besti bestj] bestsize]].
  intros (Hdiag & Hbi & Hbs & Hend & Hruns & Hlen & Hlast).
  unfold difflib.flm_outer. rewrite new_seq_a.
  destruct (getitem_Some a i Hi) as [x Hx]. rewrite Hx.
  destruct (difflib.b2j self !! x) as [js|] eqn:Hjs; simpl.
  { (* the element is indexed: go through its positions *)
    assert (HRi : R i = R (i - 1) + 1) by (eapply runZ_step; eauto).
    edestruct (flm_inner_ind (diagonal_cell (difflib.b2j self) a i)
                 j2len i 0 (len a) js)
      with (js := js) (pre := @nil Z) (st := (∅ : gmap Z Z, (besti, bestj, bestsize)))
      as (js1 & js2 & Hsplit & Hcell & Hstop);
      [| |by rewrite app_nil_l| |].
    - (* an index below the window: there is none *)
      intros pre j post st' -> _ Hj. exfalso.
      assert (j ∈ pre ++ j :: post) as Hin by (apply elem_of_app; right; left).
      apply (new_b2j_elem a a x _ j Hjs), getitem_lt in Hin. lia.
    - (* one index *)
      intros pre j post new bi bj bs Hpre
        (Hd & Hb0 & Hs0 & He & Hr & Hl & Hi') Hj k.
      assert (j ∈ js) as Hin by (rewrite Hpre; apply elem_of_app; right; left).
      apply (new_b2j_elem a a x _ j Hjs) in Hin.
      assert (HRj : R j = R (j - 1) + 1) by (eapply runZ_step; eauto).
      assert (Hk : 1 ≤ k ∧ k ≤ R j ∧ k ≤ R i).
      { subst k. destruct (Hlen (j - 1)) as [[? ?] ?]. lia. }
      assert (Hki : j = i → k = R i).
      { intros ->. subst k. rewrite Hlast. lia. }
      assert (Hnew : ∀ j', 0 ≤ default 0 (<[j:=k]> new !! j') ≤ R j'
                           ∧ default 0 (<[j:=k]> new !! j') ≤ R i).
      { intros j'. destruct (decide (j = j')) as [<-|Hne].
        - rewrite lookup_insert_eq. simpl. lia.
        - rewrite lookup_insert_ne by done. apply Hl. }
      assert (Hbefore : j ≠ i → k ≤ bs).
      { intros Hne. destruct (decide (j < i)) as [Hlt|Hgt].
        - specialize (Hr j ltac:(lia)). lia.
        - (* [i] comes before [j] in the ascending list *)
          assert (i ∈ pre) as Hipre.
          { assert (i ∈ js) as Hiin by (by apply (new_b2j_elem a a x _ i Hjs)).
            pose proof (new_b2j_lookup a a x js Hjs) as [Hjs' _].
            pose proof (indices_from_sorted x a 0) as Hsorted.
            rewrite <- Hjs', Hpre in Hsorted.
            rewrite Hpre in Hiin.
            apply elem_of_app in Hiin as [|Hiin]; [done|].
            apply StronglySorted_app_1_r in Hsorted.
            apply StronglySorted_cons in Hsorted as [Hall _].
            apply elem_of_cons in Hiin as [->|Hiin]; [done|].
            rewrite Forall_forall in Hall. specialize (Hall _ Hiin). lia. }
          destruct (Hi' Hipre). lia. }
      assert (Hcellin : i ∈ pre ++ [j] →
                        default 0 (<[j:=k]> new !! i) = R i).
      { intros [Hip|Hij%list_elem_of_singleton]%elem_of_app.
        - destruct (decide (j = i)) as [->|Hne].
          + rewrite lookup_insert_eq. simpl. by apply Hki.
          + rewrite lookup_insert_ne by done. by apply Hi'.
        - subst j. rewrite lookup_insert_eq. simpl. by apply Hki. }
      destruct (decide (bs < k)) as [Hbig|Hsmall].
      + assert (j = i) as -> by (destruct (decide (j = i)); [done|];
                                 specialize (Hbefore ltac:(done)); lia).
        pose proof (runZ_le (difflib.b2j self) a i ltac:(lia)).
        split_and!; [done|lia|lia|lia| |done|].
        * intros i' Hi''. specialize (Hr i' Hi''). lia.
        * intros Hin'. split; [by apply Hcellin|]. rewrite Hki by done. lia.
      + split_and!; [done|done|done|done|done|done|].
        intros Hin'. split; [by apply Hcellin|].
        apply elem_of_app in Hin' as [Hip|Hij%list_elem_of_singleton].
        * by apply Hi'.
        * subst j. rewrite <- Hki by done. lia.
    - (* before the first index *)
      unfold diagonal_cell. split_and!; [done|done|done|done|done| |by intros ?%elem_of_nil].
      intros j. rewrite lookup_empty. simpl.
      pose proof (runZ_nonneg (difflib.b2j self) a j).
      pose proof (runZ_nonneg (difflib.b2j self) a i). lia.
    - (* after the last index *)
      destruct Hstop as [->|(j & js3 & -> & Hj)].
      + rewrite app_nil_r in Hsplit. subst js1. rewrite app_nil_l in Hcell.
        destruct (difflib.flm_inner _ _ _ _ _ _) as [new [[bi bj] bs]].
        destruct Hcell as (Hd & Hb0 & Hs0 & He & Hr & Hl & Hi').
        assert (i ∈ js) as Hiin by (by apply (new_b2j_elem a a x _ i Hjs)).
        destruct (Hi' Hiin) as [Hdi Hri].
        unfold diagonal_row. replace (i + 1 - 1) with i by lia.
        split_and!; [done|done|done|done| |done|done].
        intros i' Hi''. destruct (decide (i' = i)) as [->|]; [done|].
        apply Hr. lia.
      + exfalso.
        assert (j ∈ js) as Hin
          by (rewrite Hsplit; apply elem_of_app; right; left).
        apply (new_b2j_elem a a x _ j Hjs), getitem_lt in Hin. lia. }
  (* the element is popular: the row is empty *)
  assert (HRi : R i = 0) by (eapply runZ_zero; eauto).
  unfold diagonal_row. replace (i + 1 - 1) with i by lia.
  split_and!; [done|done|done|done| | |by rewrite lookup_empty].
  - intros i' Hi'. destruct (decide (i' = i)) as [->|]; [lia|]. apply Hruns. lia.
  - intros j. rewrite lookup_empty. simpl.
    pose proof (runZ_nonneg (difflib.b2j self) a j). lia.
Qed.

Lemma same_at_identical i :
  0 ≤ i < len a → difflib.same_at self false i i = true.
Proof.
  intros Hi. unfold difflib.same_at. rewrite new_seq_a, new_seq_b, new_bjunk.
  destruct (getitem_Some a i Hi) as [x ->].
  rewrite (bool_decide_eq_false_2 (x ∈ ∅)) by apply not_elem_of_empty.
  by rewrite !bool_decide_eq_true_2.
Qed.

Lemma find_longest_match_identical :
  difflib.find_longest_match self 0 (len a) 0 (len a) = (0, 0, len a).
Proof.
  unfold difflib.find_longest_match.
  (* the main loop ends on a block of the diagonal *)
  assert (Hinit : diagonal_row (difflib.b2j self) a 0 (∅, (0, 0, 0))).
  { unfold diagonal_row, len. split_and!; [done|done|done|lia|intros; lia| |].
    - intros j. rewrite lookup_empty. simpl.
      pose proof (runZ_nonneg (difflib.b2j self) a j).
      pose proof (runZ_nonneg (difflib.b2j self) a (0 - 1)). lia.
    - rewrite lookup_empty. simpl. by rewrite runZ_neg. }
  pose proof (foldl_seqZ_ind (diagonal_row (difflib.b2j self) a)
                (difflib.flm_outer self 0 (len a)) 0 (len a - 0)
                (∅, (0, 0, 0)) Hinit) as Hloop.
  destruct (foldl _ _ _) as [j2len [[besti bestj] bestsize]].
  destruct Hloop as (<- & Hbi & Hbs & Hend & _).
  { intros i st Hi. apply diagonal_row_step. lia. }
  cbn [snd].
  (* extended to the left, it starts at 0 *)
  pose proof (extend_left_ind self
                (λ m, m.1.1 = m.1.2 ∧ 0 ≤ m.1.1 ∧ 0 ≤ m.2
                      ∧ m.1.1 + m.2 = besti + bestsize)
                false 0 0 (besti, besti, bestsize)
                ltac:(done) ltac:(intros ???; simpl; intros; lia)) as Hleft.
  pose proof (extend_left_exit self false 0 0 (besti, besti, bestsize)) as Hexit.
  destruct (difflib.extend_left self false 0 0 _) as [[i j] k].
  simpl in Hleft, Hexit. destruct Hleft as (<- & Hi & Hk0 & Hk).
  assert (i = 0) as ->.
  { destruct (decide (0 < i)) as [Hpos|]; [|lia].
    rewrite same_at_identical in Hexit by lia. by specialize (Hexit Hpos Hpos). }
  (* extended to the right, it ends at [len a] *)
  pose proof (extend_right_ind self
                (λ m, m.1.1 = 0 ∧ m.1.2 = 0 ∧ 0 ≤ m.2 ≤ len a)
                false (len a) (len a) (0, 0, k)
                ltac:(simpl; lia) ltac:(intros ???; simpl; intros; lia)) as Hright.
  pose proof (extend_right_exit self false (len a) (len a) (0, 0, k)) as Hexit'.
  destruct (difflib.extend_right self false _ _ _) as [[i j] k'].
  simpl in Hright, Hexit'. destruct Hright as (-> & -> & Hk').
  assert (k' = len a) as ->.
  { destruct (decide (k' < len a)) as [Hlt|]; [|lia].
    rewrite same_at_identical in Hexit' by lia. by specialize (Hexit' Hlt Hlt). }
  (* there is no junk to take in *)
  unfold difflib.extend_left, difflib.extend_right. simpl.
  replace (len a - (0 + len a)) with 0 by lia. done.
Qed.

Lemma mb_loop_done fuel (mbs : list (Z * Z * Z)) :
  difflib.mb_loop self fuel [] mbs = ([], mbs).
Proof. by destruct fuel. Qed.

Lemma get_matching_blocks_identical :
  difflib.get_matching_blocks self
  = if decide (len a = 0) then [(0, 0, 0)]
    else [(0, 0, len a); (len a, len a, 0)].
Proof.
  unfold difflib.get_matching_blocks. rewrite new_seq_a, new_seq_b.
  replace (2 * length a + 1)%nat with (S (2 * length a)) by lia.
  cbn [difflib.mb_loop]. rewrite find_longest_match_identical.
  destruct (decide (len a = 0)) as [Hn|Hn].
  - rewrite mb_loop_done. simpl. by rewrite Hn.
  - rewrite !decide_False by lia. rewrite mb_loop_done. simpl.
    rewrite decide_False by lia. done.
Qed.

Lemma get_opcodes_identical :
  difflib.get_opcodes self
  = if decide (len a = 0) then [] else [(difflib.Equal, 0, len a, 0, len a)].
Proof.
  unfold difflib.get_opcodes. rewrite get_matching_blocks_identical.
  destruct (decide (len a = 0)) as [Hn|Hn]; simpl.
  - done.
  - rewrite ?Z.add_0_l. repeat case_decide; (lia || done).
Qed.

(** No group is yielded for identical sequences. *)
Lemma get_grouped_opcodes_identical :
  difflib.get_grouped_opcodes self 3 = [].
Proof.
  unfold difflib.get_grouped_opcodes. rewrite get_opcodes_identical.
  assert (Hone : ∀ N, 0 < N →
    (let codes := alter (difflib.trim_leading 3) 0%nat
                    [(difflib.Equal, 0, N, 0, N)] in
     let codes := alter (difflib.trim_trailing 3) (pred (length codes)) codes in
     let '(group, yielded) := foldl (difflib.group_step 3) ([], []) codes in
     match group with
     | [] => yielded
     | [c] => if difflib.is_equal c then yielded else yielded ++ [group]
     | _ => yielded ++ [group]
     end) = []).
  { intros N HN. simpl. rewrite decide_False by lia. done. }
  destruct (decide (len a = 0)) as [Hn|Hn].
  - by apply (Hone 1).
  - apply Hone. unfold len in *. lia.
Qed.

End identical.

(** Identical line sequences give an empty diff. *)
Lemma unified_diff_identical (lines : list str) fromfile tofile :
  difflib.unified_diff lines lines fromfile tofile [] [] 3 [] = [].
Proof. by rewrite unified_diff_eq, get_grouped_opcodes_identical. Qed.

(** *** Any two sequences: the matching blocks are blocks of equal elements *)

Section matching.
Context {A : Type} {eq_dec : EqDecision A} {countable : Countable A}.
Variables a b : list A.
Local Abbreviation self := (difflib.new a b).

Lemma block_in_weaken alo ahi blo bhi alo' ahi' blo' bhi' m :
  block_in a b alo ahi blo bhi m →
  alo' ≤ alo → ahi ≤ ahi' → blo' ≤ blo → bhi ≤ bhi' →
  block_in a b alo' ahi' blo' bhi' m.
Proof. unfold block_in. intros (? & ? & ? & ? & ? & ?) ????. split_and!; (lia || done). Qed.

Lemma same_at_Some junk i j :
  difflib.same_at self junk i j = true →
  ∃ x, getitem a i = Some x ∧ getitem b j = Some x.
Proof.
  unfold difflib.same_at. rewrite new_seq_a, new_seq_b.
  destruct (getitem a i) as [x|]; [|done]. destruct (getitem b j) as [y|]; [|done].
  intros [_ ->%bool_decide_eq_true]%andb_true_iff. eauto.
Qed.

(** A block grown by one equal pair at its end. *)
Lemma block_in_snoc alo ahi blo bhi i j k x :
  block_in a b alo ahi blo bhi (i, j, k) →
  getitem a (i + k) = Some x → getitem b (j + k) = Some x →
  i + k < ahi → j + k < bhi →
  block_in a b alo ahi blo bhi (i, j, k + 1).
Proof.
  unfold block_in. simpl. intros (? & ? & ? & ? & ? & Heq) Ha Hb ??.
  split_and!; try lia. intros t Ht.
  destruct (decide (t = k)) as [->|]; [eauto|]. apply Heq. lia.
Qed.

(** A block grown by one equal pair at its start. *)
Lemma block_in_cons alo ahi blo bhi i j k x :
  block_in a b alo ahi blo bhi (i, j, k) →
  getitem a (i - 1) = Some x → getitem b (j - 1) = Some x →
  alo < i → blo < j →
  block_in a b alo ahi blo bhi (i - 1, j - 1, k + 1).
Proof.
  unfold block_in. simpl. intros (? & ? & ? & ? & ? & Heq) Ha Hb ??.
  split_and!; try lia. intros t Ht.
  destruct (decide (t = 0)) as [->|].
  - rewrite !Z.add_0_r. eauto.
  - replace (i - 1 + t) with (i + (t - 1)) by lia.
    replace (j - 1 + t) with (j + (t - 1)) by lia. apply Heq. lia.
Qed.

Lemma flm_outer_block alo ahi blo bhi i j2len best :
  0 ≤ alo ≤ i → i < ahi → 0 ≤ blo →
  block_in a b alo ahi blo bhi best →
  (∀ j v, j2len !! j = Some v →
          block_in a b alo i blo (j + 1) (i - v, j - v + 1, v)) →
  let st := difflib.flm_outer self blo bhi (j2len, best) i in
  block_in a b alo ahi blo bhi st.2
  ∧ ∀ j v, st.1 !! j = Some v →
           block_in a b alo (i + 1) blo (j + 1) (i + 1 - v, j - v + 1, v).
Proof.
  intros Hi Hhi Hblo Hbest Hlen. unfold difflib.flm_outer. rewrite new_seq_a.
  set (js := match getitem a i with
             | Some x => default [] (difflib.b2j self !! x)
             | None => []
             end).
  assert (Hjs : ∀ j, j ∈ js → ∃ x, getitem a i = Some x ∧ getitem b j = Some x).
  { subst js. intros j. destruct (getitem a i) as [x|]; [|by intros ?%elem_of_nil].
    destruct (difflib.b2j self !! x) as [js|] eqn:Hx; [|by intros ?%elem_of_nil].
    simpl. intros Hj%(new_b2j_elem a b x js j Hx). eauto. }
  edestruct (flm_inner_ind
    (λ _ st, block_in a b alo ahi blo bhi st.2
             ∧ ∀ j v, st.1 !! j = Some v →
                      block_in a b alo (i + 1) blo (j + 1) (i + 1 - v, j - v + 1, v))
    j2len i blo bhi js)
    with (js := js) (pre := @nil Z) (st := (∅ : gmap Z Z, best))
    as (js1 & js2 & _ & Hres & _); [| |done| |exact Hres].
  - by intros pre j post st _ ? _.
  - intros pre j post new bi bj bs Hpre [Hb Hnew] Hj k.
    destruct (Hjs j) as (x & Hai & Hbj);
      [rewrite Hpre; apply elem_of_app; right; left|].
    assert (Hk : block_in a b alo (i + 1) blo (j + 1) (i + 1 - k, j - k + 1, k)).
    { subst k. destruct (j2len !! (j - 1)) as [v|] eqn:Hv; simpl.
      - specialize (Hlen _ _ Hv).
        replace (i + 1 - (v + 1)) with (i - v) by lia.
        replace (j - (v + 1) + 1) with (j - 1 - v + 1) by lia.
        eapply block_in_snoc.
        + eapply block_in_weaken; [exact Hlen|lia..].
        + by replace (i - v + v) with i by lia.
        + by replace (j - 1 - v + 1 + v) with j by lia.
        + lia.
        + lia.
      - unfold block_in. simpl. split_and!; try lia. intros t Ht.
        replace (i + 1 - (0 + 1) + t) with i by lia.
        replace (j - (0 + 1) + 1 + t) with j by lia. eauto. }
    assert (Hnew' : ∀ j' v, <[j:=k]> new !! j' = Some v →
              block_in a b alo (i + 1) blo (j' + 1) (i + 1 - v, j' - v + 1, v)).
    { intros j' v. destruct (decide (j = j')) as [<-|Hne].
      - rewrite lookup_insert_eq. by intros [= <-].
      - rewrite lookup_insert_ne by done. apply Hnew. }
    destruct (decide (bs < k)); simpl; (split; [|done]); [|done].
    replace (i - k + 1) with (i + 1 - k) by lia.
    eapply block_in_weaken; [exact Hk|lia..].
  - simpl. split; [done|]. intros j v. by rewrite lookup_empty.
Qed.

Lemma find_longest_match_block alo ahi blo bhi :
  0 ≤ alo ≤ ahi → ahi ≤ len a → 0 ≤ blo ≤ bhi → bhi ≤ len b →
  block_in a b alo ahi blo bhi
    (difflib.find_longest_match self alo ahi blo bhi).
Proof.
  intros Ha Ha' Hb Hb'. unfold difflib.find_longest_match.
  assert (Hloop :
    block_in a b alo ahi blo bhi
      (foldl (difflib.flm_outer self blo bhi) (∅, (alo, blo, 0))
             (seqZ alo (ahi - alo))).2).
  { edestruct (foldl_seqZ_ind
      (λ i st, block_in a b alo ahi blo bhi st.2
               ∧ ∀ j v, st.1 !! j = Some v →
                        block_in a b alo i blo (j + 1) (i - v, j - v + 1, v))
      (difflib.flm_outer self blo bhi) alo (ahi - alo) (∅, (alo, blo, 0)))
      as [Hbest _]; [| |exact Hbest].
    - simpl. split; [|intros j v; by rewrite lookup_empty].
      unfold block_in. simpl. split_and!; intros; lia.
    - intros i [j2len best] Hi [Hbest Hlen].
      apply flm_outer_block; (lia || done). }
  apply extend_right_ind.
  { apply extend_left_ind.
    { apply extend_right_ind.
      { apply extend_left_ind; [done|].
        intros i j k Hblk ?? (x & ? & ?)%same_at_Some.
        by eapply block_in_cons. }
      intros i j k Hblk ?? (x & ? & ?)%same_at_Some.
      by eapply block_in_snoc. }
    intros i j k Hblk ?? (x & ? & ?)%same_at_Some.
    by eapply block_in_cons. }
  intros i j k Hblk ?? (x & ? & ?)%same_at_Some.
  by eapply block_in_snoc.
Qed.

End matching.

Section windows.

Lemma apart_sym w1 w2 : apart w1 w2 → apart w2 w1.
Proof. unfold apart. tauto. Qed.

Lemma apart_inside w w' y : inside w w' → apart w' y → apart w y.
Proof. unfold inside, apart, before. lia. Qed.

Lemma all_apart_Permutation ws ws' : ws ≡ₚ ws' → all_apart ws → all_apart ws'.
Proof.
  induction 1 as [|w ws ws' Hp IH|w1 w2 ws|ws1 ws2 ws3 _ IH1 _ IH2]; simpl.
  - done.
  - intros [Hw Hws]. split; [by rewrite <- Hp|auto].
  - intros [[H12 H1]%Forall_cons [H2 Hws]].
    split_and!; [apply Forall_cons; split; [by apply apart_sym|done]|done|done].
  - auto.
Qed.

Lemma all_apart_tail w ws : all_apart (w :: ws) → all_apart ws.
Proof. by intros [_ ?]. Qed.

(** A window replaced by windows inside it that are apart from each other. *)
Lemma all_apart_refine w ws parts :
  all_apart (w :: ws) → Forall (λ p, inside p w) parts → all_apart parts →
  all_apart (parts ++ ws).
Proof.
  intros [Hw Hws] Hin Hparts. induction parts as [|p parts IH]; [done|].
  apply Forall_cons in Hin as [Hp Hin]. destruct Hparts as [Hpp Hparts].
  simpl. split; [|by apply IH].
  apply Forall_app. split; [done|].
  eapply Forall_impl; [exact Hw|]. intros y. by apply apart_inside.
Qed.

End windows.

Section queue.
Context {A : Type} {eq_dec : EqDecision A} {countable : Countable A}.
Variables a b : list A.
Local Abbreviation self := (difflib.new a b).

Lemma queue_weight_cons alo ahi blo bhi queue :
  queue_weight ((alo, ahi, blo, bhi) :: queue)
  = (2 * Z.to_nat (ahi - alo) + 1 + queue_weight queue)%nat.
Proof. done. Qed.

(** One iteration keeps the invariant and lowers the weight of the queue. *)
Lemma mb_loop_step alo ahi blo bhi queue mbs :
  queue_inv a b ((alo, ahi, blo, bhi) :: queue) mbs →
  let m := difflib.find_longest_match self alo ahi blo bhi in
  let queue1 :=
    if decide (alo < m.1.1 ∧ blo < m.1.2)
    then (alo, m.1.1, blo, m.1.2) :: queue else queue in
  let queue2 :=
    if decide (m.1.1 + m.2 < ahi ∧ m.1.2 + m.2 < bhi)
    then (m.1.1 + m.2, ahi, m.1.2 + m.2, bhi) :: queue1 else queue1 in
  (m.2 = 0 → queue_inv a b queue mbs)
  ∧ (m.2 ≠ 0 →
     queue_inv a b queue2 (mbs ++ [m])
     ∧ (queue_weight queue2 < queue_weight ((alo, ahi, blo, bhi) :: queue))%nat).
Proof.
  intros ([Hw Hq]%Forall_cons & Hmbs & Hapart) m queue1 queue2.
  destruct Hw as (Ha & Ha' & Hb & Hb'). simpl in Ha, Ha', Hb, Hb'.
  pose proof (find_longest_match_block a b alo ahi blo bhi Ha Ha' Hb Hb') as Hm.
  fold m in Hm. destruct m as [[i j] k] eqn:Em.
  destruct Hm as (Hi & Hik & Hj & Hjk & Hk & Heq). simpl in *.
  split.
  { intros ->. split_and!; [done|done|]. by apply all_apart_tail in Hapart. }
  intros Hk0. split.
  - (* the invariant *)
    assert (Hblock : block_in a b 0 (len a) 0 (len b) (i, j, k)).
    { unfold block_in. simpl. split_and!; (lia || done). }
    split_and!.
    + subst queue2 queue1. repeat case_decide; repeat apply Forall_cons_2;
        try done; unfold valid_window; simpl; lia.
    + apply Forall_app. split; [done|]. apply Forall_singleton. split; [done|simpl; lia].
    + rewrite fmap_app. simpl.
      (* the three windows inside the one taken from the queue *)
      set (L := (alo, i, blo, j)). set (B := window_of (i, j, k)).
      set (Rt := (i + k, ahi, j + k, bhi)).
      assert (Hall : all_apart ([Rt; L; B] ++ queue ++ (window_of <$> mbs))).
      { eapply all_apart_refine; [exact Hapart| |].
        - repeat apply Forall_cons_2; [| | |done];
            unfold inside, Rt, L, B, window_of; simpl; lia.
        - simpl. split_and!; [|by repeat constructor|done..].
          repeat apply Forall_cons_2; [| |done];
            unfold apart, before, Rt, L, B, window_of; simpl; lia. }
      assert (HB : ∀ front, all_apart (front ++ B :: queue ++ (window_of <$> mbs)) →
                   all_apart ((front ++ queue) ++ (window_of <$> mbs) ++ [B])).
      { intros front. apply all_apart_Permutation.
        rewrite <- !app_assoc. apply Permutation_app_head.
        rewrite (Permutation_app_comm (window_of <$> mbs) [B]).
        rewrite app_assoc. rewrite (Permutation_app_comm queue [B]).
        by rewrite <- app_assoc. }
      subst queue2 queue1. simpl in Hall.
      destruct (decide (alo < i ∧ blo < j)), (decide (i + k < ahi ∧ j + k < bhi)).
      * apply (HB [Rt; L]). exact Hall.
      * apply (HB [L]). exact (all_apart_tail _ _ Hall).
      * apply (HB [Rt]). destruct Hall as [[_ HRt]%Forall_cons [_ Hrest]].
        split; done.
      * apply (HB []). exact (all_apart_tail _ _ (all_apart_tail _ _ Hall)).
  - (* the weight *)
    subst queue2 queue1.
    repeat case_decide; rewrite !queue_weight_cons; lia.
Qed.

(** With one unit of fuel for each unit of weight, the loop ends on an
    empty queue. *)
Lemma mb_loop_spec fuel : ∀ queue mbs,
  queue_inv a b queue mbs → (queue_weight queue ≤ fuel)%nat →
  (difflib.mb_loop self fuel queue mbs).1 = []
  ∧ queue_inv a b [] (difflib.mb_loop self fuel queue mbs).2.
Proof.
  induction fuel as [|fuel IH]; intros queue mbs Hinv Hfuel.
  - destruct queue as [|[[[alo ahi] blo] bhi] queue]; [done|].
    rewrite queue_weight_cons in Hfuel. lia.
  - destruct queue as [|[[[alo ahi] blo] bhi] queue]; [done|].
    pose proof (mb_loop_step alo ahi blo bhi queue mbs Hinv) as [Hzero Hpos].
    cbn [difflib.mb_loop].
    destruct (difflib.find_longest_match self alo ahi blo bhi) as [[i j] k].
    simpl in Hzero, Hpos.
    destruct (decide (k = 0)) as [Hk|Hk].
    + apply IH; [by apply Hzero|].
      rewrite queue_weight_cons in Hfuel. lia.
    + destruct (Hpos Hk) as [Hinv' Hw]. apply IH; [done|lia].
Qed.

End queue.

Section match_order.

Lemma match_le_trans : Transitive difflib.match_le.
Proof. intros [[??]?] [[??]?] [[??]?]. unfold difflib.match_le. simpl. lia. Qed.

Lemma match_le_total : Total difflib.match_le.
Proof. intros [[??]?] [[??]?]. unfold difflib.match_le. simpl. lia. Qed.

(** Sorted as tuples, blocks that are pairwise apart are in chain order. *)
Lemma sorted_apart_chain ms :
  StronglySorted difflib.match_le ms →
  all_apart (window_of <$> ms) →
  Forall (λ m, 0 < m.2) ms →
  chain ms.
Proof.
  unfold chain. induction ms as [|m ms IH]; [constructor|].
  intros [Hle Hsorted]%StronglySorted_cons [Hm Hapart] [Hk Hks]%Forall_cons.
  constructor; [by apply IH|].
  rewrite Forall_fmap in Hm. rewrite Forall_forall in Hle, Hm, Hks.
  apply Forall_forall. intros m' Hin.
  specialize (Hle _ Hin). specialize (Hm _ Hin). specialize (Hks _ Hin).
  destruct m as [[i j] k], m' as [[i' j'] k'].
  unfold difflib.match_le, apart, before, window_of in *. simpl in *. lia.
Qed.

Lemma chain_merge na i1 j1 k1 k2 ms :
  chain (na ++ (i1, j1, k1) :: (i1 + k1, j1 + k1, k2) :: ms) →
  chain (na ++ (i1, j1, k1 + k2) :: ms).
Proof.
  unfold chain. rewrite !StronglySorted_app, !StronglySorted_cons.
  intros (Hna & ? & Hcur & Hm & ?). split_and!; [|done| |done].
  - intros x1 x2 Hx1 [->|Hx2]%elem_of_cons.
    + specialize (Hna x1 (i1, j1, k1) Hx1 ltac:(left)).
      unfold before, window_of in *. simpl in *. lia.
    + apply Hna; [done|]. by do 2 right.
  - eapply Forall_impl; [exact Hm|]. intros [[i j] k].
    unfold before, window_of. simpl. lia.
Qed.

Lemma chain_drop na m ms : chain (na ++ m :: ms) → chain (na ++ ms).
Proof.
  unfold chain. rewrite !StronglySorted_app, !StronglySorted_cons.
  intros (Hna & ? & _ & ?). split_and!; [|done|done].
  intros x1 x2 ??. apply Hna; [done|by right].
Qed.

Lemma chain_snoc ms m :
  chain ms → Forall (λ x, before (window_of x) (window_of m)) ms →
  chain (ms ++ [m]).
Proof.
  unfold chain. intros Hms Hall. apply StronglySorted_app_2; [|done|].
  - intros x1 x2 Hx1 ->%list_elem_of_singleton.
    rewrite Forall_forall in Hall. by apply Hall.
  - repeat constructor.
Qed.

End match_order.

Section blocks.
Context {A : Type} {eq_dec : EqDecision A} {countable : Countable A}.
Variables a b : list A.
Local Abbreviation self := (difflib.new a b).
Local Abbreviation whole := (block_in a b 0 (len a) 0 (len b)).

(** Two adjacent blocks are one block. *)
Lemma block_in_merge i1 j1 k1 k2 :
  whole (i1, j1, k1) → whole (i1 + k1, j1 + k1, k2) → whole (i1, j1, k1 + k2).
Proof.
  unfold block_in. simpl.
  intros (? & ? & ? & ? & ? & Heq1) (? & ? & ? & ? & ? & Heq2).
  split_and!; try lia. intros t Ht. destruct (decide (t < k1)).
  - apply Heq1. lia.
  - replace (i1 + t) with (i1 + k1 + (t - k1)) by lia.
    replace (j1 + t) with (j1 + k1 + (t - k1)) by lia. apply Heq2. lia.
Qed.

Lemma collapse_fold ms : ∀ cur na,
  chain (na ++ cur :: ms) →
  Forall (λ m, whole m ∧ 0 < m.2) na → whole cur →
  Forall (λ m, whole m ∧ 0 < m.2) ms →
  let r := foldl difflib.collapse_step (cur, na) ms in
  chain (r.2 ++ [r.1]) ∧ Forall (λ m, whole m ∧ 0 < m.2) r.2 ∧ whole r.1.
Proof.
  induction ms as [|[[i2 j2] k2] ms IH]; intros [[i1 j1] k1] na Hchain Hna Hcur Hms.
  { done. }
  apply Forall_cons in Hms as [[Hm Hk2] Hms]. simpl in Hk2.
  cbn [foldl difflib.collapse_step].
  destruct (decide (i1 + k1 = i2 ∧ j1 + k1 = j2)) as [[<- <-]|Hne].
  - apply IH; [by apply chain_merge|done|by apply block_in_merge|done].
  - destruct (decide (k1 = 0)) as [->|Hk1].
    + apply IH; [by eapply chain_drop|done|done|done].
    + apply IH; [by rewrite <- app_assoc| |done|done].
      apply Forall_app. split; [done|]. apply Forall_singleton.
      split; [done|]. destruct Hcur as (_ & _ & _ & _ & ? & _). simpl in *. lia.
Qed.

(** The matching blocks: in chain order, each a block of equal elements,
    the sentinel last. *)
Lemma get_matching_blocks_chain :
  chain (difflib.get_matching_blocks self)
  ∧ Forall whole (difflib.get_matching_blocks self)
  ∧ ∃ ms, difflib.get_matching_blocks self = ms ++ [(len a, len b, 0)].
Proof.
  unfold difflib.get_matching_blocks. rewrite new_seq_a, new_seq_b.
  (* the queue loop *)
  destruct (mb_loop_spec a b (2 * length a + 1) [(0, len a, 0, len b)] [])
    as [_ (_ & Hblocks & Hapart)].
  { split_and!; [|done|by repeat constructor].
    apply Forall_singleton. unfold valid_window, len. simpl. lia. }
  { rewrite queue_weight_cons. unfold queue_weight, len. simpl. lia. }
  simpl in Hapart.
  set (blocks := (difflib.mb_loop self _ _ _).2) in *.
  (* sorting *)
  pose proof (merge_sort_Permutation difflib.match_le blocks) as Hperm.
  pose proof (@StronglySorted_merge_sort _ difflib.match_le _
                match_le_trans match_le_total blocks) as Hsorted.
  set (sorted := merge_sort difflib.match_le blocks) in *.
  rewrite <- Hperm in Hblocks.
  assert (Hchain : chain sorted).
  { apply sorted_apart_chain; [done| |].
    - eapply all_apart_Permutation; [|exact Hapart]. by rewrite Hperm.
    - eapply Forall_impl; [exact Hblocks|]. by intros m [_ ?]. }
  (* merging the adjacent blocks *)
  assert (Hzero : whole (0, 0, 0)).
  { unfold block_in, len. simpl. split_and!; intros; lia. }
  destruct (collapse_fold sorted (0, 0, 0) []) as (Hc & Hna & Hcur);
    [|done|done|done|].
  { simpl. apply StronglySorted_cons. split; [|done].
    eapply Forall_impl; [exact Hblocks|]. intros [[i j] k] [(? & ? & ? & ? & ? & _) _].
    unfold before, window_of. simpl in *. lia. }
  destruct (foldl difflib.collapse_step _ _) as [[[i1 j1] k1] non_adjacent].
  simpl in Hc, Hna, Hcur.
  (* the sentinel *)
  assert (Hsentinel : whole (len a, len b, 0)).
  { unfold block_in, len. simpl. split_and!; intros; lia. }
  assert (Hends : ∀ m, whole m → before (window_of m) (window_of (len a, len b, 0))).
  { intros [[i j] k] (? & ? & ? & ? & ? & _). unfold before, window_of. simpl in *. lia. }
  destruct (decide (k1 = 0)) as [Hk1|Hk1].
  - split_and!; [| |eauto].
    + apply chain_snoc; [by eapply StronglySorted_app_1_l|].
      eapply Forall_impl; [exact Hna|]. intros m [? _]. by apply Hends.
    + apply Forall_app. split; [|by apply Forall_singleton].
      eapply Forall_impl; [exact Hna|]. by intros m [? _].
  - split_and!; [| |eauto].
    + apply chain_snoc; [done|]. apply Forall_app. split.
      * eapply Forall_impl; [exact Hna|]. intros m [? _]. by apply Hends.
      * apply Forall_singleton. by apply Hends.
    + rewrite !Forall_app, !Forall_singleton. split_and!; [|done|done].
      eapply Forall_impl; [exact Hna|]. by intros m [? _].
Qed.

End blocks.

Section opcodes.
Context {A : Type} {eq_dec : EqDecision A} {countable : Countable A}.
Variables a b : list A.
Local Abbreviation self := (difflib.new a b).
Local Abbreviation whole := (block_in a b 0 (len a) 0 (len b)).

(** Equal prefixes followed by a block of equal elements. *)
Lemma take_block i k :
  0 ≤ i → 0 ≤ k →
  take (Z.to_nat i) a = take (Z.to_nat i) b →
  (∀ t, 0 ≤ t < k →
        ∃ x, getitem a (i + t) = Some x ∧ getitem b (i + t) = Some x) →
  take (Z.to_nat (i + k)) a = take (Z.to_nat (i + k)) b.
Proof.
  intros Hi Hk Hpre Heq. apply list_eq. intros n.
  destruct (decide (n < Z.to_nat (i + k))%nat) as [Hn|Hn].
  - rewrite !lookup_take_lt by done.
    destruct (decide (n < Z.to_nat i)%nat) as [Hlt|Hge].
    + rewrite <- (lookup_take_lt a (Z.to_nat i)), <- (lookup_take_lt b (Z.to_nat i))
        by done. by rewrite Hpre.
    + destruct (Heq (Z.of_nat n - i)) as (x & Ha & Hb); [lia|].
      unfold getitem in Ha, Hb. rewrite decide_True in Ha, Hb by lia.
      replace (Z.to_nat (i + (Z.of_nat n - i))) with n in Ha, Hb by lia.
      by rewrite Ha, Hb.
  - rewrite !lookup_take_ge by lia. done.
Qed.

(** The opcodes are only appended to. *)
Lemma opcodes_fold_prefix ms : ∀ i j answer,
  ∃ ext, (foldl difflib.opcode_step (i, j, answer) ms).2 = answer ++ ext.
Proof.
  induction ms as [|[[ai bj] size] ms IH]; intros i j answer.
  - exists []. by rewrite app_nil_r.
  - cbn [foldl difflib.opcode_step].
    match goal with |- context [foldl _ (?i', ?j', ?ans') ms] =>
      destruct (IH i' j' ans') as [ext ->] end.
    repeat case_decide; rewrite <- ?app_assoc; eauto.
Qed.

(** When every opcode is [Equal], the blocks tile equal prefixes. *)
Lemma opcodes_fold_equal ms : ∀ i answer,
  chain ms → Forall whole ms →
  Forall (λ m, i ≤ m.1.1 ∧ i ≤ m.1.2) ms →
  0 ≤ i → take (Z.to_nat i) a = take (Z.to_nat i) b →
  let r := foldl difflib.opcode_step (i, i, answer) ms in
  Forall (λ c, difflib.is_equal c = true) r.2 →
  r.1.1 = r.1.2 ∧ 0 ≤ r.1.1
  ∧ take (Z.to_nat r.1.1) a = take (Z.to_nat r.1.1) b.
Proof.
  induction ms as [|[[ai bj] size] ms IH]; intros i answer Hchain Hwhole Hle Hi Hpre.
  { done. }
  apply StronglySorted_cons in Hchain as [Hnext Hchain].
  apply Forall_cons in Hwhole as [Hm Hwhole].
  apply Forall_cons in Hle as [[Hai Hbj] _]. simpl in Hai, Hbj.
  destruct Hm as (_ & _ & _ & _ & Hsize & Heq). simpl in Hsize, Heq.
  cbn [foldl difflib.opcode_step].
  destruct (decide (i = ai ∧ i = bj)) as [[<- <-]|Hne].
  - (* the block starts where the last one ended: no change before it *)
    assert (Hnext' : Forall (λ m, i + size ≤ m.1.1 ∧ i + size ≤ m.1.2) ms).
    { eapply Forall_impl; [exact Hnext|]. intros [[i' j'] k'].
      unfold before, window_of. simpl. lia. }
    repeat case_decide; try lia;
      (apply IH; [done|done|done|lia|by apply take_block]).
  - (* a change before the block: an opcode that is not [Equal] *)
    cbv zeta. intros Hall. exfalso.
    match type of Hall with context [foldl _ (?i', ?j', ?ans') ms] =>
      destruct (opcodes_fold_prefix ms i' j' ans') as [ext Hext];
      rewrite Hext in Hall end.
    clear Hext. apply Forall_app in Hall as [Hall _].
    repeat case_decide; try lia;
      rewrite ?Forall_app, ?Forall_singleton in Hall; destruct_and!; discriminate.
Qed.

Lemma opcodes_fold_end ms st :
  (foldl difflib.opcode_step st (ms ++ [(len a, len b, 0)])).1
  = (len a + 0, len b + 0).
Proof.
  rewrite foldl_app. simpl.
  destruct (foldl difflib.opcode_step st ms) as [[i j] answer]. done.
Qed.

(** Sequences that differ get an opcode that is not [Equal]. *)
Lemma get_opcodes_not_all_equal :
  a ≠ b → Exists (λ c, difflib.is_equal c = false) (difflib.get_opcodes self).
Proof.
  intros Hne.
  destruct (decide (Exists (λ c, difflib.is_equal c = false)
                      (difflib.get_opcodes self))) as [|Hall]; [done|].
  exfalso. apply Hne. apply not_Exists_Forall in Hall; [|apply _].
  destruct (get_matching_blocks_chain a b) as (Hchain & Hwhole & ms & Hms).
  unfold difflib.get_opcodes in Hall.
  assert (Hall' : Forall (λ c, difflib.is_equal c = true)
            (foldl difflib.opcode_step (0, 0, []) (difflib.get_matching_blocks self)).2).
  { eapply Forall_impl; [exact Hall|]. intros c. simpl.
    by destruct (difflib.is_equal c). }
  pose proof (opcodes_fold_equal _ 0 [] Hchain Hwhole) as Hfold.
  destruct Hfold as (Hij & _ & Htake); [|done|done|exact Hall'|].
  { eapply Forall_impl; [exact Hwhole|].
    intros [[i j] k] (? & _ & ? & _). simpl in *. lia. }
  pose proof (opcodes_fold_end ms (0, 0, [])) as Hend. rewrite <- Hms in Hend.
  rewrite Hend in Hij, Htake. simpl in Hij, Htake.
  rewrite take_ge in Htake by (unfold len; lia).
  rewrite take_ge in Htake by (unfold len in *; lia). done.
Qed.

End opcodes.

Section grouping.
Context {A : Type} {eq_dec : EqDecision A} {countable : Countable A}.
Variable self : difflib.SequenceMatcher A.
Local Abbreviation changed :=
  (λ c : difflib.tag * Z * Z * Z * Z, difflib.is_equal c = false).

Lemma snoc_ne_nil {X} (l : list X) x : l ++ [x] ≠ [].
Proof. intros Heq%(f_equal length). rewrite length_app in Heq. simpl in Heq. lia. Qed.

Lemma is_equal_trim_leading n c :
  difflib.is_equal (difflib.trim_leading n c) = difflib.is_equal c.
Proof.
  destruct c as [[[[tag i1] i2] j1] j2]. unfold difflib.trim_leading.
  by destruct (decide (tag = difflib.Equal)).
Qed.

Lemma is_equal_trim_trailing n c :
  difflib.is_equal (difflib.trim_trailing n c) = difflib.is_equal c.
Proof.
  destruct c as [[[[tag i1] i2] j1] j2]. unfold difflib.trim_trailing.
  by destruct (decide (tag = difflib.Equal)).
Qed.

(** Rewriting one opcode without touching its tag keeps the changes. *)
Lemma Exists_changed_alter f (codes : list (difflib.tag * Z * Z * Z * Z)) :
  (∀ c, difflib.is_equal (f c) = difflib.is_equal c) →
  ∀ i, Exists changed codes → Exists changed (alter f i codes).
Proof.
  intros Hf. induction codes as [|c codes IH]; intros i Hex; [done|].
  apply Exists_cons in Hex. destruct i as [|i]; simpl.
  - apply Exists_cons. rewrite Hf. done.
  - apply Exists_cons. destruct Hex; [by left|right; by apply IH].
Qed.

(** The grouping loop yields no empty group, and a change does not get
    lost: it is in a group yielded or in the open group. *)
Lemma group_fold n codes : ∀ group yielded,
  let r := foldl (difflib.group_step n) (group, yielded) codes in
  (Forall (λ g, g ≠ []) yielded → Forall (λ g, g ≠ []) r.2)
  ∧ (Exists changed codes ∨ Exists changed group ∨ yielded ≠ [] →
     Exists changed r.1 ∨ r.2 ≠ []).
Proof.
  induction codes as [|[[[[tag i1] i2] j1] j2] codes IH]; intros group yielded.
  - simpl. split; [done|]. intros [?%Exists_nil|[?|?]]; auto.
  - cbn [foldl difflib.group_step].
    destruct (decide (tag = difflib.Equal ∧ n + n < i2 - i1)) as [[-> ?]|Hsmall].
    + match goal with |- context [foldl _ (?g, ?y) codes] =>
        destruct (IH g y) as [Hne Hch] end.
      split.
      * intros Hy. apply Hne. apply Forall_app. split; [done|].
        apply Forall_singleton. apply snoc_ne_nil.
      * intros _. apply Hch. do 2 right. apply snoc_ne_nil.
    + destruct (IH (group ++ [(tag, i1, i2, j1, j2)]) yielded) as [Hne Hch].
      split; [done|].
      intros [[?|?]%Exists_cons|[?|?]]; apply Hch; auto.
      * right; left. apply Exists_app. right. by apply Exists_cons; left.
      * right; left. apply Exists_app. by left.
Qed.

Lemma get_grouped_opcodes_groups n :
  Forall (λ g, g ≠ []) (difflib.get_grouped_opcodes self n)
  ∧ (Exists changed (difflib.get_opcodes self) →
     difflib.get_grouped_opcodes self n ≠ []).
Proof.
  unfold difflib.get_grouped_opcodes.
  set (codes0 := match difflib.get_opcodes self with
                 | [] => [(difflib.Equal, 0, 1, 0, 1)]
                 | _ => difflib.get_opcodes self
                 end).
  set (codes1 := alter (difflib.trim_leading n) 0%nat codes0).
  set (codes2 := alter (difflib.trim_trailing n) (pred (length codes1)) codes1).
  assert (Hch : Exists changed (difflib.get_opcodes self) → Exists changed codes2).
  { intros Hex. apply Exists_changed_alter; [apply is_equal_trim_trailing|].
    apply Exists_changed_alter; [apply is_equal_trim_leading|].
    subst codes0.
    destruct (difflib.get_opcodes self); [by apply Exists_nil in Hex|done]. }
  destruct (group_fold n codes2 [] []) as [Hne Hkeep].
  destruct (foldl (difflib.group_step n) ([], []) codes2) as [group yielded].
  simpl in Hne, Hkeep. specialize (Hne ltac:(constructor)).
  assert (Hyield : Forall (λ g, g ≠ []) (yielded ++ [group]) ↔ group ≠ []).
  { rewrite Forall_app, Forall_singleton. tauto. }
  destruct group as [|c [|c' group]].
  - split; [done|]. intros Hex%Hch.
    destruct Hkeep as [?%Exists_nil|?]; auto.
  - destruct (difflib.is_equal c) eqn:Hc.
    + split; [done|]. intros Hex%Hch.
      destruct Hkeep as [Hex'|?]; auto.
      apply Exists_cons in Hex' as [?|?%Exists_nil]; [congruence|done].
    + split; [by apply Hyield|]. intros _. apply snoc_ne_nil.
  - split; [by apply Hyield|]. intros _. apply snoc_ne_nil.
Qed.

End grouping.

(** Line sequences that differ give the two headers and a first range
    line; every line after the headers is a range line or a line of one of
    the inputs behind its prefix. *)
Lemma unified_diff_differ (a b : list str) fromfile tofile n :
  a ≠ b →
  ∃ l ls,
    difflib.unified_diff a b fromfile tofile [] [] n []
    = (lit "--- " ++ fromfile) :: (lit "+++ " ++ tofile) :: l :: ls
    ∧ range_line l ∧ Forall (hunk_line a b) (l :: ls).
Proof.
  intros Hne. rewrite unified_diff_eq.
  destruct (get_grouped_opcodes_groups (difflib.new a b) n) as [Hgroups Hsome].
  specialize (Hsome (get_opcodes_not_all_equal a b Hne)).
  destruct (difflib.get_grouped_opcodes (difflib.new a b) n) as [|g gs]; [done|].
  apply Forall_cons in Hgroups as [Hg _].
  destruct (hunk_head a b g Hg) as (l & ls & Hhunk & Hl).
  exists l, (ls ++ mjoin (difflib.hunk a b [] <$> gs)).
  split_and!; [|done|].
  - simpl. by rewrite Hhunk.
  - apply Forall_forall. intros x Hx.
    assert (x ∈ mjoin (difflib.hunk a b [] <$> g :: gs)) as Hin.
    { simpl. by rewrite Hhunk. }
    apply list_elem_of_join in Hin as (h & Hxh & Hh).
    apply list_elem_of_fmap in Hh as (g' & -> & _).
    by eapply hunk_lines.
Qed.

(** ** The program over a standard output that refuses texts *)

Section stdout_facts.
Context (out : Stdout.stdout).
Implicit Types (fs : str → file) (p : str) (written : list str).

Lemma follows_ret {X} (x : X) : follows out (mret x) (mret x).
Proof. intros written. left. cbn. by rewrite app_nil_r. Qed.

Lemma follows_raise {X} e : follows out (Stdout.raise (A:=X) e) (raise e).
Proof. intros written. left. cbn. by rewrite app_nil_r. Qed.

Lemma follows_print s : follows out (Stdout.print out s) (print s).
Proof.
  intros written. unfold Stdout.print.
  destruct (out written s) as [e|] eqn:Hs; [right|by left].
  exists [], s, [], e. by rewrite app_nil_r.
Qed.

Lemma follows_bind {X Y} (m : Stdout.io X) m0 (f : X → Stdout.io Y) f0 :
  follows out m m0 → (∀ x, follows out (f x) (f0 x)) →
  follows out (m ≫= f) (m0 ≫= f0).
Proof.
  intros Hm Hf written. unfold mbind, Stdout.bind, io_bind.
  destruct m0 as [o0 [e|x]];
    destruct (Hm written) as [->|(before & s & after & e' & Ho & Hout & ->)];
    cbn [fst snd] in *.
  - by left.
  - right. by exists before, s, after, e'.
  - destruct (f0 x) as [o' r] eqn:Hf0.
    destruct (Hf x (written ++ o0))
      as [->|(before & s & after & e' & Ho & Hout & ->)];
      rewrite Hf0 in *; cbn [fst snd] in *.
    + left. by rewrite app_assoc.
    + right. exists (o0 ++ before), s, after, e'.
      rewrite Ho, !app_assoc. done.
  - destruct (f0 x) as [o' r]. right.
    exists before, s, (after ++ o'), e'. cbn [fst].
    rewrite Ho, <- app_assoc. done.
Qed.

Lemma follows_for_each_print l :
  follows out (Stdout.for_each l (Stdout.print out)) (for_each l print).
Proof.
  induction l as [|x l IH]; [apply follows_ret|].
  cbn [Stdout.for_each for_each]. apply follows_bind; [apply follows_print|done].
Qed.

Lemma follows_index {X} (l : list X) i : follows out (Stdout.index l i) (index l i).
Proof.
  unfold Stdout.index, index.
  destruct (getitem l i); [apply follows_ret|apply follows_raise].
Qed.

(** The loader: the handlers print outside the [try] block. *)
Lemma stdout_read_Text fs p t written :
  fs p = Text t →
  Stdout.read_file_content_loosely out fs p written
  = (written, inr (Some (rstrip (translate_newlines t)))).
Proof.
  intros Hp.
  unfold Stdout.read_file_content_loosely, Stdout.try_except, Stdout.open_read.
  by rewrite Hp.
Qed.

Lemma stdout_read_Missing fs p written :
  fs p = Missing →
  Stdout.read_file_content_loosely out fs p written
  = match out written (msg_not_found ++ p ++ lit "'") with
    | None => (written ++ [msg_not_found ++ p ++ lit "'"], inr None)
    | Some e => (written, inl (OtherException e))
    end.
Proof.
  intros Hp.
  unfold Stdout.read_file_content_loosely, Stdout.try_except, Stdout.open_read.
  rewrite Hp. unfold mbind, Stdout.bind, Stdout.raise, Stdout.print.
  by destruct (out written (msg_not_found ++ p ++ lit "'")).
Qed.

Lemma stdout_read_Unreadable fs p e written :
  fs p = Unreadable e →
  Stdout.read_file_content_loosely out fs p written
  = match out written (msg_read_error ++ p ++ lit "': " ++ e) with
    | None => (written ++ [msg_read_error ++ p ++ lit "': " ++ e], inr None)
    | Some e' => (written, inl (OtherException e'))
    end.
Proof.
  intros Hp.
  unfold Stdout.read_file_content_loosely, Stdout.try_except, Stdout.open_read.
  rewrite Hp. unfold mbind, Stdout.bind, Stdout.raise, Stdout.print.
  by destruct (out written (msg_read_error ++ p ++ lit "': " ++ e)).
Qed.

Lemma follows_read fs p :
  follows out (Stdout.read_file_content_loosely out fs p)
    (read_file_content_loosely fs p).
Proof.
  intros written. destruct (fs p) as [|e|t] eqn:Hp.
  - rewrite (stdout_read_Missing _ _ _ Hp), (read_Missing _ _ Hp).
    destruct (out written _) as [e'|] eqn:Hs; [right|by left].
    eexists [], _, [], e'. by rewrite app_nil_r.
  - rewrite (stdout_read_Unreadable _ _ _ _ Hp), (read_Unreadable _ _ _ Hp).
    destruct (out written _) as [e'|] eqn:Hs; [right|by left].
    eexists [], _, [], e'. by rewrite app_nil_r.
  - rewrite (stdout_read_Text _ _ _ _ Hp), (read_Text _ _ _ Hp).
    left. cbn [fst snd]. by rewrite app_nil_r.
Qed.

Lemma follows_loose_diff fs p1 p2 :
  follows out (Stdout.loose_diff out fs p1 p2) (loose_diff fs p1 p2).
Proof.
  unfold Stdout.loose_diff, loose_diff.
  do 4 (apply follows_bind; [apply follows_print|intros _]).
  apply follows_bind; [apply follows_read|intros content1].
  apply follows_bind; [apply follows_read|intros content2].
  destruct content1 as [content1|], content2 as [content2|];
    try apply follows_ret.
  destruct (decide (content1 = content2)); [apply follows_print|].
  apply follows_bind; [apply follows_print|intros _].
  apply follows_for_each_print.
Qed.

Lemma follows_main fs argv :
  follows out (Stdout.main out fs argv) (main fs argv).
Proof.
  unfold Stdout.main, main.
  apply follows_bind.
  - destruct (decide (len argv ≠ 3)); [|apply follows_ret].
    apply follows_bind; [apply follows_print|intros _]. apply follows_raise.
  - intros _. apply follows_bind; [apply follows_index|intros file1].
    apply follows_bind; [apply follows_index|intros file2].
    apply follows_loose_diff.
Qed.






Lemma main_two_arguments fs prog file1 file2 :
  main fs [prog; file1; file2] = loose_diff fs file1 file2.
Proof.
  unfold main.
  destruct (decide (len [prog; file1; file2] ≠ 3)) as [Hne|_];
    [exfalso; apply Hne; reflexivity|].
  rewrite io_ret_bind.
  change (index [prog; file1; file2] 1) with (mret (M:=io) file1).
  change (index [prog; file1; file2] 2) with (mret (M:=io) file2).
  by rewrite !io_ret_bind.
Qed.

Lemma main_other_arguments fs argv :
  length (tail argv) ≠ 2%nat → main fs argv = ([msg_usage], inl (SystemExit 1)).
Proof.
  intros Hlen. unfold main. rewrite decide_True; [done|].
  unfold len. destruct argv; simpl in *; lia.
Qed.




End stdout_facts.


(** * The claims of the specification *)

Section claims.
Implicit Types (fs : str → file) (p : str).

(** C1: for two files that load, [loose_diff] reports equivalence, and
    prints no diff, exactly when the two normalized contents (the text read,
    trailing whitespace stripped) are equal; when they differ it prints the
    "differs" warning and goes on to the diff of their lines. *)
Theorem loose_diff_equivalent_iff fs p1 p2 t1 t2 :
  fs p1 = Text t1 → fs p2 = Text t2 →
  let content1 := rstrip (translate_newlines t1) in
  let content2 := rstrip (translate_newlines t2) in
  (msg_equivalent ∈ output (loose_diff fs p1 p2) ↔ content1 = content2)
  ∧ (content1 = content2 →
     loose_diff fs p1 p2 = (banner p1 p2 ++ [msg_equivalent], inr ()))
  ∧ (content1 ≠ content2 →
     loose_diff fs p1 p2
     = (banner p1 p2 ++ msg_differs :: rendered_diff p1 p2 content1 content2,
        inr ())).
Proof.
  intros H1%read_Text H2%read_Text content1 content2.
  pose proof (loose_diff_unfold _ _ _ _ _ _ _ H1 H2) as Hld.
  fold content1 content2 in Hld. cbn [app] in Hld.
  assert (Heq : content1 = content2 →
    loose_diff fs p1 p2 = (banner p1 p2 ++ [msg_equivalent], inr ())).
  { intros Hc. rewrite Hld. by rewrite decide_True. }
  assert (Hne : content1 ≠ content2 →
    loose_diff fs p1 p2
    = (banner p1 p2 ++ msg_differs :: rendered_diff p1 p2 content1 content2,
       inr ())).
  { intros Hc. rewrite Hld. by rewrite decide_False. }
  split; [|done]. split.
  - intros Hin. destruct (decide (content1 = content2)) as [|Hc]; [done|].
    exfalso. rewrite (Hne Hc) in Hin. unfold output in Hin. cbn [fst] in Hin.
    apply elem_of_app in Hin as [Hin|Hin].
    + apply banner_first in Hin. revert Hin.
      apply (not_starts_with _ 9989%N). compute_done.
    + apply elem_of_cons in Hin as [[=]|Hin].
      apply unified_diff_first in Hin. revert Hin.
      apply (not_starts_with _ 9989%N). compute_done.
  - intros Hc. rewrite (Heq Hc). unfold output. cbn [fst].
    apply elem_of_app. right. apply list_elem_of_here.
Qed.

Lemma loose_diff_equivalent_iff_witness :
  example_fs (lit "c.txt") = Text (lit "line1" ++ [LF] ++ lit "line2" ++ [LF; LF; LF])
  ∧ example_fs (lit "d.txt") = Text (lit "line1" ++ [LF] ++ lit "line2")
  ∧ loose_diff example_fs (lit "c.txt") (lit "d.txt")
    = (banner (lit "c.txt") (lit "d.txt") ++ [msg_equivalent], inr ()).
Proof.
  split; [reflexivity|]. split; [reflexivity|].
  destruct (loose_diff_equivalent_iff example_fs (lit "c.txt") (lit "d.txt") _ _
              eq_refl eq_refl) as (_ & Heq & _).
  apply Heq. vm_compute. reflexivity.
Defined.

(** C2: whitespace appended to a content does not change its normalization:
    [rstrip (C ++ W) = rstrip C] for every [W] made of whitespace only; the
    loader then returns the same content for a file holding [C ++ W] as for
    one holding [C]. *)
Theorem rstrip_ignores_appended_whitespace (C W : str) :
  all_space W →
  rstrip (C ++ W) = rstrip C
  ∧ ∀ fs p q, fs p = Text (C ++ W) → fs q = Text C →
      read_file_content_loosely fs p = read_file_content_loosely fs q.
Proof.
  intros HW. split; [by apply rstrip_app_spaces|].
  intros fs p q Hp%read_Text Hq%read_Text. rewrite Hp, Hq.
  destruct (translate_newlines_app_space C W HW) as (W' & HW' & ->).
  by rewrite rstrip_app_spaces.
Qed.

Lemma rstrip_ignores_appended_whitespace_witness :
  all_space [LF; LF; LF]
  ∧ rstrip ((lit "line1" ++ [LF] ++ lit "line2") ++ [LF; LF; LF])
    = rstrip (lit "line1" ++ [LF] ++ lit "line2").
Proof.
  assert (HW : all_space [LF; LF; LF]) by (repeat constructor).
  split; [exact HW|].
  exact (proj1 (rstrip_ignores_appended_whitespace
                  (lit "line1" ++ [LF] ++ lit "line2") [LF; LF; LF] HW)).
Defined.

(** C3: the normalized result is a prefix of the content, identical to it
    up to and including every character that is not whitespace (so up to the
    last one); a content with no trailing whitespace is returned unchanged. *)
Theorem rstrip_keeps_content (C : str) :
  rstrip C `prefix_of` C
  ∧ (∀ i c, C !! i = Some c → isspace c = false →
       take (S i) (rstrip C) = take (S i) C)
  ∧ (no_trailing_space C → rstrip C = C).
Proof.
  split; [apply rstrip_prefix|]. split; [|apply rstrip_id].
  intros i c Hi Hc.
  destruct (rstrip_split C) as (w & HC & Hw).
  assert (i < length (rstrip C))%nat as Hlt.
  { destruct (decide (i < length (rstrip C))%nat) as [|Hge]; [done|]. exfalso.
    rewrite HC in Hi. rewrite lookup_app_r in Hi by lia.
    unfold all_space in Hw. rewrite Forall_lookup in Hw.
    specialize (Hw _ _ Hi). congruence. }
  rewrite HC at 2. rewrite take_app_le by lia. done.
Qed.

Lemma rstrip_keeps_content_witness :
  no_trailing_space (lit "a b") ∧ rstrip (lit "a b") = lit "a b".
Proof.
  assert (Hn : no_trailing_space (lit "a b")).
  { intros c [= <-]. reflexivity. }
  split; [exact Hn|].
  exact (proj2 (proj2 (rstrip_keeps_content (lit "a b"))) Hn).
Defined.

(** C10: normalization is idempotent, and every content the loader returns
    has no trailing whitespace. *)
Theorem rstrip_idempotent (C : str) :
  rstrip (rstrip C) = rstrip C
  ∧ no_trailing_space (rstrip C)
  ∧ ∀ fs p out s,
      read_file_content_loosely fs p = (out, inr (Some s)) →
      no_trailing_space s ∧ rstrip s = s.
Proof.
  assert (Hlast : ∀ s, no_trailing_space (rstrip s)).
  { intros s c. apply rstrip_last. }
  split; [apply rstrip_id, Hlast|]. split; [apply Hlast|].
  intros fs p out s Hread.
  destruct (read_cases fs p) as [(t & _ & Hr)|(m & _ & Hr & _)];
    rewrite Hr in Hread; [|done].
  injection Hread as _ <-. split; [apply Hlast|apply rstrip_id, Hlast].
Qed.




(** C5: when at least one of the two loads fails, [loose_diff] returns
    having printed only the banner and the loader's error messages: no
    equivalence report, no "differs" warning, no diff line. *)
Theorem failed_load_stops_comparison fs p1 p2 :
  ((read_file_content_loosely fs p1).2 = inr None
   ∨ (read_file_content_loosely fs p2).2 = inr None) →
  loose_diff fs p1 p2
  = (banner p1 p2 ++ output (read_file_content_loosely fs p1)
       ++ output (read_file_content_loosely fs p2), inr ())
  ∧ Forall (starts_with_one_of [69%N])
      (output (read_file_content_loosely fs p1)
         ++ output (read_file_content_loosely fs p2))
  ∧ (msg_equivalent ∉ output (loose_diff fs p1 p2))
  ∧ (msg_differs ∉ output (loose_diff fs p1 p2)).
Proof.
  intros Hfail.
  assert (∀ p', ∃ o r, read_file_content_loosely fs p' = (o, inr r)
                       ∧ Forall (starts_with_one_of [69%N]) o) as Hr.
  { intros p'.
    destruct (read_cases fs p') as [(t & _ & ->)|(m & _ & -> & ?)];
      eexists _, _; (split; [done|]); by repeat constructor. }
  destruct (Hr p1) as (o1 & r1 & H1 & Ho1), (Hr p2) as (o2 & r2 & H2 & Ho2).
  rewrite (loose_diff_unfold _ _ _ _ _ _ _ H1 H2). rewrite H1, H2 in *.
  unfold output. cbn [fst snd] in *.
  assert (Hout : match r1, r2 with
                 | Some c1, Some c2 =>
                     if decide (c1 = c2) then [msg_equivalent]
                     else msg_differs :: rendered_diff p1 p2 c1 c2
                 | _, _ => []
                 end = []).
  { destruct Hfail as [[= ->]|[= ->]]; [done|by destruct r1]. }
  rewrite Hout, !app_nil_r.
  assert (Hall : Forall (starts_with_one_of [45; 32; 69]%N) (banner p1 p2 ++ o1 ++ o2)).
  { rewrite !Forall_app. split_and!.
    - apply Forall_forall. intros l Hl%banner_first.
      eapply starts_with_one_of_weaken; [done|sub_list].
    - eapply Forall_impl; [done|]. intros l Hl.
      eapply starts_with_one_of_weaken; [done|sub_list].
    - eapply Forall_impl; [done|]. intros l Hl.
      eapply starts_with_one_of_weaken; [done|sub_list]. }
  rewrite Forall_forall in Hall.
  split_and!; [done|by apply Forall_app| |].
  - intros Hin%Hall. revert Hin. apply (not_starts_with _ 9989%N). compute_done.
  - intros Hin%Hall. revert Hin. apply (not_starts_with _ 10%N). compute_done.
Qed.

Lemma failed_load_stops_comparison_witness :
  (read_file_content_loosely example_fs (lit "missing.txt")).2 = inr None
  ∧ loose_diff example_fs (lit "a.txt") (lit "missing.txt")
    = (banner (lit "a.txt") (lit "missing.txt")
         ++ [msg_not_found ++ lit "missing.txt" ++ lit "'"], inr ()).
Proof.
  split; [reflexivity|].
  exact (proj1 (failed_load_stops_comparison example_fs (lit "a.txt")
                  (lit "missing.txt") (or_intror eq_refl))).
Defined.




(** C8: before the diff, each normalized content is split into its lines by
    a line-boundary rule.  The characters up to the first boundary are a
    line, the boundary is dropped and what follows it is split in the same
    way; what follows the last boundary is a line unless it is empty, and an
    empty content has no line.  The line feed and the pair carriage return,
    line feed are boundaries, a pair being one boundary; so are the other
    characters [str.splitlines] knows.  No line holds a boundary character.
    The lines of a loaded content, joined again by line feeds, are that
    content, when the newlines of the file are line feeds and carriage
    returns. *)
Theorem splitlines_discards_separators :
  (∀ s line, line ∈ splitlines s →
     no_linebreak line ∧ (LF ∉ line) ∧ (CR ∉ line))
  ∧ splitlines [] = []
  ∧ (∀ line, no_linebreak line → line ≠ [] → splitlines line = [line])
  ∧ (∀ line rest, no_linebreak line →
       splitlines (line ++ LF :: rest) = line :: splitlines rest
       ∧ splitlines (line ++ CR :: LF :: rest) = line :: splitlines rest)
  ∧ (∀ line c rest, no_linebreak line → islinebreak c = true →
       ¬ (c = CR ∧ head rest = Some LF) →
       splitlines (line ++ c :: rest) = line :: splitlines rest)
  ∧ (∀ c, islinebreak c = true
          ↔ c ∈ [10; 11; 12; 13; 28; 29; 30; 133; 8232; 8233]%N)
  ∧ (∀ fs p t, fs p = Text t → standard_newlines t →
       let content := rstrip (translate_newlines t) in
       read_file_content_loosely fs p = ([], inr (Some content))
       ∧ join_lines (splitlines content) = content)
  ∧ (∀ fs p1 p2 t1 t2, fs p1 = Text t1 → fs p2 = Text t2 →
       let content1 := rstrip (translate_newlines t1) in
       let content2 := rstrip (translate_newlines t2) in
       content1 ≠ content2 →
       output (loose_diff fs p1 p2)
       = banner p1 p2 ++ msg_differs
           :: difflib.unified_diff (splitlines content1) (splitlines content2)
                (lit "a/" ++ p1) (lit "b/" ++ p2) [] [] 3 []).
Proof.
  split_and!.
  - intros s line Hline%splitlines_no_linebreak. split; [done|].
    unfold no_linebreak in Hline. rewrite Forall_forall in Hline.
    split; intros Hin%Hline; discriminate Hin.
  - reflexivity.
  - intros line Hline Hne. unfold splitlines.
    by rewrite splitlines_from_one.
  - intros line rest Hline. unfold splitlines.
    by rewrite splitlines_from_LF, splitlines_from_CRLF.
  - intros line c rest Hline Hc Hcr. unfold splitlines.
    by rewrite splitlines_from_boundary.
  - apply islinebreak_spec.
  - intros fs p t Hp Ht content. split; [by apply read_Text|].
    unfold splitlines. rewrite join_splitlines_from; [done| |].
    + by apply only_LF_rstrip, only_LF_translate.
    + apply no_trailing_LF. intros c. apply rstrip_last.
  - intros fs p1 p2 t1 t2 H1%read_Text H2%read_Text content1 content2 Hne.
    rewrite (loose_diff_unfold _ _ _ _ _ _ _ H1 H2).
    fold content1 content2. by rewrite decide_False.
Qed.

Lemma splitlines_discards_separators_witness :
  no_linebreak (lit "foo") ∧ lit "foo" ≠ []
  ∧ splitlines (lit "foo") = [lit "foo"]
  ∧ splitlines (lit "foo" ++ CR :: LF :: lit "bar")
    = lit "foo" :: splitlines (lit "bar")
  ∧ splitlines (lit "foo" ++ LF :: lit "bar") = [lit "foo"; lit "bar"].
Proof.
  assert (Hline : no_linebreak (lit "foo")) by (repeat constructor).
  assert (Hbar : no_linebreak (lit "bar")) by (repeat constructor).
  assert (Hne : lit "foo" ≠ []) by discriminate.
  assert (Hne' : lit "bar" ≠ []) by discriminate.
  pose proof splitlines_discards_separators
    as (_ & _ & Hone & Hsep & _).
  split; [exact Hline|]. split; [exact Hne|]. split; [exact (Hone _ Hline Hne)|].
  split; [exact (proj2 (Hsep (lit "foo") (lit "bar") Hline))|].
  rewrite (proj1 (Hsep (lit "foo") (lit "bar") Hline)).
  by rewrite (Hone _ Hbar Hne').
Defined.

(** C7: the code at an input where it departs from the claim.  The files
    "a\vb" and "a\nb" (a vertical tab against a line feed between the two
    lines) load to contents that differ, so the warning is printed; both
    contents split into the lines "a" and "b", the diff of equal line
    sequences is empty, and nothing follows the warning: no header, no range
    line, no line behind a prefix, where the claim, and the comment of the
    source before the warning, have a diff that shows what differs. *)
Theorem differing_contents_without_diff :
  example_fs (lit "vt.txt") = Text (lit "a" ++ [11%N] ++ lit "b")
  ∧ example_fs (lit "lf.txt") = Text (lit "a" ++ [LF] ++ lit "b")
  ∧ rstrip (translate_newlines (lit "a" ++ [11%N] ++ lit "b"))
    ≠ rstrip (translate_newlines (lit "a" ++ [LF] ++ lit "b"))
  ∧ splitlines (rstrip (translate_newlines (lit "a" ++ [11%N] ++ lit "b")))
    = [lit "a"; lit "b"]
  ∧ splitlines (rstrip (translate_newlines (lit "a" ++ [LF] ++ lit "b")))
    = [lit "a"; lit "b"]
  ∧ loose_diff example_fs (lit "vt.txt") (lit "lf.txt")
    = (banner (lit "vt.txt") (lit "lf.txt") ++ [msg_differs], inr ())
  ∧ (lit "--- a/vt.txt" ∉ output (loose_diff example_fs (lit "vt.txt") (lit "lf.txt"))).
Proof.
  split_and!; [reflexivity|reflexivity|compute_done|vm_compute; reflexivity
              |vm_compute; reflexivity|vm_compute; reflexivity|].
  compute_done.
Qed.

(** C9, as the claim states it, fails in its example: two files that differ
    only in "\r\n" against "\n" between lines load to the same content,
    because text-mode reading already returns "\n" for "\r\n"; they are
    reported equivalent and no warning is printed. *)
Lemma crlf_and_lf_files_equivalent :
  example_fs (lit "crlf.txt") = Text (lit "a" ++ [CR; LF] ++ lit "b")
  ∧ example_fs (lit "lf.txt") = Text (lit "a" ++ [LF] ++ lit "b")
  ∧ read_file_content_loosely example_fs (lit "crlf.txt")
    = read_file_content_loosely example_fs (lit "lf.txt")
  ∧ loose_diff example_fs (lit "crlf.txt") (lit "lf.txt")
    = (banner (lit "crlf.txt") (lit "lf.txt") ++ [msg_equivalent], inr ())
  ∧ (msg_differs ∉ output (loose_diff example_fs (lit "crlf.txt") (lit "lf.txt"))).
Proof.
  split_and!; [reflexivity|reflexivity|vm_compute; reflexivity
              |vm_compute; reflexivity|compute_done].
Qed.

(** C9, amended: there are pairs of files that load to contents that differ
    as strings and yet split into the same lines, for example "a\vb"
    against "a\nb" (a vertical tab against a line feed between the lines);
    contents never differ in "\r\n" against "\n", since no loaded content
    holds a carriage return.  For every such pair [loose_diff] prints the
    "differs" warning and nothing after it. *)
Theorem differing_contents_same_lines :
  (∃ t1 t2,
     example_fs (lit "vt.txt") = Text t1 ∧ example_fs (lit "lf.txt") = Text t2
     ∧ rstrip (translate_newlines t1) ≠ rstrip (translate_newlines t2)
     ∧ splitlines (rstrip (translate_newlines t1))
       = splitlines (rstrip (translate_newlines t2)))
  ∧ (∀ fs p1 p2 t1 t2, fs p1 = Text t1 → fs p2 = Text t2 →
       let content1 := rstrip (translate_newlines t1) in
       let content2 := rstrip (translate_newlines t2) in
       content1 ≠ content2 → splitlines content1 = splitlines content2 →
       loose_diff fs p1 p2 = (banner p1 p2 ++ [msg_differs], inr ()))
  ∧ (∀ fs p out content,
       read_file_content_loosely fs p = (out, inr (Some content)) →
       CR ∉ content).
Proof.
  split_and!.
  - eexists _, _. split_and!; [reflexivity|reflexivity|compute_done|].
    vm_compute. reflexivity.
  - intros fs p1 p2 t1 t2 H1%read_Text H2%read_Text content1 content2 Hne Hlines.
    rewrite (loose_diff_unfold _ _ _ _ _ _ _ H1 H2).
    fold content1 content2. rewrite decide_False by done.
    unfold rendered_diff. rewrite Hlines. by rewrite unified_diff_identical.
  - intros fs p out content Hread.
    destruct (read_cases fs p) as [(t & _ & Hr)|(m & _ & Hr & _)];
      rewrite Hr in Hread; [|done].
    injection Hread as _ <-. intros Hin.
    apply (translate_newlines_no_CR t).
    eapply elem_of_prefix; [exact Hin|apply rstrip_prefix].
Qed.

Lemma differing_contents_same_lines_witness :
  example_fs (lit "vt.txt") = Text (lit "a" ++ [11%N] ++ lit "b")
  ∧ example_fs (lit "lf.txt") = Text (lit "a" ++ [LF] ++ lit "b")
  ∧ rstrip (translate_newlines (lit "a" ++ [11%N] ++ lit "b"))
    ≠ rstrip (translate_newlines (lit "a" ++ [LF] ++ lit "b"))
  ∧ splitlines (rstrip (translate_newlines (lit "a" ++ [11%N] ++ lit "b")))
    = splitlines (rstrip (translate_newlines (lit "a" ++ [LF] ++ lit "b")))
  ∧ loose_diff example_fs (lit "vt.txt") (lit "lf.txt")
    = (banner (lit "vt.txt") (lit "lf.txt") ++ [msg_differs], inr ()).
Proof.
  assert (Hne : rstrip (translate_newlines (lit "a" ++ [11%N] ++ lit "b"))
                ≠ rstrip (translate_newlines (lit "a" ++ [LF] ++ lit "b")))
    by compute_done.
  assert (Hlines :
    splitlines (rstrip (translate_newlines (lit "a" ++ [11%N] ++ lit "b")))
    = splitlines (rstrip (translate_newlines (lit "a" ++ [LF] ++ lit "b"))))
    by (vm_compute; reflexivity).
  split; [reflexivity|]. split; [reflexivity|]. split; [exact Hne|].
  split; [exact Hlines|].
  exact (proj1 (proj2 differing_contents_same_lines) example_fs
           (lit "vt.txt") (lit "lf.txt") _ _ eq_refl eq_refl Hne Hlines).
Defined.

End claims.

(** * Further properties of the program *)

(** ** Helper facts *)

Section more_facts.
Implicit Types (s t w : str) (fs : str → file) (p q : str).

Lemma rstrip_all_space w : all_space w → rstrip w = [].
Proof. intros Hw. by rewrite <- (app_nil_l w), rstrip_app_spaces. Qed.

Lemma rstrip_nil_all_space s : rstrip s = [] → all_space s.
Proof.
  intros Hs. destruct (rstrip_split s) as (w & Heq & Hw).
  rewrite Hs in Heq. by subst.
Qed.

Lemma rstrip_snoc s c : isspace c = false → rstrip (s ++ [c]) = s ++ [c].
Proof.
  intros Hc. apply rstrip_id. intros d. rewrite last_snoc. by intros [= <-].
Qed.

(** What [loose_diff] prints for two files that load. *)
Lemma loose_diff_Text fs p q t1 t2 :
  fs p = Text t1 → fs q = Text t2 →
  loose_diff fs p q
  = (banner p q
       ++ (if decide (rstrip (translate_newlines t1)
                      = rstrip (translate_newlines t2))
           then [msg_equivalent]
           else msg_differs
                  :: rendered_diff p q (rstrip (translate_newlines t1))
                       (rstrip (translate_newlines t2))),
     inr ()).
Proof.
  intros H1%read_Text H2%read_Text.
  by rewrite (loose_diff_unfold _ _ _ _ _ _ _ H1 H2).
Qed.

(** The equivalence report is printed only for two files that load to the
    same content. *)
Lemma reports_equivalent_inv fs p q :
  reports_equivalent fs p q →
  ∃ t1 t2, fs p = Text t1 ∧ fs q = Text t2
           ∧ rstrip (translate_newlines t1) = rstrip (translate_newlines t2).
Proof.
  unfold reports_equivalent.
  assert (Herr : ∀ m, starts_with_one_of [69%N] m → m ≠ msg_equivalent).
  { intros m Hm ->. revert Hm. apply (not_starts_with _ 9989%N). compute_done. }
  destruct (read_cases fs p) as [(t1 & Hp & H1)|(m1 & _ & H1 & Hm1)];
  destruct (read_cases fs q) as [(t2 & Hq & H2)|(m2 & _ & H2 & Hm2)];
    rewrite (loose_diff_unfold _ _ _ _ _ _ _ H1 H2);
    intros Hout%(f_equal fst); cbn [fst] in Hout;
    apply app_inv_head in Hout; cbn [app] in Hout.
  - destruct (decide _) as [Heq|Hne]; [eauto|]. by injection Hout.
  - injection Hout as Hout. by apply Herr in Hm2.
  - injection Hout as Hout. by apply Herr in Hm1.
  - discriminate Hout.
Qed.

Lemma reports_equivalent_Text fs p q t1 t2 :
  fs p = Text t1 → fs q = Text t2 →
  rstrip (translate_newlines t1) = rstrip (translate_newlines t2) →
  reports_equivalent fs p q.
Proof.
  intros Hp Hq Heq. unfold reports_equivalent.
  rewrite (loose_diff_Text _ _ _ _ _ Hp Hq). by rewrite decide_True.
Qed.

Lemma translate_newlines_to_crlf t :
  CR ∉ t → translate_newlines (to_crlf t) = t.
Proof.
  induction t as [|c t IH]; [done|]. intros [Hc Ht]%not_elem_of_cons. simpl.
  destruct (N.eqb_spec c LF) as [->|Hlf]; simpl.
  - by rewrite IH.
  - destruct (N.eqb_spec c CR); [done|]. by rewrite IH.
Qed.

End more_facts.

(** ** The loader, the normalization and the verdict *)

Section further_properties.
Implicit Types (s t w : str) (fs : str → file) (p q : str).

(** X1: the loader returns a content exactly for a file that can be read,
    and then prints nothing; for any other file it prints exactly one text,
    which starts with "Error: ", and returns [None]. *)
Theorem loader_outcome fs p :
  (∀ t, fs p = Text t →
     read_file_content_loosely fs p
     = ([], inr (Some (rstrip (translate_newlines t)))))
  ∧ ((∀ t, fs p ≠ Text t) →
     ∃ msg, read_file_content_loosely fs p = ([msg], inr None)
            ∧ lit "Error: " `prefix_of` msg)
  ∧ (∀ out content,
       read_file_content_loosely fs p = (out, inr (Some content)) →
       out = [] ∧ ∃ t, fs p = Text t ∧ content = rstrip (translate_newlines t)).
Proof.
  split_and!.
  - intros t. apply read_Text.
  - intros Hno. destruct (fs p) as [|e|t] eqn:Hp.
    + eexists. split; [by apply read_Missing|]. by eexists.
    + eexists. split; [by apply read_Unreadable|]. by eexists.
    + by destruct (Hno t).
  - intros out content Hread.
    destruct (read_cases fs p) as [(t & Hp & Hr)|(m & _ & Hr & _)];
      rewrite Hr in Hread; [|done].
    injection Hread as <- <-. eauto.
Qed.

Lemma loader_outcome_witness :
  (∀ t, example_fs (lit "missing.txt") ≠ Text t)
  ∧ ∃ msg, read_file_content_loosely example_fs (lit "missing.txt")
           = ([msg], inr None)
           ∧ lit "Error: " `prefix_of` msg.
Proof.
  assert (Hno : ∀ t, example_fs (lit "missing.txt") ≠ Text t)
    by (intros t; vm_compute; discriminate).
  split; [exact Hno|].
  exact (proj1 (proj2 (loader_outcome example_fs (lit "missing.txt"))) Hno).
Defined.

(** X2: normalization cuts the content right after its last character that
    is not whitespace and changes nothing before it: leading and internal
    whitespace stays. *)
Theorem rstrip_cuts_after_last_visible s c w :
  isspace c = false → all_space w → rstrip (s ++ c :: w) = s ++ [c].
Proof.
  intros Hc Hw. rewrite (cons_middle c s w), app_assoc.
  rewrite rstrip_app_spaces by done. by apply rstrip_snoc.
Qed.

Lemma rstrip_cuts_after_last_visible_witness :
  isspace 98%N = false ∧ all_space [32%N; LF]
  ∧ rstrip ([32%N; 97%N; 32%N] ++ 98%N :: [32%N; LF])
    = [32%N; 97%N; 32%N] ++ [98%N].
Proof.
  assert (Hw : all_space [32%N; LF]) by (repeat constructor).
  split; [reflexivity|]. split; [exact Hw|].
  exact (rstrip_cuts_after_last_visible [32%N; 97%N; 32%N] 98%N [32%N; LF]
           eq_refl Hw).
Defined.

(** X3: a content normalizes to the empty string exactly when it holds
    whitespace only; so any two files of whitespace only, the empty file
    included, are reported equivalent. *)
Theorem whitespace_only_files :
  (∀ s, rstrip s = [] ↔ all_space s)
  ∧ (∀ fs p q t1 t2, fs p = Text t1 → fs q = Text t2 →
       all_space t1 → all_space t2 → reports_equivalent fs p q).
Proof.
  split.
  - intros s. split; [apply rstrip_nil_all_space|apply rstrip_all_space].
  - intros fs p q t1 t2 Hp Hq H1 H2.
    eapply reports_equivalent_Text; [done|done|].
    by rewrite !rstrip_all_space by (by apply translate_newlines_all_space).
Qed.

(** X4: two files that load are reported equivalent exactly when the texts
    read from them are one common text followed, in each, by whitespace
    only. *)
Theorem equivalent_iff_common_text fs p q t1 t2 :
  fs p = Text t1 → fs q = Text t2 →
  reports_equivalent fs p q
  ↔ ∃ c w1 w2,
      translate_newlines t1 = c ++ w1 ∧ translate_newlines t2 = c ++ w2
      ∧ all_space w1 ∧ all_space w2.
Proof.
  intros Hp Hq. split.
  - intros (t1' & t2' & Hp' & Hq' & Heq)%reports_equivalent_inv.
    rewrite Hp in Hp'. rewrite Hq in Hq'. injection Hp' as <-. injection Hq' as <-.
    destruct (rstrip_split (translate_newlines t1)) as (w1 & H1 & Hw1).
    destruct (rstrip_split (translate_newlines t2)) as (w2 & H2 & Hw2).
    exists (rstrip (translate_newlines t1)), w1, w2.
    split_and!; [done|by rewrite Heq|done|done].
  - intros (c & w1 & w2 & H1 & H2 & Hw1 & Hw2).
    eapply reports_equivalent_Text; [done|done|].
    by rewrite H1, H2, !rstrip_app_spaces.
Qed.

Lemma equivalent_iff_common_text_witness :
  example_fs (lit "c.txt")
  = Text (lit "line1" ++ [LF] ++ lit "line2" ++ [LF; LF; LF])
  ∧ example_fs (lit "d.txt") = Text (lit "line1" ++ [LF] ++ lit "line2")
  ∧ reports_equivalent example_fs (lit "c.txt") (lit "d.txt").
Proof.
  split; [reflexivity|]. split; [reflexivity|].
  apply (equivalent_iff_common_text example_fs (lit "c.txt") (lit "d.txt")
           _ _ eq_refl eq_refl).
  exists (lit "line1" ++ [LF] ++ lit "line2"), [LF; LF; LF], [].
  split_and!; [reflexivity|reflexivity|by repeat constructor|constructor].
Defined.

(** X5: among the files that load, being reported equivalent is an
    equivalence relation: a file is equivalent to itself, the verdict does
    not depend on the order of the two paths, and it is transitive. *)
Theorem reports_equivalent_is_equivalence fs :
  (∀ p t, fs p = Text t → reports_equivalent fs p p)
  ∧ (∀ p q, reports_equivalent fs p q → reports_equivalent fs q p)
  ∧ (∀ p q r, reports_equivalent fs p q → reports_equivalent fs q r →
       reports_equivalent fs p r).
Proof.
  split_and!.
  - intros p t Hp. by eapply reports_equivalent_Text.
  - intros p q (t1 & t2 & Hp & Hq & Heq)%reports_equivalent_inv.
    by eapply reports_equivalent_Text.
  - intros p q r (t1 & t2 & Hp & Hq & Heq)%reports_equivalent_inv
      (t2' & t3 & Hq' & Hr & Heq')%reports_equivalent_inv.
    rewrite Hq in Hq'. injection Hq' as <-.
    eapply reports_equivalent_Text; [done|done|congruence].
Qed.

Lemma reports_equivalent_is_equivalence_witness :
  reports_equivalent example_fs (lit "c.txt") (lit "d.txt")
  ∧ reports_equivalent example_fs (lit "d.txt") (lit "c.txt").
Proof.
  assert (Hcd : reports_equivalent example_fs (lit "c.txt") (lit "d.txt"))
    by (vm_compute; reflexivity).
  split; [exact Hcd|].
  exact (proj1 (proj2 (reports_equivalent_is_equivalence example_fs)) _ _ Hcd).
Defined.

(** X6: the banner always comes first, and a failure to load the first file
    does not stop the second from being loaded: its error message, if it
    fails too, follows the first one. *)
Theorem second_file_loaded_after_failure fs p q :
  banner p q `prefix_of` output (loose_diff fs p q)
  ∧ ((∀ t, fs p ≠ Text t) →
     ∃ msg, read_file_content_loosely fs p = ([msg], inr None)
            ∧ output (loose_diff fs p q)
              = banner p q ++ msg :: output (read_file_content_loosely fs q)).
Proof.
  split.
  - destruct (read_cases fs p) as [(t1 & _ & H1)|(m1 & _ & H1 & _)];
    destruct (read_cases fs q) as [(t2 & _ & H2)|(m2 & _ & H2 & _)];
      rewrite (loose_diff_unfold _ _ _ _ _ _ _ H1 H2); by eexists.
  - intros Hno.
    destruct (read_cases fs p) as [(t1 & Hp & _)|(m1 & _ & H1 & _)];
      [by destruct (Hno t1)|].
    exists m1. split; [done|].
    destruct (read_cases fs q) as [(t2 & _ & H2)|(m2 & _ & H2 & _)];
      rewrite (loose_diff_unfold _ _ _ _ _ _ _ H1 H2), H2; done.
Qed.

Lemma second_file_loaded_after_failure_witness :
  (∀ t, example_fs (lit "x.txt") ≠ Text t)
  ∧ output (loose_diff example_fs (lit "x.txt") (lit "locked.txt"))
    = banner (lit "x.txt") (lit "locked.txt")
        ++ [msg_not_found ++ lit "x.txt" ++ lit "'";
            msg_read_error ++ lit "locked.txt" ++ lit "': "
              ++ lit "Permission denied"].
Proof.
  assert (Hno : ∀ t, example_fs (lit "x.txt") ≠ Text t)
    by (intros t; vm_compute; discriminate).
  split; [exact Hno|].
  destruct (proj2 (second_file_loaded_after_failure example_fs (lit "x.txt")
                     (lit "locked.txt")) Hno) as (msg & Hread & Hout).
  rewrite Hout. injection Hread as <-. reflexivity.
Defined.

(** X7: whitespace at the end of either file changes nothing of what is
    printed, the diff included. *)
Theorem output_ignores_trailing_whitespace fs fs' p q c1 c2 w1 w2 :
  all_space w1 → all_space w2 →
  fs p = Text (c1 ++ w1) → fs q = Text (c2 ++ w2) →
  fs' p = Text c1 → fs' q = Text c2 →
  loose_diff fs p q = loose_diff fs' p q.
Proof.
  intros Hw1 Hw2 Hp Hq Hp' Hq'.
  rewrite (loose_diff_Text _ _ _ _ _ Hp Hq), (loose_diff_Text _ _ _ _ _ Hp' Hq').
  destruct (translate_newlines_app_space c1 w1 Hw1) as (w1' & Hw1' & ->).
  destruct (translate_newlines_app_space c2 w2 Hw2) as (w2' & Hw2' & ->).
  by rewrite !rstrip_app_spaces.
Qed.

Lemma output_ignores_trailing_whitespace_witness :
  all_space [LF; LF; LF] ∧ all_space []
  ∧ loose_diff example_fs (lit "c.txt") (lit "d.txt")
    = loose_diff
        (λ p, if decide (p = lit "c.txt")
              then Text (lit "line1" ++ [LF] ++ lit "line2")
              else example_fs p)
        (lit "c.txt") (lit "d.txt").
Proof.
  assert (Hw1 : all_space [LF; LF; LF]) by (repeat constructor).
  assert (Hw2 : all_space []) by constructor.
  split; [exact Hw1|]. split; [exact Hw2|].
  exact (output_ignores_trailing_whitespace example_fs _
           (lit "c.txt") (lit "d.txt")
           (lit "line1" ++ [LF] ++ lit "line2") (lit "line1" ++ [LF] ++ lit "line2")
           [LF; LF; LF] [] Hw1 Hw2 eq_refl eq_refl eq_refl eq_refl).
Defined.

(** X8: the convention of the line ends does not matter: a file and its
    copy with every line feed written as carriage return, line feed are
    read as the same text and reported equivalent. *)
Theorem crlf_copy_equivalent fs p q t :
  CR ∉ t → fs p = Text t → fs q = Text (to_crlf t) →
  translate_newlines (to_crlf t) = t ∧ reports_equivalent fs p q.
Proof.
  intros Ht Hp Hq. split; [by apply translate_newlines_to_crlf|].
  eapply reports_equivalent_Text; [done|done|].
  by rewrite translate_newlines_to_crlf, translate_newlines_id.
Qed.

Lemma crlf_copy_equivalent_witness :
  (CR ∉ lit "a" ++ [LF] ++ lit "b")
  ∧ example_fs (lit "lf.txt") = Text (lit "a" ++ [LF] ++ lit "b")
  ∧ example_fs (lit "crlf.txt") = Text (to_crlf (lit "a" ++ [LF] ++ lit "b"))
  ∧ reports_equivalent example_fs (lit "lf.txt") (lit "crlf.txt").
Proof.
  assert (Hcr : CR ∉ lit "a" ++ [LF] ++ lit "b") by compute_done.
  split; [exact Hcr|]. split; [reflexivity|]. split; [reflexivity|].
  exact (proj2 (crlf_copy_equivalent example_fs (lit "lf.txt") (lit "crlf.txt")
                  _ Hcr eq_refl eq_refl)).
Defined.

(** X9: splitting into lines and joining with line feeds are inverse of
    each other: a text whose only line boundary is the line feed, and which
    does not end with one, is the join of its lines; lines without line
    boundary, the last of them not empty, are the lines of their join. *)
Theorem splitlines_join_round_trip :
  (∀ s, only_LF_breaks s → last s ≠ Some LF →
        join_lines (splitlines s) = s)
  ∧ (∀ lines, Forall no_linebreak lines → last lines ≠ Some [] →
        splitlines (join_lines lines) = lines).
Proof.
  split.
  - intros s Hs Hlast. unfold splitlines. by rewrite join_splitlines_from.
  - intros lines. induction lines as [|line lines IH]; [done|].
    intros [Hline Hlines]%Forall_cons Hlast.
    destruct lines as [|line' lines].
    + simpl. unfold splitlines. rewrite splitlines_from_one; [done|done|].
      simpl. intros ->. by apply Hlast.
    + change (join_lines (line :: line' :: lines))
        with (line ++ LF :: join_lines (line' :: lines)).
      unfold splitlines. rewrite splitlines_from_LF by done.
      simpl reverse. rewrite app_nil_l. f_equal. apply IH; [done|].
      by rewrite last_cons_cons in Hlast.
Qed.

Lemma splitlines_join_round_trip_witness :
  only_LF_breaks (lit "a" ++ [LF; LF] ++ lit "b")
  ∧ last (lit "a" ++ [LF; LF] ++ lit "b") ≠ Some LF
  ∧ join_lines (splitlines (lit "a" ++ [LF; LF] ++ lit "b"))
    = lit "a" ++ [LF; LF] ++ lit "b".
Proof.
  assert (Hs : only_LF_breaks (lit "a" ++ [LF; LF] ++ lit "b"))
    by compute_done.
  assert (Hlast : last (lit "a" ++ [LF; LF] ++ lit "b") ≠ Some LF)
    by (intros Heq; discriminate Heq).
  split; [exact Hs|]. split; [exact Hlast|].
  exact (proj1 splitlines_join_round_trip _ Hs Hlast).
Defined.

(** X10: for files whose only line boundaries are line feeds and carriage
    returns, contents that differ always have lines that differ: the
    warning is always followed by the two headers and a first range line. *)
Theorem standard_newlines_always_diff fs p q t1 t2 :
  fs p = Text t1 → fs q = Text t2 →
  standard_newlines t1 → standard_newlines t2 →
  rstrip (translate_newlines t1) ≠ rstrip (translate_newlines t2) →
  splitlines (rstrip (translate_newlines t1))
  ≠ splitlines (rstrip (translate_newlines t2))
  ∧ ∃ l ls,
      loose_diff fs p q
      = (banner p q ++ msg_differs
           :: (lit "--- " ++ lit "a/" ++ p)
           :: (lit "+++ " ++ lit "b/" ++ q) :: l :: ls, inr ())
      ∧ range_line l.
Proof.
  intros Hp Hq H1 H2 Hne.
  assert (Hjoin : ∀ t, standard_newlines t →
    join_lines (splitlines (rstrip (translate_newlines t)))
    = rstrip (translate_newlines t)).
  { intros t Ht. unfold splitlines. rewrite join_splitlines_from; [done| |].
    - by apply only_LF_rstrip, only_LF_translate.
    - apply no_trailing_LF. intros c. apply rstrip_last. }
  assert (Hlines : splitlines (rstrip (translate_newlines t1))
                   ≠ splitlines (rstrip (translate_newlines t2))).
  { intros Heq. apply Hne. rewrite <- (Hjoin t1), <- (Hjoin t2) by done.
    by rewrite Heq. }
  split; [done|].
  destruct (unified_diff_differ _ _ (lit "a/" ++ p) (lit "b/" ++ q) 3 Hlines)
    as (l & ls & Hdiff & Hl & _).
  exists l, ls. split; [|done].
  rewrite (loose_diff_Text _ _ _ _ _ Hp Hq), decide_False by done.
  unfold rendered_diff. by rewrite Hdiff.
Qed.

Lemma standard_newlines_always_diff_witness :
  standard_newlines (lit "foo" ++ [LF] ++ lit "bar" ++ [LF])
  ∧ standard_newlines (lit "foo" ++ [LF] ++ lit "baz" ++ [LF])
  ∧ splitlines (rstrip (translate_newlines (lit "foo" ++ [LF] ++ lit "bar" ++ [LF])))
    ≠ splitlines (rstrip (translate_newlines (lit "foo" ++ [LF] ++ lit "baz" ++ [LF]))).
Proof.
  assert (H1 : standard_newlines (lit "foo" ++ [LF] ++ lit "bar" ++ [LF]))
    by compute_done.
  assert (H2 : standard_newlines (lit "foo" ++ [LF] ++ lit "baz" ++ [LF]))
    by compute_done.
  split; [exact H1|]. split; [exact H2|].
  exact (proj1 (standard_newlines_always_diff example_fs (lit "a.txt")
                  (lit "b.txt") _ _ eq_refl eq_refl H1 H2 ltac:(compute_done))).
Defined.

End further_properties.

(** ** The sequence matcher behind the diff *)

Section opcode_facts.
Context {A : Type} {eq_dec : EqDecision A} {countable : Countable A}.
Variables a b : list A.
Local Abbreviation self := (difflib.new a b).
Local Abbreviation whole := (block_in a b 0 (len a) 0 (len b)).

Lemma take_slice {X} (l : list X) i j :
  0 ≤ i ≤ j → take (Z.to_nat i) l ++ slice l i j = take (Z.to_nat j) l.
Proof.
  intros Hij. unfold slice.
  rewrite <- (take_drop (Z.to_nat i) (take (Z.to_nat j) l)) at 2.
  rewrite take_take. by replace (Z.to_nat i `min` Z.to_nat j)%nat with (Z.to_nat i) by lia.
Qed.

(** The two ranges of a block hold the same elements. *)
Lemma block_slices i j k :
  whole (i, j, k) → slice a i (i + k) = slice b j (j + k).
Proof.
  intros (Hi & _ & Hj & _ & Hk & Heq). simpl in *. unfold slice.
  apply list_eq. intros n. rewrite !lookup_drop, !lookup_take.
  destruct (decide (Z.of_nat n < k)) as [Hn|Hn].
  - rewrite !decide_True by lia.
    destruct (Heq (Z.of_nat n)) as (x & Ha & Hb); [lia|].
    unfold getitem in Ha, Hb.
    rewrite decide_True in Ha by lia. rewrite decide_True in Hb by lia.
    replace (Z.to_nat (i + Z.of_nat n)) with (Z.to_nat i + n)%nat in Ha by lia.
    replace (Z.to_nat (j + Z.of_nat n)) with (Z.to_nat j + n)%nat in Hb by lia.
    by rewrite Ha, Hb.
  - rewrite !decide_False by lia. done.
Qed.

Lemma apply_opcodes_snoc codes tag i1 i2 j1 j2 :
  apply_opcodes a b (codes ++ [(tag, i1, i2, j1, j2)])
  = apply_opcodes a b codes
      ++ match tag with
         | difflib.Equal => slice a i1 i2
         | difflib.Delete => []
         | difflib.Replace | difflib.Insert => slice b j1 j2
         end.
Proof.
  unfold apply_opcodes. rewrite fmap_app, join_app. simpl. by rewrite app_nil_r.
Qed.

Lemma consumed_by_opcodes_snoc codes tag i1 i2 j1 j2 :
  consumed_by_opcodes a (codes ++ [(tag, i1, i2, j1, j2)])
  = consumed_by_opcodes a codes
      ++ match tag with
         | difflib.Insert => []
         | _ => slice a i1 i2
         end.
Proof.
  unfold consumed_by_opcodes. rewrite fmap_app, join_app. simpl.
  by rewrite app_nil_r.
Qed.

(** Along the loop of [get_opcodes], the opcodes so far turn the part of
    [a] before [i] into the part of [b] before [j]. *)
Lemma opcodes_fold_apply ms : ∀ i j answer,
  chain ms → Forall whole ms →
  Forall (λ m, i ≤ m.1.1 ∧ j ≤ m.1.2) ms →
  0 ≤ i → 0 ≤ j →
  apply_opcodes a b answer = take (Z.to_nat j) b →
  consumed_by_opcodes a answer = take (Z.to_nat i) a →
  let r := foldl difflib.opcode_step (i, j, answer) ms in
  apply_opcodes a b r.2 = take (Z.to_nat r.1.2) b
  ∧ consumed_by_opcodes a r.2 = take (Z.to_nat r.1.1) a.
Proof.
  induction ms as [|[[ai bj] size] ms IH];
    intros i j answer Hchain Hwhole Hle Hi Hj Happly Hcons.
  { done. }
  apply StronglySorted_cons in Hchain as [Hnext Hchain].
  apply Forall_cons in Hwhole as [Hm Hwhole].
  apply Forall_cons in Hle as [[Hai Hbj] _]. simpl in Hai, Hbj.
  pose proof (block_slices _ _ _ Hm) as Hslices.
  destruct Hm as (_ & _ & _ & _ & Hsize & _). simpl in Hsize.
  assert (Hnext' : Forall (λ m, ai + size ≤ m.1.1 ∧ bj + size ≤ m.1.2) ms).
  { eapply Forall_impl; [exact Hnext|]. intros [[i' j'] k'].
    unfold before, window_of. simpl. lia. }
  cbn [foldl difflib.opcode_step].
  match goal with |- context [foldl _ (_, _, ?ans) ms] =>
    assert (apply_opcodes a b ans = take (Z.to_nat (bj + size)) b
            ∧ consumed_by_opcodes a ans = take (Z.to_nat (ai + size)) a)
      as [Happly' Hcons']
  end.
  { assert (Hb1 : take (Z.to_nat j) b ++ slice b j bj = take (Z.to_nat bj) b)
      by (apply take_slice; lia).
    assert (Ha1 : take (Z.to_nat i) a ++ slice a i ai = take (Z.to_nat ai) a)
      by (apply take_slice; lia).
    assert (Hb2 : take (Z.to_nat bj) b ++ slice b bj (bj + size)
                  = take (Z.to_nat (bj + size)) b) by (apply take_slice; lia).
    assert (Ha2 : take (Z.to_nat ai) a ++ slice a ai (ai + size)
                  = take (Z.to_nat (ai + size)) a) by (apply take_slice; lia).
    repeat case_decide; subst;
      rewrite ?apply_opcodes_snoc, ?consumed_by_opcodes_snoc, ?Happly, ?Hcons,
        ?app_nil_r, ?Z.add_0_r;
      try replace i with ai by lia; try replace j with bj by lia;
      rewrite ?Hb1, ?Ha1, ?Hslices, ?Hb2, <- ?Hslices, ?Ha2; done. }
  apply IH; (done || lia).
Qed.

(** A part of a block, taken at the same offset in both sequences. *)
Lemma block_in_sub i j k d k' :
  whole (i, j, k) → 0 ≤ d → 0 ≤ k' → d + k' ≤ k → whole (i + d, j + d, k').
Proof.
  unfold block_in. simpl. intros (? & ? & ? & ? & ? & Heq) ???.
  split_and!; try lia. intros t Ht.
  rewrite <- !Z.add_assoc. apply Heq. lia.
Qed.

Lemma equal_code_ok_changed c :
  difflib.is_equal c = false → equal_code_ok a b c.
Proof.
  unfold difflib.is_equal, equal_code_ok. intros Hc Htag.
  by rewrite bool_decide_eq_true_2 in Hc.
Qed.

Lemma equal_code_ok_sub i1 i2 j1 j2 i1' i2' j1' j2' :
  equal_code_ok a b (difflib.Equal, i1, i2, j1, j2) →
  i1 ≤ i1' → i1' ≤ i2' → i2' ≤ i2 →
  j1' = j1 + (i1' - i1) → j2' = j1' + (i2' - i1') →
  equal_code_ok a b (difflib.Equal, i1', i2', j1', j2').
Proof.
  unfold equal_code_ok. simpl. intros Hok ??? -> -> _.
  destruct (Hok eq_refl) as [Hblock Hlen]. split; [|lia].
  replace i1' with (i1 + (i1' - i1)) at 1 by lia.
  eapply block_in_sub; [exact Hblock|lia..].
Qed.

Lemma equal_code_ok_trim_leading n c :
  0 ≤ n → equal_code_ok a b c → equal_code_ok a b (difflib.trim_leading n c).
Proof.
  intros Hn Hok. destruct c as [[[[tag i1] i2] j1] j2]. unfold difflib.trim_leading.
  destruct (decide (tag = difflib.Equal)) as [->|]; [|done].
  destruct (Hok eq_refl) as [(_ & _ & _ & _ & ? & _) ?]. simpl in *.
  eapply equal_code_ok_sub; [exact Hok|lia..].
Qed.

Lemma equal_code_ok_trim_trailing n c :
  0 ≤ n → equal_code_ok a b c → equal_code_ok a b (difflib.trim_trailing n c).
Proof.
  intros Hn Hok. destruct c as [[[[tag i1] i2] j1] j2]. unfold difflib.trim_trailing.
  destruct (decide (tag = difflib.Equal)) as [->|]; [|done].
  destruct (Hok eq_refl) as [(_ & _ & _ & _ & ? & _) ?]. simpl in *.
  eapply equal_code_ok_sub; [exact Hok|lia..].
Qed.

(** Every [Equal] opcode of [get_opcodes] covers a matching block. *)
Lemma opcodes_fold_ok ms : ∀ i j answer,
  Forall whole ms → Forall (equal_code_ok a b) answer →
  Forall (equal_code_ok a b) (foldl difflib.opcode_step (i, j, answer) ms).2.
Proof.
  induction ms as [|[[ai bj] size] ms IH]; intros i j answer Hwhole Hans; [done|].
  apply Forall_cons in Hwhole as [Hm Hwhole].
  cbn [foldl difflib.opcode_step]. apply IH; [done|].
  assert (Hequal : equal_code_ok a b (difflib.Equal, ai, ai + size, bj, bj + size)).
  { intros _. simpl. replace (ai + size - ai) with size by lia.
    split; [done|lia]. }
  repeat case_decide; rewrite ?Forall_app, ?Forall_singleton;
    split_and?; try done; by apply equal_code_ok_changed.
Qed.

Lemma get_opcodes_ok : Forall (equal_code_ok a b) (difflib.get_opcodes self).
Proof.
  unfold difflib.get_opcodes. apply opcodes_fold_ok; [|constructor].
  apply get_matching_blocks_chain.
Qed.

Lemma group_fold_ok n codes : ∀ group yielded,
  0 ≤ n → Forall (equal_code_ok a b) codes →
  Forall (equal_code_ok a b) group →
  Forall (Forall (equal_code_ok a b)) yielded →
  let r := foldl (difflib.group_step n) (group, yielded) codes in
  Forall (equal_code_ok a b) r.1 ∧ Forall (Forall (equal_code_ok a b)) r.2.
Proof.
  induction codes as [|[[[[tag i1] i2] j1] j2] codes IH];
    intros group yielded Hn Hcodes Hgroup Hyielded; [done|].
  apply Forall_cons in Hcodes as [Hc Hcodes].
  cbn [foldl difflib.group_step].
  destruct (decide (tag = difflib.Equal ∧ n + n < i2 - i1)) as [[-> ?]|Hsmall].
  - destruct (Hc eq_refl) as [_ Hlen]. simpl in Hlen.
    apply IH; [done|done| |].
    + apply Forall_singleton. eapply equal_code_ok_sub; [exact Hc|lia..].
    + apply Forall_app. split; [done|]. apply Forall_singleton.
      apply Forall_app. split; [done|]. apply Forall_singleton.
      eapply equal_code_ok_sub; [exact Hc|lia..].
  - apply IH; [done|done| |done].
    apply Forall_app. split; [done|]. by apply Forall_singleton.
Qed.

(** In the groups too. *)
Lemma get_grouped_opcodes_ok :
  Forall (Forall (equal_code_ok a b)) (difflib.get_grouped_opcodes self 3).
Proof.
  unfold difflib.get_grouped_opcodes.
  pose proof get_opcodes_ok as Hok.
  destruct (difflib.get_opcodes self) as [|c codes] eqn:Hcodes.
  { simpl. constructor. }
  set (codes1 := alter (difflib.trim_leading 3) 0%nat (c :: codes)).
  set (codes2 := alter (difflib.trim_trailing 3) (pred (length codes1)) codes1).
  assert (Hok2 : Forall (equal_code_ok a b) codes2).
  { apply Forall_alter.
    - apply Forall_alter; [done|].
      intros x _. by apply equal_code_ok_trim_leading.
    - intros x _. by apply equal_code_ok_trim_trailing. }
  destruct (group_fold_ok 3 codes2 [] []) as [Hgroup Hyielded];
    [done|done|constructor|constructor|].
  destruct (foldl (difflib.group_step 3) ([], []) codes2) as [group yielded].
  simpl in Hgroup, Hyielded.
  assert (Forall (Forall (equal_code_ok a b)) (yielded ++ [group]))
    by (apply Forall_app; split; [done|by apply Forall_singleton]).
  destruct group as [|c' [|c'' group]]; [done| |done].
  by destruct (difflib.is_equal c').
Qed.

End opcode_facts.

(** A line shown as context is a line of both sequences. *)
Lemma hunk_context_line (a b : list str) group x :
  Forall (equal_code_ok a b) group →
  lit " " ++ x ∈ difflib.hunk a b [] group → x ∈ a ∧ x ∈ b.
Proof.
  intros Hok. unfold difflib.hunk.
  destruct (head group) as [first|]; [|by intros ?%elem_of_nil].
  destruct (last group) as [lst|]; [|by intros ?%elem_of_nil].
  intros [Heq|Hl]%elem_of_cons; [discriminate Heq|].
  apply list_elem_of_join in Hl as (ls & Hl & Hls).
  apply list_elem_of_fmap in Hls as ([[[[tag i1] i2] j1] j2] & -> & Hin).
  rewrite Forall_forall in Hok. specialize (Hok _ Hin).
  destruct tag.
  - apply elem_of_app in Hl as [Hl|Hl];
      apply list_elem_of_fmap in Hl as (y & Heq & _); discriminate Heq.
  - apply list_elem_of_fmap in Hl as (y & Heq & _). discriminate Heq.
  - apply list_elem_of_fmap in Hl as (y & Heq & _). discriminate Heq.
  - apply list_elem_of_fmap in Hl as (y & [= <-] & Hy).
    destruct (Hok eq_refl) as [Hblock _]. simpl in Hblock.
    split; [by eapply elem_of_slice|].
    apply block_slices in Hblock.
    replace (i1 + (i2 - i1)) with i2 in Hblock by lia.
    rewrite Hblock in Hy. by eapply elem_of_slice.
Qed.

(** ** The diff read as a patch *)

Section slices.
Context {X : Type}.
Implicit Types l : list X.

Lemma slice_alt l i j :
  i ≤ j → slice l i j = take (Z.to_nat j - Z.to_nat i) (drop (Z.to_nat i) l).
Proof.
  intros Hij. unfold slice. rewrite take_drop_commute. do 2 f_equal. lia.
Qed.

Lemma slice_app l i j k :
  i ≤ j → j ≤ k → slice l i j ++ slice l j k = slice l i k.
Proof.
  intros Hij Hjk. rewrite !slice_alt by lia.
  replace (drop (Z.to_nat j) l)
    with (drop (Z.to_nat j - Z.to_nat i) (drop (Z.to_nat i) l))
    by (rewrite drop_drop; f_equal; lia).
  rewrite take_take_drop. f_equal. lia.
Qed.

Lemma slice_nil l i : slice l i i = [].
Proof. rewrite slice_alt by lia. by rewrite Nat.sub_diag. Qed.

Lemma slice_len l i : slice l i (len l) = drop (Z.to_nat i) l.
Proof.
  unfold slice, len. by rewrite Nat2Z.id, firstn_all.
Qed.

Lemma slice_drop l i j :
  i ≤ j → slice l i j ++ drop (Z.to_nat j) l = drop (Z.to_nat i) l.
Proof.
  intros Hij. rewrite slice_alt by lia.
  replace (drop (Z.to_nat j) l)
    with (drop (Z.to_nat j - Z.to_nat i) (drop (Z.to_nat i) l))
    by (rewrite drop_drop; f_equal; lia).
  apply take_drop.
Qed.

End slices.

Section tiling.
Context {A : Type} {eq_dec : EqDecision A} {countable : Countable A}.
Variables a b : list A.
Local Abbreviation self := (difflib.new a b).
Local Abbreviation whole := (block_in a b 0 (len a) 0 (len b)).
Implicit Types (codes group : list (difflib.tag * Z * Z * Z * Z))
  (c : difflib.tag * Z * Z * Z * Z).

Lemma gap_refl i j : gap a b i j i j.
Proof. unfold gap. rewrite !slice_nil. split_and!; (done || lia). Qed.

Lemma gap_trans i j mi mj i' j' :
  gap a b i j mi mj → gap a b mi mj i' j' → gap a b i j i' j'.
Proof.
  intros (? & ? & Heq1) (? & ? & Heq2). split_and!; [lia|lia|].
  rewrite <- (slice_app a i mi i'), <- (slice_app b j mj j') by lia.
  by rewrite Heq1, Heq2.
Qed.

(** An [Equal] opcode spans a stretch where the sequences agree. *)
Lemma gap_equal i1 i2 j1 j2 :
  code_ok a b (difflib.Equal, i1, i2, j1, j2) → gap a b i1 j1 i2 j2.
Proof.
  intros (Hi & Hj & Hok & _). simpl in Hi, Hj.
  destruct (Hok eq_refl) as [Hblock Hlen]. simpl in Hblock, Hlen.
  split_and!; [done|done|].
  apply (block_slices a b) in Hblock.
  replace (i1 + (i2 - i1)) with i2 in Hblock by lia.
  replace (j1 + (i2 - i1)) with j2 in Hblock by lia. done.
Qed.

Lemma code_ok_changed tag i1 i2 j1 j2 :
  tag ≠ difflib.Equal → i1 ≤ i2 → j1 ≤ j2 →
  (tag = difflib.Delete → j1 = j2) → (tag = difflib.Insert → i1 = i2) →
  code_ok a b (tag, i1, i2, j1, j2).
Proof.
  intros Htag ????. split_and!; try done.
Qed.

Lemma code_ok_sub i1 i2 j1 j2 i1' i2' j1' j2' :
  code_ok a b (difflib.Equal, i1, i2, j1, j2) →
  i1 ≤ i1' → i1' ≤ i2' → i2' ≤ i2 →
  j1' = j1 + (i1' - i1) → j2' = j1' + (i2' - i1') →
  code_ok a b (difflib.Equal, i1', i2', j1', j2').
Proof.
  intros (? & ? & Hok & _) ?????. simpl in *.
  split_and!; simpl; [lia|lia| |done|done].
  eapply (equal_code_ok_sub a b); [exact Hok|done..].
Qed.

Lemma code_ok_lengths i1 i2 j1 j2 :
  code_ok a b (difflib.Equal, i1, i2, j1, j2) → i2 - i1 = j2 - j1.
Proof. intros (_ & _ & Hok & _). by destruct (Hok eq_refl). Qed.

Lemma tiles_app codes1 : ∀ codes2 i j i' j',
  tiles a b (codes1 ++ codes2) i j i' j'
  ↔ ∃ mi mj, tiles a b codes1 i j mi mj ∧ tiles a b codes2 mi mj i' j'.
Proof.
  induction codes1 as [|c codes1 IH]; intros codes2 i j i' j'; simpl.
  - split.
    + intros Ht. by exists i, j.
    + by intros (mi & mj & [-> ->] & Ht).
  - rewrite IH. split.
    + intros (? & ? & ? & mi & mj & ? & ?). by exists mi, mj.
    + intros (mi & mj & (? & ? & ? & ?) & ?). split_and!; try done.
      by exists mi, mj.
Qed.

Lemma tiles_snoc codes c i j mi mj :
  tiles a b codes i j mi mj → code_ok a b c →
  c.1.1.1.2 = mi → c.1.2 = mj →
  tiles a b (codes ++ [c]) i j c.1.1.2 c.2.
Proof.
  intros Ht Hc Hi Hj. apply tiles_app. exists mi, mj. split; [done|].
  simpl. done.
Qed.

Lemma tiles_le codes : ∀ i j i' j',
  tiles a b codes i j i' j' → i ≤ i' ∧ j ≤ j'.
Proof.
  induction codes as [|c codes IH]; intros i j i' j'; simpl.
  - intros [-> ->]. lia.
  - intros (<- & <- & (? & ? & _) & Ht%IH). lia.
Qed.

Lemma tiles_head_last codes i j i' j' :
  codes ≠ [] → tiles a b codes i j i' j' →
  ∃ first lst,
    head codes = Some first ∧ last codes = Some lst
    ∧ first.1.1.1.2 = i ∧ first.1.2 = j ∧ lst.1.1.2 = i' ∧ lst.2 = j'.
Proof.
  intros Hne Ht.
  assert (∃ first, head codes = Some first ∧ first.1.1.1.2 = i ∧ first.1.2 = j)
    as (first & Hhead & ? & ?).
  { destruct codes as [|first codes]; [done|].
    simpl in Ht. destruct Ht as (? & ? & _). by exists first. }
  destruct (exists_last Hne) as (init & lst & Heq).
  rewrite Heq in Ht. apply tiles_app in Ht as (mi & mj & _ & Hl).
  simpl in Hl. destruct Hl as (_ & _ & _ & <- & <-).
  exists first, lst. split_and!; try done.
  by rewrite Heq, last_snoc.
Qed.

(** The opcodes of [get_opcodes] follow each other from the start of the
    two sequences to their ends. *)
Lemma opcodes_fold_tiles ms : ∀ i j answer,
  chain ms → Forall whole ms →
  Forall (λ m, i ≤ m.1.1 ∧ j ≤ m.1.2) ms →
  tiles a b answer 0 0 i j →
  let r := foldl difflib.opcode_step (i, j, answer) ms in
  tiles a b r.2 0 0 r.1.1 r.1.2.
Proof.
  induction ms as [|[[ai bj] size] ms IH];
    intros i j answer Hchain Hwhole Hle Htiles.
  { done. }
  apply StronglySorted_cons in Hchain as [Hnext Hchain].
  apply Forall_cons in Hwhole as [Hm Hwhole].
  apply Forall_cons in Hle as [[Hai Hbj] _]. simpl in Hai, Hbj.
  assert (Hsize : 0 ≤ size) by (by destruct Hm as (_ & _ & _ & _ & ? & _)).
  assert (Hnext' : Forall (λ m, ai + size ≤ m.1.1 ∧ bj + size ≤ m.1.2) ms).
  { eapply Forall_impl; [exact Hnext|]. intros [[i' j'] k'].
    unfold before, window_of. simpl. lia. }
  assert (Hequal : code_ok a b (difflib.Equal, ai, ai + size, bj, bj + size)).
  { split_and!; simpl; try (done || lia). intros _. simpl.
    replace (ai + size - ai) with size by lia. split; [done|lia]. }
  cbn [foldl difflib.opcode_step].
  apply IH; [done|done|done|].
  assert (Hchange : ∀ tag, tag ≠ difflib.Equal →
            (tag = difflib.Delete → j = bj) → (tag = difflib.Insert → i = ai) →
            tiles a b (answer ++ [(tag, i, ai, j, bj)]) 0 0 ai bj).
  { intros tag ???.
    apply (tiles_snoc answer (tag, i, ai, j, bj) 0 0 i j);
      first [done|by apply code_ok_changed]. }
  assert (Hblock : ∀ codes, tiles a b codes 0 0 ai bj →
            tiles a b (codes ++ [(difflib.Equal, ai, ai + size, bj, bj + size)])
              0 0 (ai + size) (bj + size)).
  { intros codes Hcodes.
    by apply (tiles_snoc codes (difflib.Equal, ai, ai + size, bj, bj + size)
                0 0 ai bj). }
  assert (Hstay : i = ai → j = bj → tiles a b answer 0 0 ai bj)
    by (by intros <- <-).
  repeat case_decide; subst; rewrite ?Z.add_0_r;
    first [apply Hblock|idtac];
    first [apply Hchange; (done || lia) | apply Hstay; lia].
Qed.

Lemma get_opcodes_tiles :
  tiles a b (difflib.get_opcodes self) 0 0 (len a) (len b).
Proof.
  destruct (get_matching_blocks_chain a b) as (Hchain & Hwhole & ms & Hms).
  unfold difflib.get_opcodes.
  pose proof (opcodes_fold_tiles _ 0 0 [] Hchain Hwhole) as Hfold.
  pose proof (opcodes_fold_end a b ms (0, 0, [])) as Hend.
  rewrite <- Hms in Hend. simpl in Hfold. rewrite Hend in Hfold. simpl in Hfold.
  rewrite !Z.add_0_r in Hfold. apply Hfold; [|done].
  eapply Forall_impl; [exact Hwhole|].
  intros [[i j] k] (? & _ & ? & _). simpl in *. lia.
Qed.

(** Trimming the first opcode leaves, before it, a stretch where the
    sequences agree; trimming the last one leaves such a stretch behind. *)
Lemma trim_leading_ok n c :
  0 ≤ n → code_ok a b c →
  let c' := difflib.trim_leading n c in
  code_ok a b c' ∧ c'.1.1.2 = c.1.1.2 ∧ c'.2 = c.2
  ∧ gap a b c.1.1.1.2 c.1.2 c'.1.1.1.2 c'.1.2.
Proof.
  intros Hn Hc. destruct c as [[[[tag i1] i2] j1] j2].
  unfold difflib.trim_leading.
  destruct (decide (tag = difflib.Equal)) as [->|];
    [|split_and!; [done..|apply gap_refl]].
  pose proof (code_ok_lengths _ _ _ _ Hc) as Hlen.
  destruct Hc as (Hi & Hj & Hc'). simpl in Hi, Hj.
  assert (Hc : code_ok a b (difflib.Equal, i1, i2, j1, j2)) by done.
  cbv zeta. split_and!; [|done|done|].
  - eapply code_ok_sub; [exact Hc|lia..].
  - apply gap_equal. eapply code_ok_sub; [exact Hc|simpl; lia..].
Qed.

Lemma trim_trailing_ok n c :
  0 ≤ n → code_ok a b c →
  let c' := difflib.trim_trailing n c in
  code_ok a b c' ∧ c'.1.1.1.2 = c.1.1.1.2 ∧ c'.1.2 = c.1.2
  ∧ gap a b c'.1.1.2 c'.2 c.1.1.2 c.2.
Proof.
  intros Hn Hc. destruct c as [[[[tag i1] i2] j1] j2].
  unfold difflib.trim_trailing.
  destruct (decide (tag = difflib.Equal)) as [->|];
    [|split_and!; [done..|apply gap_refl]].
  pose proof (code_ok_lengths _ _ _ _ Hc) as Hlen.
  destruct Hc as (Hi & Hj & Hc'). simpl in Hi, Hj.
  assert (Hc : code_ok a b (difflib.Equal, i1, i2, j1, j2)) by done.
  cbv zeta. split_and!; [|done|done|].
  - eapply code_ok_sub; [exact Hc|lia..].
  - apply gap_equal. eapply code_ok_sub; [exact Hc|simpl; lia..].
Qed.

Lemma tiles_trim n codes i j i' j' :
  0 ≤ n → codes ≠ [] → tiles a b codes i j i' j' →
  let codes1 := alter (difflib.trim_leading n) 0%nat codes in
  let codes2 :=
    alter (difflib.trim_trailing n) (pred (length codes1)) codes1 in
  ∃ si sj ei ej,
    gap a b i j si sj ∧ tiles a b codes2 si sj ei ej ∧ gap a b ei ej i' j'.
Proof.
  intros Hn Hne Ht codes1 codes2.
  assert (∃ si sj, gap a b i j si sj ∧ tiles a b codes1 si sj i' j'
                   ∧ codes1 ≠ [])
    as (si & sj & Hgap1 & Ht1 & Hne1).
  { subst codes1. destruct codes as [|c codes]; [done|].
    simpl in Ht. destruct Ht as (<- & <- & Hc & Ht).
    destruct (trim_leading_ok n c Hn Hc) as (Hc' & Hi2 & Hj2 & Hgap).
    eexists _, _. split; [exact Hgap|]. split; [|done].
    simpl. rewrite Hi2, Hj2. done. }
  exists si, sj. subst codes2. clearbody codes1. clear codes Hne Ht.
  destruct (exists_last Hne1) as (init & lst & ->).
  apply tiles_app in Ht1 as (mi & mj & Hinit & Hlst).
  simpl in Hlst. destruct Hlst as (Hi & Hj & Hc & <- & <-).
  destruct (trim_trailing_ok n lst Hn Hc) as (Hc' & Hi1 & Hj1 & Hgap).
  replace (pred (length (init ++ [lst]))) with (length init + 0)%nat
    by (rewrite length_app; simpl; lia).
  rewrite alter_app_r. simpl.
  eexists _, _. split; [done|]. split; [|exact Hgap].
  apply tiles_app. exists mi, mj. split; [done|]. simpl.
  rewrite Hi1, Hj1. done.
Qed.

Lemma separated_gap groups : ∀ i j i' j' i'' j'',
  separated a b groups i j i' j' → gap a b i' j' i'' j'' →
  separated a b groups i j i'' j''.
Proof.
  induction groups as [|g groups IH]; intros i j i' j' i'' j''; simpl.
  - apply gap_trans.
  - intros (gi & gj & gi' & gj' & ? & ? & ? & Hs) Hgap.
    exists gi, gj, gi', gj'. split_and!; try done. by eapply IH.
Qed.

Lemma separated_snoc groups : ∀ g i j si sj gi' gj' i' j',
  separated a b groups i j si sj → g ≠ [] → tiles a b g si sj gi' gj' →
  gap a b gi' gj' i' j' →
  separated a b (groups ++ [g]) i j i' j'.
Proof.
  induction groups as [|g0 groups IH]; intros g i j si sj gi' gj' i' j'; simpl.
  - intros Hgap Hne Ht Hgap'. by exists si, sj, gi', gj'.
  - intros (gi0 & gj0 & gi0' & gj0' & ? & ? & ? & Hs) Hne Ht Hgap.
    exists gi0, gj0, gi0', gj0'. split_and!; try done. by eapply IH.
Qed.

(** The grouping loop: the groups yielded so far alternate with stretches
    where the sequences agree, and the open group starts after the last
    such stretch. *)
Lemma group_fold_separated n codes : ∀ group yielded si sj pi pj ei ej,
  0 ≤ n → separated a b yielded 0 0 si sj →
  tiles a b group si sj pi pj → tiles a b codes pi pj ei ej →
  let r := foldl (difflib.group_step n) (group, yielded) codes in
  ∃ si' sj', separated a b r.2 0 0 si' sj' ∧ tiles a b r.1 si' sj' ei ej.
Proof.
  induction codes as [|[[[[tag i1] i2] j1] j2] codes IH];
    intros group yielded si sj pi pj ei ej Hn Hsep Hgroup Hcodes.
  { simpl in *. destruct Hcodes as [<- <-]. by exists si, sj. }
  simpl in Hcodes. destruct Hcodes as (<- & <- & Hc & Hcodes).
  cbn [foldl difflib.group_step].
  destruct (decide (tag = difflib.Equal ∧ n + n < i2 - i1)) as [[-> Hlong]|Hsmall].
  - pose proof (code_ok_lengths _ _ _ _ Hc) as Hlen.
    assert (Hclose : code_ok a b
              (difflib.Equal, i1, i2 `min` (i1 + n), j1, j2 `min` (j1 + n))).
    { eapply code_ok_sub; [exact Hc|lia..]. }
    assert (Hmid : code_ok a b
              (difflib.Equal, i2 `min` (i1 + n), i1 `max` (i2 - n),
               j2 `min` (j1 + n), j1 `max` (j2 - n))).
    { eapply code_ok_sub; [exact Hc|lia..]. }
    assert (Hopen : code_ok a b
              (difflib.Equal, i1 `max` (i2 - n), i2, j1 `max` (j2 - n), j2)).
    { eapply code_ok_sub; [exact Hc|lia..]. }
    eapply (IH _ _ (i1 `max` (i2 - n)) (j1 `max` (j2 - n))); [done| | |exact Hcodes].
    + eapply separated_snoc; [exact Hsep|apply snoc_ne_nil| |].
      * eapply (tiles_snoc group _ si sj); [exact Hgroup|exact Hclose|done|done].
      * simpl. by apply gap_equal.
    + simpl. done.
  - eapply IH; [done|exact Hsep| |exact Hcodes].
    by eapply (tiles_snoc group (tag, i1, i2, j1, j2) si sj).
Qed.

(** The groups of [get_grouped_opcodes] alternate with stretches where the
    two sequences agree, from their start to their ends. *)
Lemma get_grouped_opcodes_separated n :
  0 ≤ n →
  separated a b (difflib.get_grouped_opcodes self n) 0 0 (len a) (len b).
Proof.
  intros Hn. unfold difflib.get_grouped_opcodes.
  pose proof get_opcodes_tiles as Ht.
  destruct (difflib.get_opcodes self) as [|c codes] eqn:Hcodes.
  { simpl in Ht. destruct Ht as [<- <-].
    cbn. repeat (case_decide; cbn); destruct_and?;
      first [apply gap_refl|lia|done]. }
  destruct (tiles_trim n (c :: codes) _ _ _ _ Hn ltac:(done) Ht)
    as (si & sj & ei & ej & Hgap1 & Ht2 & Hgap2).
  set (codes1 := alter (difflib.trim_leading n) 0%nat (c :: codes)) in *.
  set (codes2 := alter (difflib.trim_trailing n) (pred (length codes1)) codes1) in *.
  destruct (group_fold_separated n codes2 [] [] si sj si sj ei ej)
    as (si' & sj' & Hsep & Hgroup); [done|exact Hgap1|done|exact Ht2|].
  destruct (foldl (difflib.group_step n) ([], []) codes2) as [group yielded].
  simpl in Hsep, Hgroup.
  assert (Hlast : group ≠ [] →
            separated a b (yielded ++ [group]) 0 0 (len a) (len b)).
  { intros Hne. by eapply separated_snoc. }
  destruct group as [|c' [|c'' group]].
  - simpl in Hgroup. destruct Hgroup as [-> ->]. by eapply separated_gap.
  - destruct (difflib.is_equal c') eqn:Hc'; [|by apply Hlast].
    destruct c' as [[[[tag i1] i2] j1] j2].
    unfold difflib.is_equal in Hc'. apply bool_decide_eq_true in Hc'.
    simpl in Hc'. subst tag.
    simpl in Hgroup. destruct Hgroup as (<- & <- & Hc & <- & <-).
    eapply separated_gap; [|exact Hgap2].
    eapply separated_gap; [exact Hsep|]. by apply gap_equal.
  - by apply Hlast.
Qed.

End tiling.

Section patching.
Implicit Types (a b : list str) (body : list str).

Lemma omap_behind_in cs c (l : list str) :
  c ∈ cs → omap (behind cs) ((λ line, c :: line) <$> l) = l.
Proof.
  intros Hc. induction l as [|x l IH]; [done|].
  cbn [fmap list_fmap omap list_omap behind]. rewrite decide_True by done.
  f_equal. exact IH.
Qed.

Lemma omap_behind_out cs c (l : list str) :
  c ∉ cs → omap (behind cs) ((λ line, c :: line) <$> l) = [].
Proof.
  intros Hc. induction l as [|x l IH]; [done|].
  cbn [fmap list_fmap omap list_omap behind]. rewrite decide_False by done.
  exact IH.
Qed.

Lemma Forall_prefixed cs c (l : list str) :
  c ∈ cs → Forall (starts_with_one_of cs) ((λ line, c :: line) <$> l).
Proof.
  intros Hc. apply Forall_fmap, Forall_forall. intros x _. by exists c.
Qed.

(** The lines of the opcodes of a group: their old side is the range of [a]
    the group spans, their new side its range of [b]. *)
Lemma body_sides a b g : ∀ gi gj gi' gj',
  tiles a b g gi gj gi' gj' →
  let body :=
    mjoin ((λ '(tag, i1, i2, j1, j2),
              match tag with
              | difflib.Equal => (λ line, lit " " ++ line) <$> slice a i1 i2
              | difflib.Replace =>
                  ((λ line, lit "-" ++ line) <$> slice a i1 i2)
                  ++ ((λ line, lit "+" ++ line) <$> slice b j1 j2)
              | difflib.Delete => (λ line, lit "-" ++ line) <$> slice a i1 i2
              | difflib.Insert => (λ line, lit "+" ++ line) <$> slice b j1 j2
              end) <$> g) in
  Forall (starts_with_one_of [32; 45; 43]%N) body
  ∧ old_side body = slice a gi gi' ∧ new_side body = slice b gj gj'.
Proof.
  assert (Hsp : 32%N ∈ [32; 45; 43]%N) by in_list.
  assert (Hmi : 45%N ∈ [32; 45; 43]%N) by in_list.
  assert (Hpl : 43%N ∈ [32; 45; 43]%N) by in_list.
  assert (Ho1 : 32%N ∈ [32; 45]%N) by in_list.
  assert (Ho2 : 45%N ∈ [32; 45]%N) by in_list.
  assert (Ho3 : 43%N ∉ [32; 45]%N) by compute_done.
  assert (Hn1 : 32%N ∈ [32; 43]%N) by in_list.
  assert (Hn2 : 43%N ∈ [32; 43]%N) by in_list.
  assert (Hn3 : 45%N ∉ [32; 43]%N) by compute_done.
  set (render := λ c : difflib.tag * Z * Z * Z * Z,
         let '(tag, i1, i2, j1, j2) := c in
         match tag with
         | difflib.Equal => (λ line, lit " " ++ line) <$> slice a i1 i2
         | difflib.Replace =>
             ((λ line, lit "-" ++ line) <$> slice a i1 i2)
             ++ ((λ line, lit "+" ++ line) <$> slice b j1 j2)
         | difflib.Delete => (λ line, lit "-" ++ line) <$> slice a i1 i2
         | difflib.Insert => (λ line, lit "+" ++ line) <$> slice b j1 j2
         end).
  assert (Hrender : ∀ c, code_ok a b c →
            Forall (starts_with_one_of [32; 45; 43]%N) (render c)
            ∧ omap (behind [32; 45]%N) (render c) = slice a c.1.1.1.2 c.1.1.2
            ∧ omap (behind [32; 43]%N) (render c) = slice b c.1.2 c.2).
  { intros [[[[tag i1] i2] j1] j2] Hc.
    pose proof Hc as (_ & _ & _ & Hdel & Hins). simpl in Hdel, Hins.
    unfold render. cbn [fst snd].
    change (λ line : list N, lit " " ++ line) with (λ line : list N, 32%N :: line).
    change (λ line : list N, lit "-" ++ line) with (λ line : list N, 45%N :: line).
    change (λ line : list N, lit "+" ++ line) with (λ line : list N, 43%N :: line).
    destruct tag.
    - rewrite !omap_app, Forall_app.
      rewrite (omap_behind_in _ _ _ Ho2), (omap_behind_out _ _ _ Ho3).
      rewrite (omap_behind_in _ _ _ Hn2), (omap_behind_out _ _ _ Hn3).
      rewrite app_nil_r. split_and!; try done; by apply Forall_prefixed.
    - rewrite (omap_behind_in _ _ _ Ho2), (omap_behind_out _ _ _ Hn3).
      rewrite (Hdel eq_refl), slice_nil.
      split_and!; try done; by apply Forall_prefixed.
    - rewrite (omap_behind_in _ _ _ Hn2), (omap_behind_out _ _ _ Ho3).
      rewrite (Hins eq_refl), slice_nil.
      split_and!; try done; by apply Forall_prefixed.
    - rewrite (omap_behind_in _ _ _ Ho1), (omap_behind_in _ _ _ Hn1).
      destruct (gap_equal a b _ _ _ _ Hc) as (_ & _ & ->).
      split_and!; try done; by apply Forall_prefixed. }
  clearbody render.
  induction g as [|c g IH]; intros gi gj gi' gj'.
  { simpl. intros [-> ->]. by rewrite !slice_nil. }
  intros Ht. simpl in Ht. destruct Ht as (<- & <- & Hc & Ht).
  destruct (IH _ _ _ _ Ht) as (Hall & Hold & Hnew).
  destruct (Hrender c Hc) as (Hall' & Hold' & Hnew').
  pose proof (tiles_le a b _ _ _ _ _ Ht) as [Hi Hj].
  pose proof Hc as (Hi1 & Hj1 & _).
  cbv zeta in *.
  change (mjoin (render <$> c :: g)) with (render c ++ mjoin (render <$> g)).
  unfold old_side, new_side in *.
  rewrite !omap_app, Hold, Hnew, Hold', Hnew', Forall_app.
  rewrite !slice_app by done. done.
Qed.

(** A group is printed as a hunk whose [@@] line gives the ranges the group
    spans. *)
Lemma hunk_sides a b g gi gj gi' gj' :
  g ≠ [] → tiles a b g gi gj gi' gj' →
  ∃ body,
    difflib.hunk a b [] g = print_hunk (gi, gi', gj, gj', body)
    ∧ hunk_ok a b (gi, gi', gj, gj', body).
Proof.
  intros Hne Ht.
  destruct (tiles_head_last a b g _ _ _ _ Hne Ht)
    as (first & lst & Hhead & Hlast & <- & <- & <- & <-).
  eexists. split.
  - unfold difflib.hunk. rewrite Hhead, Hlast.
    unfold print_hunk, range_text. cbn [fst snd]. rewrite app_nil_r.
    reflexivity.
  - unfold hunk_ok. cbn [fst snd]. by apply body_sides.
Qed.

Lemma patch_separated a b groups : ∀ i j,
  separated a b groups i j (len a) (len b) →
  ∃ hunks,
    mjoin (difflib.hunk a b [] <$> groups) = mjoin (print_hunk <$> hunks)
    ∧ length hunks = length groups
    ∧ Forall (hunk_ok a b) hunks
    ∧ patch a i hunks = drop (Z.to_nat j) b.
Proof.
  induction groups as [|g groups IH]; intros i j; cbn [separated].
  - intros (_ & _ & Heq). exists []. split_and!; try done.
    simpl. by rewrite <- !slice_len.
  - intros (gi & gj & gi' & gj' & (? & ? & Hgap) & Hne & Ht & Hsep).
    destruct (IH _ _ Hsep) as (hunks & Hprint & Hlen & Hok & Hpatch).
    destruct (hunk_sides a b g _ _ _ _ Hne Ht) as (body & Hhunk & Hbody).
    pose proof (tiles_le a b _ _ _ _ _ Ht) as [_ Hj].
    exists ((gi, gi', gj, gj', body) :: hunks). split_and!.
    + change (mjoin (difflib.hunk a b [] <$> g :: groups))
        with (difflib.hunk a b [] g ++ mjoin (difflib.hunk a b [] <$> groups)).
      change (mjoin (print_hunk <$> (gi, gi', gj, gj', body) :: hunks))
        with (print_hunk (gi, gi', gj, gj', body)
                ++ mjoin (print_hunk <$> hunks)).
      by rewrite Hhunk, Hprint.
    + simpl. by rewrite Hlen.
    + by constructor.
    + destruct Hbody as (_ & _ & Hnew). cbn [fst snd] in Hnew.
      cbn [patch fst snd]. rewrite Hpatch, Hgap, Hnew.
      rewrite slice_drop by done. by rewrite slice_drop.
Qed.

(** The unified diff of two line sequences is a patch from the first to the
    second. *)
Lemma unified_diff_patch a b fromfile tofile :
  ∃ hunks,
    difflib.unified_diff a b fromfile tofile [] [] 3 []
    = match hunks with
      | [] => []
      | _ => (lit "--- " ++ fromfile) :: (lit "+++ " ++ tofile)
             :: mjoin (print_hunk <$> hunks)
      end
    ∧ Forall (hunk_ok a b) hunks
    ∧ patch a 0 hunks = b
    ∧ (a ≠ b → hunks ≠ []).
Proof.
  rewrite unified_diff_eq.
  destruct (patch_separated a b _ 0 0
              (get_grouped_opcodes_separated a b 3 ltac:(lia)))
    as (hunks & Hprint & Hlen & Hok & Hpatch).
  exists hunks.
  destruct (difflib.get_grouped_opcodes (difflib.new a b) 3) as [|g gs];
    destruct hunks as [|h hunks]; try discriminate Hlen.
  - split_and!; done.
  - rewrite Hprint. done.
Qed.

End patching.

Section matcher_properties.
Context {A : Type} {eq_dec : EqDecision A} {countable : Countable A}.
Implicit Types a b : list A.

(** X11: the opcodes on which the diff is built are an edit script from the
    first sequence to the second: keeping the [Equal] ranges and bringing
    the ranges of [Replace] and [Insert] gives the second sequence, and the
    ranges of all opcodes but [Insert] make up the first. *)
Theorem opcodes_turn_a_into_b a b :
  apply_opcodes a b (difflib.get_opcodes (difflib.new a b)) = b
  ∧ consumed_by_opcodes a (difflib.get_opcodes (difflib.new a b)) = a.
Proof.
  destruct (get_matching_blocks_chain a b) as (Hchain & Hwhole & ms & Hms).
  unfold difflib.get_opcodes.
  destruct (opcodes_fold_apply a b _ 0 0 [] Hchain Hwhole) as [Happly Hcons];
    [|done|done|done|done|].
  { eapply Forall_impl; [exact Hwhole|].
    intros [[i j] k] (? & _ & ? & _). simpl in *. lia. }
  pose proof (opcodes_fold_end a b ms (0, 0, [])) as Hend.
  rewrite <- Hms in Hend. rewrite Hend in Happly, Hcons. simpl in Happly, Hcons.
  rewrite Happly, Hcons. split; apply take_ge; unfold len; lia.
Qed.

(** X12: the loop over the queue of [get_matching_blocks] ends with the
    queue empty, and the blocks returned are the sentinel
    [(len a, len b, 0)] after blocks of positive size, each a range of [a]
    equal to a range of [b], in ascending order and without overlap in
    either sequence. *)
Theorem matching_blocks_ascending a b :
  (difflib.mb_loop (difflib.new a b) (2 * length a + 1)
     [(0, len a, 0, len b)] []).1 = []
  ∧ ∃ ms,
      difflib.get_matching_blocks (difflib.new a b) = ms ++ [(len a, len b, 0)]
      ∧ chain (ms ++ [(len a, len b, 0)])
      ∧ Forall (λ m, block_in a b 0 (len a) 0 (len b) m ∧ 0 < m.2) ms.
Proof.
  destruct (mb_loop_spec a b (2 * length a + 1) [(0, len a, 0, len b)] [])
    as [Hqueue (_ & Hblocks & Hapart)].
  { split_and!; [|done|by repeat constructor].
    apply Forall_singleton. unfold valid_window, len. simpl. lia. }
  { rewrite queue_weight_cons. unfold queue_weight, len. simpl. lia. }
  split; [done|].
  destruct (get_matching_blocks_chain a b) as (Hchain & _ & _).
  revert Hchain. unfold difflib.get_matching_blocks. rewrite new_seq_a, new_seq_b.
  simpl in Hapart.
  set (blocks := (difflib.mb_loop (difflib.new a b) _ _ _).2) in *.
  pose proof (merge_sort_Permutation difflib.match_le blocks) as Hperm.
  pose proof (@StronglySorted_merge_sort _ difflib.match_le _
                match_le_trans match_le_total blocks) as Hsorted.
  set (sorted := merge_sort difflib.match_le blocks) in *.
  rewrite <- Hperm in Hblocks.
  assert (Hsortedchain : chain sorted).
  { apply sorted_apart_chain; [done| |].
    - eapply all_apart_Permutation; [|exact Hapart]. by rewrite Hperm.
    - eapply Forall_impl; [exact Hblocks|]. by intros m [_ ?]. }
  destruct (collapse_fold a b sorted (0, 0, 0) []) as (_ & Hna & Hcur);
    [|done| |done|].
  { simpl. apply StronglySorted_cons. split; [|done].
    eapply Forall_impl; [exact Hblocks|].
    intros [[i j] k] [(? & ? & ? & ? & ? & _) _].
    unfold before, window_of. simpl in *. lia. }
  { unfold block_in, len. simpl. split_and!; intros; lia. }
  destruct (foldl difflib.collapse_step _ _) as [[[i1 j1] k1] non_adjacent].
  simpl in Hna, Hcur. intros Hchain.
  destruct (decide (k1 = 0)) as [Hk1|Hk1].
  - by exists non_adjacent.
  - exists (non_adjacent ++ [(i1, j1, k1)]). split_and!; [done|done|].
    apply Forall_app. split; [done|]. apply Forall_singleton.
    split; [done|]. destruct Hcur as (_ & _ & _ & _ & ? & _). simpl in *. lia.
Qed.

(** X13: inside a window of the two sequences, [find_longest_match] returns
    a block that lies in the window and whose elements are equal, position
    by position. *)
Theorem find_longest_match_in_window a b alo ahi blo bhi :
  0 ≤ alo ≤ ahi → ahi ≤ len a → 0 ≤ blo ≤ bhi → bhi ≤ len b →
  block_in a b alo ahi blo bhi
    (difflib.find_longest_match (difflib.new a b) alo ahi blo bhi).
Proof. apply find_longest_match_block. Qed.

(** X14: a sequence compared with itself matches as a whole, also when the
    elements that count as popular have left the index: the longest match
    is the full sequence and the only opcode is one [Equal] over it (none
    for the empty sequence). *)
Theorem identical_sequences_match_whole a :
  difflib.find_longest_match (difflib.new a a) 0 (len a) 0 (len a)
  = (0, 0, len a)
  ∧ difflib.get_opcodes (difflib.new a a)
    = (if decide (len a = 0) then []
       else [(difflib.Equal, 0, len a, 0, len a)])
  ∧ difflib.get_grouped_opcodes (difflib.new a a) 3 = [].
Proof.
  split_and!.
  - apply find_longest_match_identical.
  - apply get_opcodes_identical.
  - apply get_grouped_opcodes_identical.
Qed.

End matcher_properties.

Lemma find_longest_match_in_window_witness :
  0 ≤ 0 ≤ 3 ∧ 3 ≤ len [lit "q"; lit "a"; lit "b"]
  ∧ 0 ≤ 0 ≤ 2 ∧ 2 ≤ len [lit "a"; lit "b"]
  ∧ block_in [lit "q"; lit "a"; lit "b"] [lit "a"; lit "b"] 0 3 0 2
      (difflib.find_longest_match
         (difflib.new [lit "q"; lit "a"; lit "b"] [lit "a"; lit "b"]) 0 3 0 2).
Proof.
  assert (H1 : 0 ≤ 0 ≤ 3) by lia.
  assert (H2 : 3 ≤ len [lit "q"; lit "a"; lit "b"]) by (unfold len; simpl; lia).
  assert (H3 : 0 ≤ 0 ≤ 2) by lia.
  assert (H4 : 2 ≤ len [lit "a"; lit "b"]) by (unfold len; simpl; lia).
  split; [exact H1|]. split; [exact H2|]. split; [exact H3|]. split; [exact H4|].
  exact (find_longest_match_in_window _ _ 0 3 0 2 H1 H2 H3 H4).
Defined.

(** X15: in the diff printed after the two headers, a line shown as
    context (behind a space) is a line of both contents, a line behind [-]
    is a line of the first and a line behind [+] a line of the second. *)
Theorem diff_lines_come_from_the_files (a b : list str) fromfile tofile
    header1 header2 hunks x :
  difflib.unified_diff a b fromfile tofile [] [] 3 []
  = header1 :: header2 :: hunks →
  (lit " " ++ x ∈ hunks → x ∈ a ∧ x ∈ b)
  ∧ (lit "-" ++ x ∈ hunks → x ∈ a)
  ∧ (lit "+" ++ x ∈ hunks → x ∈ b).
Proof.
  rewrite unified_diff_eq.
  pose proof (get_grouped_opcodes_ok a b) as Hok.
  destruct (difflib.get_grouped_opcodes (difflib.new a b) 3) as [|g gs];
    [done|].
  intros [= _ _ <-].
  assert (Hgroup : ∀ l, l ∈ mjoin (difflib.hunk a b [] <$> g :: gs) →
            ∃ g', g' ∈ g :: gs ∧ l ∈ difflib.hunk a b [] g').
  { intros l (h & Hl & Hh)%list_elem_of_join.
    apply list_elem_of_fmap in Hh as (g' & -> & Hg'). eauto. }
  split_and!.
  - intros (g' & Hg' & Hl)%Hgroup. eapply hunk_context_line; [|exact Hl].
    rewrite Forall_forall in Hok. by apply Hok.
  - intros (g' & _ & Hl)%Hgroup. apply hunk_lines in Hl.
    destruct Hl as [(s1 & e1 & s2 & e2 & Heq)|[(y & Hy & [Heq|Heq])|(y & _ & Heq)]];
      try discriminate Heq.
    by injection Heq as ->.
  - intros (g' & _ & Hl)%Hgroup. apply hunk_lines in Hl.
    destruct Hl as [(s1 & e1 & s2 & e2 & Heq)|[(y & _ & [Heq|Heq])|(y & Hy & Heq)]];
      try discriminate Heq.
    by injection Heq as ->.
Qed.

Lemma diff_lines_come_from_the_files_witness :
  difflib.unified_diff [lit "foo"; lit "bar"] [lit "foo"; lit "baz"]
    (lit "a/a.txt") (lit "b/b.txt") [] [] 3 []
  = lit "--- a/a.txt" :: lit "+++ b/b.txt"
    :: [lit "@@ -1,2 +1,2 @@"; lit " foo"; lit "-bar"; lit "+baz"]
  ∧ (lit "foo" ∈ [lit "foo"; lit "bar"] ∧ lit "foo" ∈ [lit "foo"; lit "baz"]).
Proof.
  assert (Hdiff :
    difflib.unified_diff [lit "foo"; lit "bar"] [lit "foo"; lit "baz"]
      (lit "a/a.txt") (lit "b/b.txt") [] [] 3 []
    = lit "--- a/a.txt" :: lit "+++ b/b.txt"
      :: [lit "@@ -1,2 +1,2 @@"; lit " foo"; lit "-bar"; lit "+baz"])
    by (vm_compute; reflexivity).
  split; [exact Hdiff|].
  apply (proj1 (diff_lines_come_from_the_files _ _ _ _ _ _ _ (lit "foo") Hdiff)).
  apply list_elem_of_further, list_elem_of_here.
Defined.

(** X16: the diff that follows the warning is a patch from the lines of the
    first content to the lines of the second.  It is empty, or made of the
    two headers and of hunks; each hunk is a range line over a range of
    each line sequence and a body of lines behind a space, [-] or [+]; the
    lines behind a space or [-] are, in order, that range of the first
    sequence, the lines behind a space or [+] that range of the second; and
    replacing, in the first sequence, the range of each hunk by the lines
    of its body behind a space or [+] gives the second sequence.  There is
    a hunk as soon as the two line sequences differ.  For "foo\nbar\n"
    against "foo\nbaz\n" the diff is the two headers, [@@ -1,2 +1,2 @@],
    [ foo], [-bar], [+baz]. *)
Theorem printed_diff_is_a_patch :
  (∀ (fs : str → file) (p q t1 t2 : str),
     fs p = Text t1 → fs q = Text t2 →
     let lines1 := splitlines (rstrip (translate_newlines t1)) in
     let lines2 := splitlines (rstrip (translate_newlines t2)) in
     rstrip (translate_newlines t1) ≠ rstrip (translate_newlines t2) →
     ∃ hunks,
       loose_diff fs p q
       = (banner p q ++ msg_differs
            :: match hunks with
               | [] => []
               | _ => (lit "--- " ++ lit "a/" ++ p)
                      :: (lit "+++ " ++ lit "b/" ++ q)
                      :: mjoin (print_hunk <$> hunks)
               end, inr ())
       ∧ Forall (hunk_ok lines1 lines2) hunks
       ∧ patch lines1 0 hunks = lines2
       ∧ (lines1 ≠ lines2 → hunks ≠ []))
  ∧ loose_diff example_fs (lit "a.txt") (lit "b.txt")
    = (banner (lit "a.txt") (lit "b.txt")
         ++ [msg_differs; lit "--- a/a.txt"; lit "+++ b/b.txt";
             lit "@@ -1,2 +1,2 @@"; lit " foo"; lit "-bar"; lit "+baz"],
       inr ()).
Proof.
  split; [|vm_compute; reflexivity].
  intros fs p q t1 t2 Hp Hq lines1 lines2 Hne.
  destruct (unified_diff_patch lines1 lines2 (lit "a/" ++ p) (lit "b/" ++ q))
    as (hunks & Hdiff & Hok & Hpatch & Hsome).
  exists hunks. split_and!; [|done..].
  rewrite (loose_diff_Text _ _ _ _ _ Hp Hq). rewrite decide_False by done.
  unfold rendered_diff. fold lines1 lines2. by rewrite Hdiff.
Qed.

Lemma printed_diff_is_a_patch_witness :
  example_fs (lit "a.txt") = Text (lit "foo" ++ [LF] ++ lit "bar" ++ [LF])
  ∧ example_fs (lit "b.txt") = Text (lit "foo" ++ [LF] ++ lit "baz" ++ [LF])
  ∧ rstrip (translate_newlines (lit "foo" ++ [LF] ++ lit "bar" ++ [LF]))
    ≠ rstrip (translate_newlines (lit "foo" ++ [LF] ++ lit "baz" ++ [LF]))
  ∧ ∃ hunks,
      loose_diff example_fs (lit "a.txt") (lit "b.txt")
      = (banner (lit "a.txt") (lit "b.txt") ++ msg_differs
           :: match hunks with
              | [] => []
              | _ => (lit "--- " ++ lit "a/" ++ lit "a.txt")
                     :: (lit "+++ " ++ lit "b/" ++ lit "b.txt")
                     :: mjoin (print_hunk <$> hunks)
              end, inr ())
      ∧ patch [lit "foo"; lit "bar"] 0 hunks = [lit "foo"; lit "baz"].
Proof.
  assert (Hne :
    rstrip (translate_newlines (lit "foo" ++ [LF] ++ lit "bar" ++ [LF]))
    ≠ rstrip (translate_newlines (lit "foo" ++ [LF] ++ lit "baz" ++ [LF])))
    by compute_done.
  split; [reflexivity|]. split; [reflexivity|]. split; [exact Hne|].
  destruct (proj1 printed_diff_is_a_patch example_fs (lit "a.txt") (lit "b.txt")
              _ _ eq_refl eq_refl Hne) as (hunks & Heq & _ & Hpatch & _).
  exists hunks. split; [exact Heq|exact Hpatch].
Defined.
